(** * dot.agent: metadata search index, validator and version checks

    A shallow embedding of the JavaScript/TypeScript sources of the
    [dot.agent] package:

    - [search/index]  : [SearchIndex] and [AgentSearchEngine];
    - [parser/index]  : [AgentParser.validate], [parse], [serialize] and
                        [parseAndValidate];
    - [validator/schema] : the schema of the metadata;
    - [utils/version] : [VersionManager.checkCompatibility],
                        [checkModelCompatibility], [compareVersions] and
                        [getVersionHistory];
    - [utils/helpers] : [normalizeMetadata], [parseAgentFilename],
                        [generateAgentFilename], [isAgentFile],
                        [validateAgentFile] and [parseAgentFile].

    JavaScript [Map]s and [Set]s iterate in insertion order, and that order
    is observable (ranking ties, pagination), so they are association lists
    and duplicate-free lists here.  Strings are sequences of ASCII
    characters; numbers of the search engine and of the version manager are
    integers. *)

From Stdlib Require Import List String Ascii ZArith QArith Lia Bool.
From Stdlib Require Import Permutation Sorting.Sorted.
From Stdlib Require Import Numbers.DecimalString.
Import ListNotations.

#[local] Set Warnings "-register-all".
Local Close Scope Q_scope.
Local Open Scope list_scope.
Local Open Scope string_scope.

(* ================================================================== *)
(** ** JavaScript strings *)
(* ================================================================== *)

Module JsString.

(** [\s] on ASCII text: tab, line feed, vertical tab, form feed,
    carriage return and space. *)
Definition is_space (c : ascii) : bool :=
  let n := nat_of_ascii c in
  (((9 <=? n) && (n <=? 13)) || (n =? 32))%nat.

Definition is_upper (c : ascii) : bool :=
  let n := nat_of_ascii c in ((65 <=? n) && (n <=? 90))%nat.

Definition lower_char (c : ascii) : ascii :=
  if is_upper c then ascii_of_nat (nat_of_ascii c + 32) else c.

(** [s.toLowerCase()] *)
Fixpoint toLowerCase (s : string) : string :=
  match s with
  | EmptyString => EmptyString
  | String c s' => String (lower_char c) (toLowerCase s')
  end.

(** [s.split(/\s+/)]: the fields between maximal runs of whitespace.  A
    leading or trailing run yields an empty first or last field, and the
    empty string yields one empty field. *)
Fixpoint split_ws (s : string) : list string :=
  match s with
  | EmptyString => [EmptyString]
  | String c s' =>
      let r := split_ws s' in
      if is_space c then
        match s' with
        | String c' _ => if is_space c' then r else EmptyString :: r
        | EmptyString => EmptyString :: r
        end
      else
        match r with
        | t :: ts => String c t :: ts
        | [] => [String c EmptyString]
        end
  end.

(** [s.includes(t)]: [t] occurs in [s] as a contiguous substring. *)
Fixpoint includes (s t : string) : bool :=
  if prefix t s then true
  else match s with
       | EmptyString => false
       | String _ s' => includes s' t
       end.

(** [parts.join(sep)] *)
Definition join (sep : string) (parts : list string) : string :=
  String.concat sep parts.

Fixpoint trimStart (s : string) : string :=
  match s with
  | String c s' => if is_space c then trimStart s' else s
  | EmptyString => EmptyString
  end.

(** Drops the trailing whitespace: a character is kept when it is not
    whitespace or when something is kept after it. *)
Fixpoint trimEnd (s : string) : string :=
  match s with
  | EmptyString => EmptyString
  | String c s' =>
      match trimEnd s' with
      | EmptyString => if is_space c then EmptyString else String c EmptyString
      | r => String c r
      end
  end.

(** Every character of [s] satisfies [p]. *)
Fixpoint every (p : ascii -> bool) (s : string) : bool :=
  match s with
  | EmptyString => true
  | String c s' => p c && every p s'
  end.

(** [s.trim()] *)
Definition trim (s : string) : string := trimEnd (trimStart s).

(** [Boolean(s)] for a string: the empty string is falsy. *)
Definition truthy (s : string) : bool := negb (s =? EmptyString).

(** The one-character string that holds a double quote. *)
Definition dquote : string := String (ascii_of_nat 34) EmptyString.

(** Decimal rendering of a non-negative integer inside a template
    literal. *)
Definition of_N (n : N) : string := NilEmpty.string_of_uint (N.to_uint n).

(** Decimal rendering of an integer inside a template literal. *)
Definition of_Z (z : Z) : string := NilEmpty.string_of_int (Z.to_int z).

End JsString.

(* ================================================================== *)
(** ** Insertion-ordered maps and sets *)
(* ================================================================== *)

Module JsMap.

Section Ops.
Context {V : Type}.

(** [m.get(k)] *)
Fixpoint get (m : list (string * V)) (k : string) : option V :=
  match m with
  | [] => None
  | (k', v) :: m' => if k' =? k then Some v else get m' k
  end.

(** [m.has(k)] *)
Definition has (m : list (string * V)) (k : string) : bool :=
  match get m k with Some _ => true | None => false end.

(** [m.set(k, v)]: an existing key keeps its place, a new key goes
    last. *)
Fixpoint set (m : list (string * V)) (k : string) (v : V)
  : list (string * V) :=
  match m with
  | [] => [(k, v)]
  | (k', v') :: m' =>
      if k' =? k then (k', v) :: m' else (k', v') :: set m' k v
  end.

(** [m.delete(k)] *)
Fixpoint delete (m : list (string * V)) (k : string)
  : list (string * V) :=
  match m with
  | [] => []
  | (k', v') :: m' =>
      if k' =? k then delete m' k else (k', v') :: delete m' k
  end.

(** [Array.from(m.values())] *)
Definition values (m : list (string * V)) : list V := map snd m.

Definition keys (m : list (string * V)) : list string := map fst m.
End Ops.

End JsMap.

Module JsSet.

(** [s.has(x)] *)
Definition has (s : list string) (x : string) : bool :=
  existsb (String.eqb x) s.

(** [s.add(x)] *)
Definition add (s : list string) (x : string) : list string :=
  if has s x then s else s ++ [x].

(** [s.delete(x)] *)
Definition delete (s : list string) (x : string) : list string :=
  filter (fun y => negb (y =? x)) s.

End JsSet.

(* ================================================================== *)
(** ** [Array.prototype.sort] with a comparator *)
(* ================================================================== *)

(** The sort is stable: it is modelled by the stable insertion sort, with
    [before x y] standing for [compare(x, y) <= 0]. *)
Module JsSort.

Section Sort.
Context {A : Type}.
Variable before : A -> A -> bool.

Fixpoint insert (x : A) (l : list A) : list A :=
  match l with
  | [] => [x]
  | y :: l' => if before x y then x :: y :: l' else y :: insert x l'
  end.

Fixpoint sort (l : list A) : list A :=
  match l with
  | [] => []
  | x :: l' => insert x (sort l')
  end.
End Sort.

End JsSort.

(* ================================================================== *)
(** ** The data model ([types/agent]) *)
(* ================================================================== *)

Inductive Difficulty := beginner | intermediate | advanced.

Definition Difficulty_eqb (a b : Difficulty) : bool :=
  match a, b with
  | beginner, beginner | intermediate, intermediate | advanced, advanced => true
  | _, _ => false
  end.

Record ModelRequirements := {
  min_context : option Z;
  max_tokens : option Z;
  preferred_models : option (list string)
}.

(** [AgentMetadata], with the fields that the search engine and the version
    manager read.  An optional field ([field?: T]) is an [option]. *)
Record AgentMetadata := {
  name : string;
  version : option string;
  description : option string;
  role : option string;
  specialization : option string;
  capabilities : option (list string);
  coding_languages : option (list string);
  frameworks : option (list string);
  model_requirements : option ModelRequirements;
  created : option string;
  updated : option string;
  tags : option (list string);
  keywords : option (list string);
  category : option string;
  use_cases : option (list string);
  difficulty : option Difficulty;
  requires_internet : option bool
}.

(** A record with only the required field. *)
Definition metadata_named (n : string) : AgentMetadata :=
  {| name := n; version := None; description := None; role := None;
     specialization := None; capabilities := None; coding_languages := None;
     frameworks := None; model_requirements := None; created := None;
     updated := None; tags := None; keywords := None; category := None;
     use_cases := None; difficulty := None; requires_internet := None |}.

(** [x || []] for an optional array. *)
Definition or_empty {A : Type} (x : option (list A)) : list A :=
  match x with Some l => l | None => [] end.

(** [x || ''] for an optional string ([''] is itself falsy). *)
Definition or_empty_string (x : option string) : string :=
  match x with Some s => s | None => EmptyString end.

(** An optional string as zero or one array element that [filter(Boolean)]
    may keep. *)
Definition defined (x : option string) : list string :=
  match x with Some s => [s] | None => [] end.

(* ================================================================== *)
(** ** [SearchIndex] ([search/index]) *)
(* ================================================================== *)

Module SearchIndex.

Import JsString.

Record t := {
  index : list (string * list string);
  documents : list (string * AgentMetadata)
}.

Definition empty : t := {| index := []; documents := [] |}.

Definition searchableText (metadata : AgentMetadata) : string :=
  toLowerCase
    (join " "
       (filter truthy
          ([name metadata]
             ++ defined (description metadata)
             ++ defined (role metadata)
             ++ defined (specialization metadata)
             ++ or_empty (capabilities metadata)
             ++ or_empty (tags metadata)
             ++ or_empty (keywords metadata)
             ++ or_empty (use_cases metadata)))).

(** The body of the loop over the tokens of a document. *)
Definition add_posting (id : string) (idx : list (string * list string))
           (token : string) : list (string * list string) :=
  let idx' := if JsMap.has idx token then idx else JsMap.set idx token [] in
  match JsMap.get idx' token with
  | Some ids => JsMap.set idx' token (JsSet.add ids id)
  | None => idx'
  end.

Definition addDocument (s : t) (id : string) (metadata : AgentMetadata) : t :=
  let documents' := JsMap.set (documents s) id metadata in
  let tokens := split_ws (searchableText metadata) in
  {| index := fold_left (add_posting id) tokens (index s);
     documents := documents' |}.

(** The loop over the entries of the index: the id leaves every posting
    set, and a token whose set is then empty is deleted. *)
Fixpoint remove_postings (id : string) (idx : list (string * list string))
  : list (string * list string) :=
  match idx with
  | [] => []
  | (token, ids) :: idx' =>
      let ids' := JsSet.delete ids id in
      if (List.length ids' =? 0)%nat then remove_postings id idx'
      else (token, ids') :: remove_postings id idx'
  end.

Definition removeDocument (s : t) (id : string) : t :=
  {| index := remove_postings id (index s);
     documents := JsMap.delete (documents s) id |}.

(** [results.set(id, (results.get(id) || 0) + k)] *)
Definition bump (k : Z) (results : list (string * Z)) (id : string)
  : list (string * Z) :=
  let old := match JsMap.get results id with Some v => v | None => 0%Z end in
  JsMap.set results id (old + k)%Z.

(** The body of the loop over the tokens of a query. *)
Definition score_token (idx : list (string * list string))
           (results : list (string * Z)) (token : string)
  : list (string * Z) :=
  let results1 :=
    match JsMap.get idx token with
    | Some exactMatches => fold_left (bump 2) exactMatches results
    | None => results
    end in
  fold_left
    (fun res (entry : string * list string) =>
       let (indexToken, ids) := entry in
       if includes indexToken token then fold_left (bump 1) ids res
       else res)
    idx results1.

Definition tokenize (query : string) : list string :=
  split_ws (toLowerCase query).

(** The [results] map when the loop over the query tokens ends. *)
Definition scores (s : t) (query : string) : list (string * Z) :=
  fold_left (score_token (index s)) (tokenize query) [].

(** The comparator [(a, b) => b[1] - a[1]] is non-positive. *)
Definition by_score_desc (a b : string * Z) : bool :=
  (snd b - snd a <=? 0)%Z.

Definition search (s : t) (query : string) : list string :=
  map fst (JsSort.sort by_score_desc (scores s query)).

End SearchIndex.

(* ================================================================== *)
(** ** [AgentSearchEngine] ([search/index]) *)
(* ================================================================== *)

Module SortField.
Inductive t := name | version | created | updated | relevance.
End SortField.

Inductive SortOrder := asc | desc.

Record SortOption := { field : SortField.t; order : SortOrder }.

(** The filters that [applyFilters] reads. *)
Module SearchFilters.
Record t := {
  capabilities : option (list string);
  coding_languages : option (list string);
  frameworks : option (list string);
  category : option string;
  difficulty : option Difficulty;
  requires_internet : option bool
}.
End SearchFilters.

Record SearchOptions := {
  query : option string;
  filters : option SearchFilters.t;
  sort : option SortOption;
  limit : option Z;
  offset : option Z
}.

Module SearchResult.
Record t := {
  agents : list AgentMetadata;
  total : Z;
  page : Z;
  pageSize : Z
}.
End SearchResult.

(** [a.slice(start, end)] on integers: a negative bound counts from the
    end of the array, and both bounds are clamped to it. *)
Definition js_slice {A : Type} (a : list A) (start stop : Z) : list A :=
  let len := Z.of_nat (List.length a) in
  let k := if (start <? 0)%Z then Z.max (len + start) 0 else Z.min start len in
  let final := if (stop <? 0)%Z then Z.max (len + stop) 0 else Z.min stop len in
  firstn (Z.to_nat (final - k)) (skipn (Z.to_nat k) a).

(** [x || d] for an optional number: [undefined] and [0] are falsy. *)
Definition or_default (x : option Z) (d : Z) : Z :=
  match x with
  | Some v => if (v =? 0)%Z then d else v
  | None => d
  end.

Definition option_eqb {A : Type} (eqb : A -> A -> bool) (x y : option A) : bool :=
  match x, y with
  | Some a, Some b => eqb a b
  | None, None => true
  | _, _ => false
  end.

Module AgentSearchEngine.

Record t := {
  agents : list (string * AgentMetadata);
  searchIndex : SearchIndex.t
}.

Definition empty : t := {| agents := []; searchIndex := SearchIndex.empty |}.

Definition addAgent (e : t) (agentId : string) (metadata : AgentMetadata) : t :=
  {| agents := JsMap.set (agents e) agentId metadata;
     searchIndex := SearchIndex.addDocument (searchIndex e) agentId metadata |}.

Definition removeAgent (e : t) (agentId : string) : t :=
  {| agents := JsMap.delete (agents e) agentId;
     searchIndex := SearchIndex.removeDocument (searchIndex e) agentId |}.

Definition getAgentId (agent : AgentMetadata) : string :=
  name agent ++ "-" ++
    match version agent with
    | Some v => if JsString.truthy v then v else "latest"
    | None => "latest"
    end.

(** [wanted?.length] is truthy and no wanted value is in [have]. *)
Definition misses_any_of (wanted have : option (list string)) : bool :=
  match wanted with
  | Some (w :: ws) =>
      negb (existsb (fun x => existsb (String.eqb x) (or_empty have)) (w :: ws))
  | _ => false
  end.

Definition passes (filters : SearchFilters.t) (agent : AgentMetadata) : bool :=
  if misses_any_of (SearchFilters.capabilities filters) (capabilities agent)
  then false
  else if misses_any_of (SearchFilters.coding_languages filters)
                        (coding_languages agent)
  then false
  else if misses_any_of (SearchFilters.frameworks filters) (frameworks agent)
  then false
  else if match SearchFilters.category filters with
          | Some c => JsString.truthy c
                      && negb (option_eqb String.eqb (category agent) (Some c))
          | None => false
          end then false
  else if match SearchFilters.difficulty filters with
          | Some d => negb (option_eqb Difficulty_eqb (difficulty agent) (Some d))
          | None => false
          end then false
  else if match SearchFilters.requires_internet filters with
          | Some b => negb (option_eqb Bool.eqb (requires_internet agent) (Some b))
          | None => false
          end then false
  else true.

Definition applyFilters (agents : list AgentMetadata) (filters : SearchFilters.t)
  : list AgentMetadata :=
  filter (passes filters) agents.

Section Locale.

(** [a.localeCompare(b)] is the collation of the host's locale. *)
Variable localeCompare : string -> string -> Z.

Definition comparison (f : SortField.t) (a b : AgentMetadata) : Z :=
  match f with
  | SortField.name => localeCompare (name a) (name b)
  | SortField.created =>
      localeCompare (or_empty_string (created a)) (or_empty_string (created b))
  | SortField.updated =>
      localeCompare (or_empty_string (updated a)) (or_empty_string (updated b))
  | SortField.version =>
      localeCompare (or_empty_string (version a)) (or_empty_string (version b))
  | SortField.relevance => 0%Z
  end.

Definition compareFn (sort : SortOption) (a b : AgentMetadata) : Z :=
  match order sort with
  | asc => comparison (field sort) a b
  | desc => (- comparison (field sort) a b)%Z
  end.

Definition sortResults (agents : list AgentMetadata) (sort : SortOption)
  : list AgentMetadata :=
  JsSort.sort (fun a b => (compareFn sort a b <=? 0)%Z) agents.

(** [results] before it is sorted: all agents, narrowed by the text query
    and then by the filters. *)
Definition narrowed (e : t) (options : SearchOptions) : list AgentMetadata :=
  let results := JsMap.values (agents e) in
  let results :=
    match query options with
    | Some q =>
        if JsString.truthy q then
          let searchIds := SearchIndex.search (searchIndex e) q in
          filter (fun agent => JsSet.has searchIds (getAgentId agent)) results
        else results
    | None => results
    end in
  match filters options with
  | Some f => applyFilters results f
  | None => results
  end.

(** [results] when the pagination starts. *)
Definition matching (e : t) (options : SearchOptions) : list AgentMetadata :=
  let results := narrowed e options in
  match sort options with
  | Some s => sortResults results s
  | None => results
  end.

Definition search (e : t) (options : SearchOptions) : SearchResult.t :=
  let results := matching e options in
  let offset := or_default (offset options) 0 in
  let limit := or_default (limit options) 20 in
  let paginatedResults := js_slice results offset (offset + limit) in
  {| SearchResult.agents := paginatedResults;
     SearchResult.total := Z.of_nat (List.length results);
     SearchResult.page := (offset / limit + 1)%Z;
     SearchResult.pageSize := limit |}.

End Locale.

(** [agent.capabilities?.includes(capability)] *)
Definition findByCapability (e : t) (capability : string) : list AgentMetadata :=
  filter (fun agent =>
            existsb (String.eqb capability) (or_empty (capabilities agent)))
         (JsMap.values (agents e)).

Definition findByLanguage (e : t) (language : string) : list AgentMetadata :=
  filter (fun agent =>
            existsb (String.eqb language) (or_empty (coding_languages agent)))
         (JsMap.values (agents e)).

Definition findByCategory (e : t) (category' : string) : list AgentMetadata :=
  filter (fun agent => option_eqb String.eqb (category agent) (Some category'))
         (JsMap.values (agents e)).

(** [xs?.some(x => x.toLowerCase().includes(useCase.toLowerCase()))] *)
Definition some_includes (xs : option (list string)) (useCase : string) : bool :=
  match xs with
  | Some l =>
      existsb (fun x => JsString.includes (JsString.toLowerCase x)
                                          (JsString.toLowerCase useCase)) l
  | None => false
  end.

(** The [score] of an agent when the body of the loop of
    [getRecommendations] has run. *)
Definition recommendation_score (agent : AgentMetadata) (useCase : string) : Z :=
  ((if some_includes (use_cases agent) useCase then 10 else 0)
   + (if some_includes (capabilities agent) useCase then 5 else 0)
   + (match description agent with
      | Some d =>
          if JsString.includes (JsString.toLowerCase d)
                               (JsString.toLowerCase useCase)
          then 3 else 0
      | None => 0
      end)
   + (if some_includes (tags agent) useCase then 2 else 0))%Z.

(** The [scores] map of [getRecommendations].  Its keys are the metadata
    objects themselves; every registered object is taken to be an object of
    its own, so that each [set] adds an entry. *)
Definition recommendation_scores (e : t) (useCase : string)
  : list (AgentMetadata * Z) :=
  fold_left
    (fun scores agent =>
       let score := recommendation_score agent useCase in
       if (0 <? score)%Z then (scores ++ [(agent, score)])%list else scores)
    (JsMap.values (agents e)) [].

(** [limit] is 5 when the argument is left out, and only then. *)
Definition getRecommendations (e : t) (useCase : string) (limit : option Z)
  : list AgentMetadata :=
  let limit := match limit with Some l => l | None => 5%Z end in
  map fst
      (js_slice
         (JsSort.sort (fun a b : AgentMetadata * Z => (snd b - snd a <=? 0)%Z)
                      (recommendation_scores e useCase))
         0 limit).

End AgentSearchEngine.

(* ================================================================== *)
(** ** Semantic versions *)
(* ================================================================== *)

(** What [VersionManager] calls in the [semver] package.  [None] from
    [major] or [lt] stands for the [TypeError] they throw on a string that
    is not a version; [clean] returns [null] and [satisfies] returns
    [false] instead of throwing. *)
Module Semver.

Record lib := {
  clean : string -> option string;
  satisfies : string -> string -> bool;
  major : string -> option N;
  lt : string -> string -> option bool
}.

Import JsString.

Record SemVer := {
  v_major : N;
  v_minor : N;
  v_patch : N;
  prerelease : list string;
  build : list string
}.

Definition is_digit (c : ascii) : bool :=
  let n := nat_of_ascii c in ((48 <=? n) && (n <=? 57))%nat.

Definition is_ident_char (c : ascii) : bool :=
  let n := nat_of_ascii c in
  (is_digit c
   || ((65 <=? n) && (n <=? 90)) || ((97 <=? n) && (n <=? 122))
   || (n =? 45))%nat.

(** Splits at the first occurrence of [sep], which is dropped. *)
Fixpoint cut (sep : ascii) (s : string) : string * option string :=
  match s with
  | EmptyString => (EmptyString, None)
  | String c s' =>
      if Ascii.eqb c sep then (EmptyString, Some s')
      else let (l, r) := cut sep s' in (String c l, r)
  end.

(** [s.split(sep)] for a one-character separator. *)
Fixpoint split_on (sep : ascii) (s : string) : list string :=
  match s with
  | EmptyString => [EmptyString]
  | String c s' =>
      if Ascii.eqb c sep then EmptyString :: split_on sep s'
      else match split_on sep s' with
           | t :: ts => String c t :: ts
           | [] => [String c EmptyString]
           end
  end.

Fixpoint digits_value (acc : N) (s : string) : N :=
  match s with
  | EmptyString => acc
  | String c s' =>
      digits_value (acc * 10 + N.of_nat (nat_of_ascii c - 48)) s'
  end.

(** [0|[1-9]\d*] *)
Definition numeric (s : string) : option N :=
  match s with
  | EmptyString => None
  | String c s' =>
      if every is_digit s then
        if Ascii.eqb c "0" && negb (s' =? EmptyString) then None
        else Some (digits_value 0 s)
      else None
  end.

(** [0|[1-9]\d*|\d*[a-zA-Z-][0-9a-zA-Z-]*] *)
Definition prerelease_ident (s : string) : bool :=
  negb (s =? EmptyString) && every is_ident_char s
  && (negb (every is_digit s)
      || match numeric s with Some _ => true | None => false end).

(** [[0-9a-zA-Z-]+] *)
Definition build_ident (s : string) : bool :=
  negb (s =? EmptyString) && every is_ident_char s.

(** Modelled from the spec: how the [semver] package, a dependency whose
    code is not in the repository, reads a version.  The grammar is the
    strict [MAJOR.MINOR.PATCH[-prerelease][+build]] of the spec, which is
    also the [semverRegex] of [validator/schema]. *)
Definition parse (s : string) : option SemVer :=
  let (main_pre, bld) := cut "+" s in
  let (main, pre) := cut "-" main_pre in
  match map numeric (split_on "." main) with
  | [Some ma; Some mi; Some pa] =>
      let pre_ids := match pre with Some p => split_on "." p | None => [] end in
      let bld_ids := match bld with Some b => split_on "." b | None => [] end in
      if forallb prerelease_ident pre_ids && forallb build_ident bld_ids
      then Some {| v_major := ma; v_minor := mi; v_patch := pa;
                   prerelease := pre_ids; build := bld_ids |}
      else None
  | _ => None
  end.

Definition semverRegex (s : string) : bool :=
  match parse s with Some _ => true | None => false end.

(** The [version] string of a parsed version: the build metadata is
    dropped. *)
Definition format (v : SemVer) : string :=
  of_N (v_major v) ++ "." ++ of_N (v_minor v) ++ "." ++ of_N (v_patch v)
  ++ match prerelease v with
     | [] => EmptyString
     | ids => "-" ++ join "." ids
     end.

Definition compare_ident (a b : string) : comparison :=
  match numeric a, numeric b with
  | Some x, Some y => N.compare x y
  | Some _, None => Lt
  | None, Some _ => Gt
  | None, None => String.compare a b
  end.

Fixpoint compare_pre (a b : list string) : comparison :=
  match a, b with
  | [], [] => Eq
  | [], _ :: _ => Lt
  | _ :: _, [] => Gt
  | x :: a', y :: b' =>
      match compare_ident x y with
      | Eq => compare_pre a' b'
      | c => c
      end
  end.

(** Modelled from the spec: the standard semver ordering of the [semver]
    package.  The three numbers, then a version with a prerelease before
    the same version without one, then the prerelease identifiers; build
    metadata is ignored. *)
Definition compare (a b : SemVer) : comparison :=
  match N.compare (v_major a) (v_major b) with
  | Eq =>
      match N.compare (v_minor a) (v_minor b) with
      | Eq =>
          match N.compare (v_patch a) (v_patch b) with
          | Eq =>
              match prerelease a, prerelease b with
              | [], [] => Eq
              | _ :: _, [] => Lt
              | [], _ :: _ => Gt
              | pa, pb => compare_pre pa pb
              end
          | c => c
          end
      | c => c
      end
  | c => c
  end.

(** [version.replace(/^[=v]+/, '')] *)
Fixpoint strip_eq_v (s : string) : string :=
  match s with
  | String c s' =>
      if Ascii.eqb c "=" || Ascii.eqb c "v" then strip_eq_v s' else s
  | EmptyString => EmptyString
  end.

(** Modelled from the spec: [semver.clean], the normalization of the
    spec.  It trims, drops leading [=] and [v], and parses strictly. *)
Definition clean_version (v : string) : option string :=
  option_map format (parse (trim (strip_eq_v (trim v)))).

(** Modelled from the spec: [semver.satisfies] on a range that is one
    version, written [V], [=V], [vV] or [=vV]: the version satisfies it
    when the two have the same precedence. *)
Definition satisfies_version (v range : string) : bool :=
  let r := trim range in
  let r := match r with
           | String c r' => if Ascii.eqb c "=" then trimStart r' else r
           | EmptyString => r
           end in
  let r := match r with
           | String c r' => if Ascii.eqb c "v" then r' else r
           | EmptyString => r
           end in
  match parse v, parse r with
  | Some pv, Some pr =>
      match compare pv pr with Eq => true | _ => false end
  | _, _ => false
  end.

(** Modelled from the spec: the [semver] package is a dependency whose
    code is not part of the repository.  The spec has versions in the
    strict syntax [MAJOR.MINOR.PATCH[-prerelease][+build]] with the
    standard semver ordering, has [checkCompatibility] normalize its
    arguments and reject what does not parse as a version, and has
    [required] read as a range.  [clean] therefore trims, drops leading
    [=] and [v], and parses strictly, so that it rejects every range
    with an operator; the only ranges that reach [satisfies] are single
    versions, which is all that [satisfies_version] reads. *)
Definition node : lib :=
  {| clean := clean_version;
     satisfies := satisfies_version;
     major := fun v => option_map v_major (parse (trim v));
     lt := fun a b =>
             match parse (trim a), parse (trim b) with
             | Some pa, Some pb =>
                 Some match compare pa pb with Lt => true | _ => false end
             | _, _ => None
             end |}.

End Semver.

(* ================================================================== *)
(** ** [VersionManager] ([utils/version]) *)
(* ================================================================== *)

Module VersionCompatibility.
Record t := {
  compatible : bool;
  reason : option string;
  suggestedVersion : option string
}.
End VersionCompatibility.

Module ModelCompatibility.
Record t := {
  compatible : bool;
  issues : list string
}.
End ModelCompatibility.

Module VersionManager.

Import JsString.
Import VersionCompatibility.

(** [!x] for the result of [semver.clean]: [null] and [''] are falsy. *)
Definition falsy (x : option string) : bool :=
  match x with
  | Some s => negb (truthy s)
  | None => true
  end.

(** The body of the [try] block; [None] is a thrown exception. *)
Definition checkCompatibility_try (semver : Semver.lib)
           (requiredVersion providedVersion : string) : option t :=
  let cleanRequired := Semver.clean semver requiredVersion in
  let cleanProvided := Semver.clean semver providedVersion in
  if falsy cleanRequired || falsy cleanProvided then
    Some {| compatible := false;
            reason := Some "Invalid version format";
            suggestedVersion := None |}
  else
    let cleanRequired := or_empty_string cleanRequired in
    let cleanProvided := or_empty_string cleanProvided in
    if Semver.satisfies semver cleanProvided requiredVersion then
      Some {| compatible := true; reason := None; suggestedVersion := None |}
    else
      match Semver.major semver cleanRequired with
      | None => None
      | Some requiredMajor =>
          match Semver.major semver cleanProvided with
          | None => None
          | Some providedMajor =>
              if negb (requiredMajor =? providedMajor)%N then
                Some {| compatible := false;
                        reason :=
                          Some ("Major version mismatch: required v"
                                  ++ of_N requiredMajor ++ ", provided v"
                                  ++ of_N providedMajor);
                        suggestedVersion := Some (of_N requiredMajor ++ ".x.x") |}
              else
                match Semver.lt semver cleanProvided cleanRequired with
                | None => None
                | Some true =>
                    Some {| compatible := false;
                            reason :=
                              Some ("Version too old: required "
                                      ++ requiredVersion ++ ", provided "
                                      ++ providedVersion);
                            suggestedVersion := Some requiredVersion |}
                | Some false =>
                    Some {| compatible := true; reason := None;
                            suggestedVersion := None |}
                end
          end
      end.

Definition checkCompatibility (semver : Semver.lib)
           (requiredVersion providedVersion : string) : t :=
  match checkCompatibility_try semver requiredVersion providedVersion with
  | Some r => r
  | None =>
      {| compatible := false;
         reason := Some "Error checking version compatibility";
         suggestedVersion := None |}
  end.

(** The issue of the preferred-models check, if any. *)
Definition preferred_issue (agent : AgentMetadata) (availableModel : string)
  : list string :=
  match model_requirements agent with
  | Some mr =>
      match preferred_models mr with
      | Some models =>
          let isPreferred :=
            existsb (fun model =>
                       includes (toLowerCase availableModel) (toLowerCase model))
                    models in
          if negb isPreferred then
            ["Model " ++ availableModel ++ " is not in preferred models: "
               ++ join ", " models]
          else []
      | None => []
      end
  | None => []
  end.

(** The issue of the context check, if any; a [min_context] of [0] is
    falsy. *)
Definition context_issue (agent : AgentMetadata) (availableContext : Z)
  : list string :=
  match model_requirements agent with
  | Some mr =>
      match min_context mr with
      | Some mc =>
          if (mc =? 0)%Z then []
          else if (availableContext <? mc)%Z then
            ["Insufficient context: requires " ++ of_Z mc ++ ", available "
               ++ of_Z availableContext]
          else []
      | None => []
      end
  | None => []
  end.

Definition checkModelCompatibility (agent : AgentMetadata)
           (availableModel : string) (availableContext : Z)
  : ModelCompatibility.t :=
  let issues := (preferred_issue agent availableModel
                   ++ context_issue agent availableContext)%list in
  {| ModelCompatibility.compatible := (List.length issues =? 0)%nat;
     ModelCompatibility.issues := issues |}.

End VersionManager.

(** [VersionManager.compareVersions] and
    [VersionManager.getVersionHistory]. *)
Module VersionHistory.

Import JsString.

(** One version of the history of an agent. *)
Module Entry.
Record t := {
  version : string;
  created : option string;
  author : option string
}.
End Entry.

(** The history of one agent name. *)
Module History.
Record t := { name : string; versions : list Entry.t }.
End History.

Section Manager.

Variable semver : Semver.lib.

(** [semver.compare(a, b)]: negative, zero or positive; [None] stands for
    the [TypeError] it throws on a string that is not a version. *)
Variable compare : string -> string -> option Z.

(** [agent.author], a property that the record of the metadata leaves
    out. *)
Variable author : AgentMetadata -> option string.

(** [versions.sort(compareFn)].  The comparator of [getVersionHistory]
    is no order when a version does not clean, and the result of the sort
    is then up to the engine. *)
Variable sort :
  (AgentMetadata -> AgentMetadata -> Z) -> list AgentMetadata
  -> list AgentMetadata.

(** [None] is a thrown exception. *)
Definition compareVersions (v1 v2 : string) : option Z :=
  let clean1 := Semver.clean semver v1 in
  let clean2 := Semver.clean semver v2 in
  if VersionManager.falsy clean1 || VersionManager.falsy clean2 then None
  else compare (or_empty_string clean1) (or_empty_string clean2).

(** The body of the loop that groups the agents by name. *)
Definition group (grouped : list (string * list AgentMetadata))
           (agent : AgentMetadata) : list (string * list AgentMetadata) :=
  let existing :=
    match JsMap.get grouped (name agent) with
    | Some l => l
    | None => []
    end in
  JsMap.set grouped (name agent) (existing ++ [agent])%list.

(** [a => a.version] as a condition. *)
Definition has_version (a : AgentMetadata) : bool :=
  match version a with
  | Some v => truthy v
  | None => false
  end.

(** The comparator of the sort: a comparison that throws counts as 0. *)
Definition compareFn (a b : AgentMetadata) : Z :=
  match compareVersions (or_empty_string (version b))
                        (or_empty_string (version a)) with
  | Some z => z
  | None => 0%Z
  end.

Definition entry_of (agent : AgentMetadata) : Entry.t :=
  {| Entry.version := or_empty_string (version agent);
     Entry.created := created agent;
     Entry.author := author agent |}.

Definition getVersionHistory (agents : list AgentMetadata)
  : list History.t :=
  let grouped := fold_left group agents [] in
  map (fun entry : string * list AgentMetadata =>
         let sortedVersions := sort compareFn (filter has_version (snd entry)) in
         {| History.name := fst entry;
            History.versions := map entry_of sortedVersions |})
      grouped.

End Manager.

End VersionHistory.

(* ================================================================== *)
(** ** Untyped values *)
(* ================================================================== *)

(** What an untyped metadata document holds: scalars, arrays of strings
    (every array of the metadata model is one) and nested objects, whose
    properties are kept in insertion order. *)
Inductive value :=
| VUndefined
| VNull
| VBool (b : bool)
| VNum (q : Q)
| VStr (s : string)
| VArr (items : list string)
| VObj (props : list (string * value)).

Module Js.

(** [Boolean(v)] *)
Definition truthy (v : value) : bool :=
  match v with
  | VUndefined | VNull => false
  | VBool b => b
  | VNum q => negb (Qeq_bool q 0)
  | VStr s => JsString.truthy s
  | VArr _ | VObj _ => true
  end.

(** [v === 0] *)
Definition is_zero (v : value) : bool :=
  match v with
  | VNum q => Qeq_bool q 0
  | _ => false
  end.

Definition length_of (n : nat) : value := VNum (inject_Z (Z.of_nat n)).

(** [o[key]] on an object: a missing property reads as [undefined]. *)
Definition lookup (props : list (string * value)) (key : string) : value :=
  match JsMap.get props key with
  | Some v => v
  | None => VUndefined
  end.

(** What is thrown: an [Error] with its message, or another value. *)
Inductive exn :=
| Error (message : string)
| Thrown.

Definition type_error (base key : string) : exn :=
  Error ("Cannot read properties of " ++ base ++ " (reading '" ++ key ++ "')").

(** [v.key] for the properties that the validator reads: own properties
    of objects and the [length] of arrays and strings.  Reading a
    property of [undefined] or [null] throws a [TypeError]. *)
Definition get (v : value) (key : string) : value + exn :=
  match v with
  | VUndefined => inr (type_error "undefined" key)
  | VNull => inr (type_error "null" key)
  | VObj props => inl (lookup props key)
  | VArr items =>
      inl (if key =? "length" then length_of (List.length items) else VUndefined)
  | VStr s =>
      inl (if key =? "length" then length_of (String.length s) else VUndefined)
  | VBool _ | VNum _ => inl VUndefined
  end.

(** [v.key] where reading it does not throw. *)
Definition prop (v : value) (key : string) : value :=
  match get v key with
  | inl x => x
  | inr _ => VUndefined
  end.

End Js.

(* ================================================================== *)
(** ** The schema ([validator/schema]) *)
(* ================================================================== *)

Module Zod.

Inductive check := int | positive | min (bound : Q) | max (bound : Q).

(** [z.object(..)], [z.object(..).strict()] and
    [z.object(..).catchall(z.any())]. *)
Inductive unknownKeys := strip | strict | catchall_any.

Inductive schema :=
| string_
| string_min1 (message : string)
| string_regex (re : string -> bool) (message : string)
| string_email
| string_datetime (message : string)
| number (checks : list check)
| boolean
| enum (values : list string)
| array_of_string
| optional (inner : schema)
| object (shape : list (string * schema)) (unknown : unknownKeys).

Inductive code :=
| invalid_type | invalid_string | too_small | too_big
| invalid_enum_value | unrecognized_keys.

Record issue := { path : list string; message : string }.

Section Engine.

(** The default messages of the library, and the two string formats
    that it checks with patterns of its own. *)
Variable errorMap : code -> value -> string.
Variable is_email : string -> bool.
Variable is_datetime : string -> bool.

Definition fail (p : list string) (c : code) (v : value) : list issue :=
  [{| path := p; message := errorMap c v |}].

Definition check_issue (p : list string) (q : Q) (c : check) : list issue :=
  match c with
  | int => if (Qden (Qred q) =? 1)%positive then [] else fail p invalid_type (VNum q)
  | positive => if Qle_bool q 0 then fail p too_small (VNum q) else []
  | min b => if Qle_bool b q then [] else fail p too_small (VNum q)
  | max b => if Qle_bool q b then [] else fail p too_big (VNum q)
  end.

(** Modelled from the spec: [schema.safeParse(v)] of the [zod] package, a
    dependency whose code is not in the repository.  Every violation
    (wrong type, out-of-range number, malformed string, value outside an
    enum, unexpected key of a closed object) is one issue with the path of
    the field, and all of them are collected: the properties of an object
    in the order of its shape, then its unrecognized keys. *)
Fixpoint issues (s : schema) (p : list string) (v : value) {struct s}
  : list issue :=
  match s with
  | optional inner =>
      match v with
      | VUndefined => []
      | _ => issues inner p v
      end
  | string_ =>
      match v with VStr _ => [] | _ => fail p invalid_type v end
  | string_min1 msg =>
      match v with
      | VStr s => if (1 <=? String.length s)%nat then []
                  else [{| path := p; message := msg |}]
      | _ => fail p invalid_type v
      end
  | string_regex re msg =>
      match v with
      | VStr s => if re s then [] else [{| path := p; message := msg |}]
      | _ => fail p invalid_type v
      end
  | string_email =>
      match v with
      | VStr s => if is_email s then [] else fail p invalid_string v
      | _ => fail p invalid_type v
      end
  | string_datetime msg =>
      match v with
      | VStr s => if is_datetime s then []
                  else [{| path := p; message := msg |}]
      | _ => fail p invalid_type v
      end
  | number checks =>
      match v with
      | VNum q => flat_map (check_issue p q) checks
      | _ => fail p invalid_type v
      end
  | boolean =>
      match v with VBool _ => [] | _ => fail p invalid_type v end
  | enum values =>
      match v with
      | VStr s => if existsb (String.eqb s) values then []
                  else fail p invalid_enum_value v
      | _ => fail p invalid_type v
      end
  | array_of_string =>
      match v with VArr _ => [] | _ => fail p invalid_type v end
  | object shape unknown =>
      match v with
      | VObj props =>
          ((fix fields (sh : list (string * schema)) : list issue :=
              match sh with
              | [] => []
              | (k, sk) :: sh' =>
                  issues sk (p ++ [k]) (Js.lookup props k) ++ fields sh'
              end) shape
           ++ match unknown with
              | strict =>
                  if forallb (fun kv : string * value =>
                                existsb (String.eqb (fst kv)) (map fst shape))
                             props
                  then []
                  else fail p unrecognized_keys v
              | strip | catchall_any => []
              end)%list
      | _ => fail p invalid_type v
      end
  end.

Definition safeParse (s : schema) (v : value) : list issue := issues s [] v.

End Engine.

End Zod.

Module Schema.

Import Zod.

Definition SemverSchema : schema :=
  string_regex Semver.semverRegex
    "Version must be valid semantic versioning (e.g., 1.0.0, 2.1.0-beta)".

Definition ISO8601Schema : schema :=
  string_datetime "Date must be in ISO 8601 format".

Definition ModelRequirementsSchema : schema :=
  object
    [("min_context", optional (number [int; positive]));
     ("max_tokens", optional (number [int; positive]));
     ("preferred_models", optional array_of_string);
     ("temperature", optional (number [min 0%Q; max 2%Q]))]
    strict.

Definition ParametersSchema : schema :=
  object
    [("max_iterations", optional (number [int; positive]));
     ("confidence_threshold", optional (number [min 0%Q; max 1%Q]))]
    catchall_any.

Definition AgentMetadataSchema : schema :=
  object
    [("name", string_min1 "Agent name is required");
     ("version", optional SemverSchema);
     ("description", optional string_);
     ("role", optional string_);
     ("specialization", optional string_);
     ("capabilities", optional array_of_string);
     ("coding_languages", optional array_of_string);
     ("frameworks", optional array_of_string);
     ("tools", optional array_of_string);
     ("technologies", optional array_of_string);
     ("industries", optional array_of_string);
     ("skills", optional array_of_string);
     ("domains", optional array_of_string);
     ("languages", optional array_of_string);
     ("model_requirements", optional ModelRequirementsSchema);
     ("parameters", optional ParametersSchema);
     ("author", optional string_);
     ("organization", optional string_);
     ("email", optional string_email);
     ("license", optional string_);
     ("created", optional ISO8601Schema);
     ("updated", optional ISO8601Schema);
     ("maintainers", optional array_of_string);
     ("tags", optional array_of_string);
     ("keywords", optional array_of_string);
     ("category", optional string_);
     ("subcategory", optional string_);
     ("use_cases", optional array_of_string);
     ("difficulty", optional (enum ["beginner"; "intermediate"; "advanced"]));
     ("dependencies", optional array_of_string);
     ("integrations", optional array_of_string);
     ("apis", optional array_of_string);
     ("requires_internet", optional boolean)]
    strip.

Definition AgentFrontmatterSchema : schema :=
  object [("agent", AgentMetadataSchema)] strip.

End Schema.

(* ================================================================== *)
(** ** [AgentParser.validate] ([parser/index]) *)
(* ================================================================== *)

Module ValidationError.
Record t := { field : string; message : string }.
End ValidationError.

Module ValidationWarning.
Record t := { field : string; message : string; suggestion : string }.
End ValidationWarning.

Module AgentFile.
Record t := {
  metadata : value;
  content : string;
  rawContent : string;
  filePath : option string
}.
End AgentFile.

Module ValidationResult.
Record t := {
  valid : bool;
  errors : list ValidationError.t;
  warnings : list ValidationWarning.t
}.
End ValidationResult.

Module AgentParser.

(** The two arrays that [validate] fills.  They are declared outside the
    [try] block, so what was pushed before an exception is still there
    in the [catch] block. *)
Record store := {
  errors : list ValidationError.t;
  warnings : list ValidationWarning.t
}.

(** A computation either returns or throws, and leaves a store. *)
Definition M (A : Type) : Type := store -> (A + Js.exn) * store.

Definition ret {A : Type} (a : A) : M A := fun s => (inl a, s).

Definition throw {A : Type} (e : Js.exn) : M A := fun s => (inr e, s).

Definition bind {A B : Type} (m : M A) (k : A -> M B) : M B :=
  fun s =>
    match m s with
    | (inl a, s') => k a s'
    | (inr e, s') => (inr e, s')
    end.

Definition try_catch {A : Type} (m : M A) (handler : Js.exn -> M A) : M A :=
  fun s =>
    match m s with
    | (inl a, s') => (inl a, s')
    | (inr e, s') => handler e s'
    end.

Definition lift {A : Type} (r : A + Js.exn) : M A :=
  match r with
  | inl a => ret a
  | inr e => throw e
  end.

Definition push_error (e : ValidationError.t) : M unit :=
  fun s => (inl tt, {| errors := errors s ++ [e]; warnings := warnings s |}).

Definition push_warning (w : ValidationWarning.t) : M unit :=
  fun s => (inl tt, {| errors := errors s; warnings := warnings s ++ [w] |}).

Definition read : M store := fun s => (inl s, s).

Definition when (b : bool) (m : M unit) : M unit := if b then m else ret tt.

Fixpoint for_each {A : Type} (l : list A) (body : A -> M unit) : M unit :=
  match l with
  | [] => ret tt
  | x :: l' => bind (body x) (fun _ => for_each l' body)
  end.

Declare Scope js_scope.
Delimit Scope js_scope with js.
Notation "x <- m ;; k" := (bind m (fun x => k))
  (at level 61, m at next level, right associativity) : js_scope.
Notation "m ;; k" := (bind m (fun _ => k))
  (at level 61, right associativity) : js_scope.

Section Validate.

Variable errorMap : Zod.code -> value -> string.
Variable is_email : string -> bool.
Variable is_datetime : string -> bool.

(** [AgentFrontmatterSchema.safeParse(v)]: no issue is success. *)
Definition safeParse (v : value) : list Zod.issue :=
  Zod.safeParse errorMap is_email is_datetime Schema.AgentFrontmatterSchema v.

(** Converts one schema issue; the [agent] prefix of its path is
    dropped. *)
Definition to_error (err : Zod.issue) : ValidationError.t :=
  {| ValidationError.field := JsString.join "." (tl (Zod.path err));
     ValidationError.message := Zod.message err |}.

Definition version_warning : ValidationWarning.t :=
  {| ValidationWarning.field := "version";
     ValidationWarning.message :=
       "Version field is strongly recommended for collaboration";
     ValidationWarning.suggestion :=
       "Add version: " ++ JsString.dquote ++ "1.0.0" ++ JsString.dquote
         ++ " to track changes" |}.

Definition description_warning : ValidationWarning.t :=
  {| ValidationWarning.field := "description";
     ValidationWarning.message :=
       "Description helps users understand the agent purpose";
     ValidationWarning.suggestion :=
       "Add a brief description of what this agent does" |}.

Definition author_warning : ValidationWarning.t :=
  {| ValidationWarning.field := "author";
     ValidationWarning.message :=
       "Author or organization helps with attribution";
     ValidationWarning.suggestion := "Add author name or organization" |}.

Definition capabilities_warning : ValidationWarning.t :=
  {| ValidationWarning.field := "capabilities";
     ValidationWarning.message :=
       "Empty capabilities array provides no value";
     ValidationWarning.suggestion :=
       "Add specific capabilities or remove the field" |}.

(** The body of the [try] block. *)
Definition validate_try (agentFile : value) : M ValidationResult.t :=
  (metadata <- lift (Js.get agentFile "metadata") ;;
   for_each (safeParse (VObj [("agent", metadata)]))
            (fun err => push_error (to_error err)) ;;
   version <- lift (Js.get metadata "version") ;;
   when (negb (Js.truthy version)) (push_warning version_warning) ;;
   description <- lift (Js.get metadata "description") ;;
   when (negb (Js.truthy description)) (push_warning description_warning) ;;
   author <- lift (Js.get metadata "author") ;;
   organization <-
     (if Js.truthy author then ret VUndefined
      else lift (Js.get metadata "organization")) ;;
   when (negb (Js.truthy author) && negb (Js.truthy organization))
        (push_warning author_warning) ;;
   capabilities <- lift (Js.get metadata "capabilities") ;;
   empty <-
     (if Js.truthy capabilities then
        len <- lift (Js.get capabilities "length") ;; ret (Js.is_zero len)
      else ret false) ;;
   when empty (push_warning capabilities_warning) ;;
   s <- read ;;
   ret {| ValidationResult.valid := (List.length (errors s) =? 0)%nat;
          ValidationResult.errors := errors s;
          ValidationResult.warnings := warnings s |})%js.

(** The [catch] block. *)
Definition validate_catch (error : Js.exn) : M ValidationResult.t :=
  (push_error
     {| ValidationError.field := "agent";
        ValidationError.message :=
          match error with
          | Js.Error message => message
          | Js.Thrown => "Unknown validation error"
          end |} ;;
   s <- read ;;
   ret {| ValidationResult.valid := false;
          ValidationResult.errors := errors s;
          ValidationResult.warnings := warnings s |})%js.

(** [AgentParser.validate(agentFile)]: what it returns, or what it
    throws. *)
Definition validate (agentFile : value) : ValidationResult.t + Js.exn :=
  fst (try_catch (validate_try agentFile) validate_catch
         {| errors := []; warnings := [] |}).

End Validate.

Section Matter.

(** [matter(content, options)] of the [gray-matter] package with the
    yaml engine that [parse] passes: the decoded header and the body, or
    what it throws.  [matter.stringify(body, data)] with the default
    engine. *)
Variable matter : string -> (value * string) + Js.exn.
Variable stringify : string -> value -> string.

Definition parse (content : string) (filePath : option string)
  : AgentFile.t + Js.exn :=
  match matter content with
  | inr e => inr e
  | inl (frontmatter, body) =>
      match Js.get frontmatter "agent" with
      | inr e => inr e
      | inl agent =>
          if negb (Js.truthy agent) then
            inr (Js.Error ("Missing required " ++ JsString.dquote ++ "agent"
                             ++ JsString.dquote ++ " field in frontmatter"))
          else
            inl {| AgentFile.metadata := agent;
                   AgentFile.content := JsString.trim body;
                   AgentFile.rawContent := content;
                   AgentFile.filePath := filePath |}
      end
  end.

Definition serialize (agentFile : AgentFile.t) : string :=
  let frontmatter := VObj [("agent", AgentFile.metadata agentFile)] in
  stringify (AgentFile.content agentFile) frontmatter.

End Matter.

(** The object that [parse] returns, as [validate] reads it. *)
Definition file_object (agentFile : AgentFile.t) : value :=
  VObj [("metadata", AgentFile.metadata agentFile);
        ("content", VStr (AgentFile.content agentFile));
        ("rawContent", VStr (AgentFile.rawContent agentFile));
        ("filePath", match AgentFile.filePath agentFile with
                     | Some p => VStr p
                     | None => VUndefined
                     end)].

Section Both.

Variable errorMap : Zod.code -> value -> string.
Variable is_email : string -> bool.
Variable is_datetime : string -> bool.
Variable matter : string -> (value * string) + Js.exn.

(** [AgentParser.parseAndValidate(content, filePath)]: the file and its
    validation, or what [parse] or [validate] throws. *)
Definition parseAndValidate (content : string) (filePath : option string)
  : (AgentFile.t * ValidationResult.t) + Js.exn :=
  match parse matter content filePath with
  | inr e => inr e
  | inl agentFile =>
      match validate errorMap is_email is_datetime (file_object agentFile) with
      | inr e => inr e
      | inl validation => inl (agentFile, validation)
      end
  end.

End Both.

End AgentParser.

(* ================================================================== *)
(** ** [normalizeMetadata], file names and files ([utils/helpers]) *)
(* ================================================================== *)

Module Helpers.

Definition arrayFields : list string :=
  ["capabilities"; "coding_languages"; "frameworks";
   "tools"; "technologies"; "industries"; "skills";
   "domains"; "languages"; "tags"; "keywords"; "use_cases"].

(** [[...new Set(items)]]: the first occurrence of each element, in
    order. *)
Definition dedup (items : list string) : list string :=
  fold_left JsSet.add items [].

(** [items.sort()]: the default order compares code units. *)
Definition sort_default (items : list string) : list string :=
  JsSort.sort String.leb items.

(** The body of the loop over [arrayFields]. *)
Definition normalize_array (normalized : list (string * value))
           (field : string) : list (string * value) :=
  match JsMap.get normalized field with
  | Some (VArr items) =>
      JsMap.set normalized field (VArr (sort_default (dedup items)))
  | _ => normalized
  end.

(** The body of the loop over [Object.entries(normalized)]. *)
Definition trim_entry (normalized : list (string * value))
           (entry : string * value) : list (string * value) :=
  match snd entry with
  | VStr s => JsMap.set normalized (fst entry) (VStr (JsString.trim s))
  | _ => normalized
  end.

(** [normalizeMetadata(metadata)] on the properties of [metadata]. *)
Definition normalizeMetadata (metadata : list (string * value))
  : list (string * value) :=
  let normalized := metadata in
  let normalized := fold_left normalize_array arrayFields normalized in
  fold_left trim_entry normalized normalized.

(** [parseAgentFilename] returns [{ name, version }], the version being
    left out when the name has none. *)
Module AgentFilename.
Record t := { name : string; version : option string }.
End AgentFilename.

(** The text before [suffix] when [s] ends with it. *)
Fixpoint strip_suffix (suffix s : string) : option string :=
  if s =? suffix then Some EmptyString
  else match s with
       | EmptyString => None
       | String c s' =>
           match strip_suffix suffix s' with
           | Some r => Some (String c r)
           | None => None
           end
       end.

(** [s.endsWith(suffix)] *)
Definition endsWith (s suffix : string) : bool :=
  match strip_suffix suffix s with
  | Some _ => true
  | None => false
  end.

(** [filename.replace(/\.(agent\.md|agent|md)$/, '')]: the leftmost match
    is the longest of the three endings that the name has. *)
Definition strip_extension (filename : string) : string :=
  match strip_suffix ".agent.md" filename with
  | Some basename => basename
  | None =>
      match strip_suffix ".agent" filename with
      | Some basename => basename
      | None =>
          match strip_suffix ".md" filename with
          | Some basename => basename
          | None => filename
          end
      end
  end.

Fixpoint skip_digits (s : string) : string :=
  match s with
  | String c s' => if Semver.is_digit c then skip_digits s' else s
  | EmptyString => EmptyString
  end.

(** [\d+] at the start of [s]: what follows the digits. *)
Definition digits (s : string) : option string :=
  match s with
  | String c s' => if Semver.is_digit c then Some (skip_digits s') else None
  | EmptyString => None
  end.

(** [\.] at the start of [s]: what follows the dot. *)
Definition dot (s : string) : option string :=
  match s with
  | String c s' => if Ascii.eqb c "." then Some s' else None
  | EmptyString => None
  end.

(** [\d+\.\d+\.\d+$] on the whole of [s]. *)
Definition is_version (s : string) : bool :=
  match digits s with
  | Some r1 =>
      match dot r1 with
      | Some r2 =>
          match digits r2 with
          | Some r3 =>
              match dot r3 with
              | Some r4 =>
                  match digits r4 with
                  | Some EmptyString => true
                  | _ => false
                  end
              | None => false
              end
          | None => false
          end
      | None => false
      end
  | None => false
  end.

(** [-v?(\d+\.\d+\.\d+)$] at the start of [s]: the group when it
    matches. *)
Definition version_here (s : string) : option string :=
  match s with
  | String c r =>
      if Ascii.eqb c "-" then
        let r' := match r with
                  | String c' r'' => if Ascii.eqb c' "v" then r'' else r
                  | EmptyString => r
                  end in
        if is_version r' then Some r' else None
      else None
  | EmptyString => None
  end.

(** [basename.match(/-v?(\d+\.\d+\.\d+)$/)]: the group of the leftmost
    match, or [null]. *)
Fixpoint versionMatch (s : string) : option string :=
  match version_here s with
  | Some v => Some v
  | None =>
      match s with
      | EmptyString => None
      | String _ s' => versionMatch s'
      end
  end.

(** [s.lastIndexOf(c)]: -1 when [c] does not occur. *)
Fixpoint lastIndexOf (s : string) (c : ascii) : Z :=
  match s with
  | EmptyString => (-1)%Z
  | String x s' =>
      let i := lastIndexOf s' c in
      if (0 <=? i)%Z then (i + 1)%Z
      else if Ascii.eqb x c then 0%Z else (-1)%Z
  end.

(** [s.substring(0, stop)]: a negative [stop] counts as 0 and one past the
    end as the length. *)
Definition substring_to (s : string) (stop : Z) : string :=
  String.substring 0 (Z.to_nat stop) s.

Definition parseAgentFilename (filename : string) : AgentFilename.t :=
  let basename := strip_extension filename in
  match versionMatch basename with
  | Some v =>
      {| AgentFilename.name := substring_to basename (lastIndexOf basename "-");
         AgentFilename.version := Some v |}
  | None =>
      {| AgentFilename.name := basename; AgentFilename.version := None |}
  end.

(** [[a-z0-9]] *)
Definition is_safe (c : ascii) : bool :=
  let n := nat_of_ascii c in
  (((97 <=? n) && (n <=? 122)) || ((48 <=? n) && (n <=? 57)))%nat.

(** [s.replace(/[^a-z0-9]+/g, '-')]: every maximal run of other
    characters becomes one hyphen; [in_run] is set inside such a run. *)
Fixpoint replace_runs (in_run : bool) (s : string) : string :=
  match s with
  | EmptyString => EmptyString
  | String c s' =>
      if is_safe c then String c (replace_runs false s')
      else if in_run then replace_runs true s'
           else String "-" (replace_runs true s')
  end.

Definition safeName (name : string) : string :=
  replace_runs false (JsString.toLowerCase name).

Definition generateAgentFilename (name : string) (version : option string)
  : string :=
  match version with
  | Some v =>
      if JsString.truthy v then safeName name ++ "-v" ++ v ++ ".agent"
      else safeName name ++ ".agent"
  | None => safeName name ++ ".agent"
  end.

Definition isAgentFile (filename : string) (content : option string) : bool :=
  if endsWith filename ".agent" then true
  else match content with
       | Some c =>
           if JsString.truthy c
           then JsString.includes c "agent:" && prefix "---" c
           else false
       | None => false
       end.

(** The characters of a version: digits and dots. *)
Definition version_char (c : ascii) : bool :=
  Semver.is_digit c || Ascii.eqb c ".".

(** The characters of a safe name: [[a-z0-9]] and the hyphen. *)
Definition name_char (c : ascii) : bool := is_safe c || Ascii.eqb c "-".

Section Files.

Variable errorMap : Zod.code -> value -> string.
Variable is_email : string -> bool.
Variable is_datetime : string -> bool.
Variable matter : string -> (value * string) + Js.exn.

(** [validateAgentFile(content, filePath)]: what the promise resolves
    to. *)
Definition validateAgentFile (content : string) (filePath : option string)
  : ValidationResult.t + Js.exn :=
  match
    match AgentParser.parse matter content filePath with
    | inl agentFile =>
        AgentParser.validate errorMap is_email is_datetime
          (AgentParser.file_object agentFile)
    | inr e => inr e
    end
  with
  | inl result => inl result
  | inr error =>
      inl {| ValidationResult.valid := false;
             ValidationResult.errors :=
               [{| ValidationError.field := "agent";
                   ValidationError.message :=
                     match error with
                     | Js.Error message => message
                     | Js.Thrown => "Failed to parse agent file"
                     end |}];
             ValidationResult.warnings := [] |}
  end.

(** [parseAgentFile(content, filePath)]: [null] when [parse] throws; the
    line it writes to the console is left out. *)
Definition parseAgentFile (content : string) (filePath : option string)
  : option AgentFile.t :=
  match AgentParser.parse matter content filePath with
  | inl agentFile => Some agentFile
  | inr _ => None
  end.

End Files.

End Helpers.

(* ================================================================== *)
(** ** Specifications *)
(* ================================================================== *)

(** The ranking rule in the words of the specification, to be compared
    with what [SearchIndex.search] computes. *)
Module Ranking.

Import JsString.

(** The score that the [results] map holds for a document. *)
Definition score_of (results : list (string * Z)) (id : string) : Z :=
  match JsMap.get results id with
  | Some v => v
  | None => 0%Z
  end.

(** +2 for a document in the posting set of the query token itself. *)
Definition exact_points (idx : list (string * list string))
           (token id : string) : Z :=
  match JsMap.get idx token with
  | Some ids => if JsSet.has ids id then 2%Z else 0%Z
  | None => 0%Z
  end.

(** +1 for each index token that contains the query token and has the
    document in its posting set. *)
Definition partial_points (idx : list (string * list string))
           (token id : string) : Z :=
  Z.of_nat
    (List.length
       (filter (fun entry : string * list string =>
                  includes (fst entry) token && JsSet.has (snd entry) id)
               idx)).

(** The aggregate score over the tokens of a query. *)
Definition aggregate (idx : list (string * list string))
           (tokens : list string) (id : string) : Z :=
  fold_right
    (fun token acc =>
       (exact_points idx token id + partial_points idx token id + acc)%Z)
    0%Z tokens.

Fixpoint nodupb (l : list string) : bool :=
  match l with
  | [] => true
  | x :: l' => negb (JsSet.has l' x) && nodupb l'
  end.

(** What a [Map] of [Set]s guarantees: no token has two entries and no
    posting set holds an id twice. *)
Definition well_formed (idx : list (string * list string)) : bool :=
  nodupb (map fst idx) && forallb (fun entry => nodupb (snd entry)) idx.

(** The same as a proposition. *)
Definition wf (idx : list (string * list string)) : Prop :=
  NoDup (JsMap.keys idx)
  /\ Forall (fun entry : string * list string => NoDup (snd entry)) idx.

(** How often an id occurs in a list. *)
Definition occ (ids : list string) (id : string) : Z :=
  Z.of_nat (List.length (filter (String.eqb id) ids)).

(** The points of the loop over the index entries, counted with [occ]. *)
Definition partial_sum (idx : list (string * list string))
           (token id : string) : Z :=
  fold_right
    (fun (entry : string * list string) acc =>
       ((if includes (fst entry) token then occ (snd entry) id else 0) + acc)%Z)
    0%Z idx.

(** What the loops of [search] keep true of [results]: one entry per id,
    and every score is positive. *)
Definition scored (results : list (string * Z)) : Prop :=
  NoDup (JsMap.keys results) /\ Forall (fun e => (0 < snd e)%Z) results.

(** A token has no whitespace and no upper-case letter. *)
Definition is_token (t : string) : bool :=
  every (fun c => negb (is_space c) && negb (is_upper c)) t.

End Ranking.

(** The advisory warnings in the words of the specification, to be
    compared with what [AgentParser.validate] pushes. *)
Module Advice.

(** A present-but-empty array. *)
Definition empty_array (v : value) : bool :=
  Js.truthy v && Js.is_zero (Js.prop v "length").

Definition missing (metadata : value) (key : string) : bool :=
  negb (Js.truthy (Js.prop metadata key)).

(** Missing [version]; missing [description]; missing both [author] and
    [organization]; present-but-empty [capabilities]. *)
Definition warnings_of (metadata : value) : list ValidationWarning.t :=
  ((if missing metadata "version" then [AgentParser.version_warning] else [])
   ++ (if missing metadata "description"
       then [AgentParser.description_warning] else [])
   ++ (if missing metadata "author" && missing metadata "organization"
       then [AgentParser.author_warning] else [])
   ++ (if empty_array (Js.prop metadata "capabilities")
       then [AgentParser.capabilities_warning] else []))%list.

(** The error that the [catch] block adds. *)
Definition generic_error (e : Js.exn) : ValidationError.t :=
  {| ValidationError.field := "agent";
     ValidationError.message :=
       match e with
       | Js.Error message => message
       | Js.Thrown => "Unknown validation error"
       end |}.

End Advice.

(** Normalization in the words of the specification, entry by entry. *)
Module Normal.

Definition is_array_field (key : string) : bool :=
  existsb (String.eqb key) Helpers.arrayFields.

Definition tidy_array (v : value) : value :=
  match v with
  | VArr items => VArr (Helpers.sort_default (Helpers.dedup items))
  | _ => v
  end.

Definition trim_string (v : value) : value :=
  match v with
  | VStr s => VStr (JsString.trim s)
  | _ => v
  end.

(** A listed array is deduplicated and sorted, a string is trimmed,
    anything else stays. *)
Definition normalize_value (key : string) (v : value) : value :=
  trim_string (if is_array_field key then tidy_array v else v).

Definition normalize_entry (entry : string * value) : string * value :=
  (fst entry, normalize_value (fst entry) (snd entry)).

(** An entry after the loop that trims the strings. *)
Definition trimmed (e : string * value) : string * value :=
  (fst e, trim_string (snd e)).

End Normal.

(** The groups of [getVersionHistory] in closed form: one group for each
    name, in the order in which the names first occur, with the agents of
    that name in their order. *)
Module Grouping.

Definition by_name (agents : list AgentMetadata)
  : list (string * list AgentMetadata) :=
  map (fun n => (n, filter (fun a => name a =? n) agents))
      (Helpers.dedup (map name agents)).

End Grouping.

(** The options of a [search] with one filter and nothing else. *)
Module Options.

Definition only_capability (c : string) : SearchOptions :=
  {| query := None;
     filters := Some {| SearchFilters.capabilities := Some [c];
                        SearchFilters.coding_languages := None;
                        SearchFilters.frameworks := None;
                        SearchFilters.category := None;
                        SearchFilters.difficulty := None;
                        SearchFilters.requires_internet := None |};
     sort := None; limit := None; offset := None |}.

Definition only_language (l : string) : SearchOptions :=
  {| query := None;
     filters := Some {| SearchFilters.capabilities := None;
                        SearchFilters.coding_languages := Some [l];
                        SearchFilters.frameworks := None;
                        SearchFilters.category := None;
                        SearchFilters.difficulty := None;
                        SearchFilters.requires_internet := None |};
     sort := None; limit := None; offset := None |}.

Definition only_category (c : string) : SearchOptions :=
  {| query := None;
     filters := Some {| SearchFilters.capabilities := None;
                        SearchFilters.coding_languages := None;
                        SearchFilters.frameworks := None;
                        SearchFilters.category := Some c;
                        SearchFilters.difficulty := None;
                        SearchFilters.requires_internet := None |};
     sort := None; limit := None; offset := None |}.

End Options.

(** Which documents a query reaches, and the histories of an engine. *)
Module Retrieval.

(** Some token of the query is contained in some token of the index whose
    posting set lists the document. *)
Definition hit (idx : list (string * list string)) (tokens : list string)
           (id : string) : Prop :=
  exists t tok ids,
    In t tokens /\ In (tok, ids) idx
    /\ JsString.includes tok t = true /\ In id ids.

(** [results] without the entry of a document. *)
Definition without (id : string) (results : list (string * Z))
  : list (string * Z) :=
  filter (fun e => negb (fst e =? id)) results.

(** No posting set is empty and the posted ids are among [K]. *)
Definition posted_within (K : list string) (idx : list (string * list string))
  : Prop :=
  Forall (fun entry : string * list string =>
            snd entry <> [] /\ forall id, In id (snd entry) -> In id K) idx.

Inductive action :=
| Add (agentId : string) (metadata : AgentMetadata)
| Remove (agentId : string).

Definition perform (e : AgentSearchEngine.t) (a : action)
  : AgentSearchEngine.t :=
  match a with
  | Add agentId metadata => AgentSearchEngine.addAgent e agentId metadata
  | Remove agentId => AgentSearchEngine.removeAgent e agentId
  end.

(** The engine after a sequence of [addAgent] and [removeAgent] calls on a
    new engine. *)
Definition run (actions : list action) : AgentSearchEngine.t :=
  fold_left perform actions AgentSearchEngine.empty.

(** What every such engine satisfies: the index is well formed, it mirrors
    the agents, no posting set is empty and every posted id is the id of a
    registered agent. *)
Definition consistent (e : AgentSearchEngine.t) : Prop :=
  Ranking.well_formed (SearchIndex.index (AgentSearchEngine.searchIndex e)) = true
  /\ SearchIndex.documents (AgentSearchEngine.searchIndex e)
     = AgentSearchEngine.agents e
  /\ NoDup (JsMap.keys (AgentSearchEngine.agents e))
  /\ Forall (fun entry : string * list string =>
               snd entry <> []
               /\ forall id, In id (snd entry) ->
                             In id (JsMap.keys (AgentSearchEngine.agents e)))
            (SearchIndex.index (AgentSearchEngine.searchIndex e)).

End Retrieval.

(** Engines and inputs that the examples run on. *)
Module Samples.

Definition alpha : AgentMetadata := metadata_named "alpha".
Definition beta : AgentMetadata := metadata_named "beta".

(** [addAgent("a", alpha)] then [addAgent("a", beta)] on a new engine. *)
Definition readded : AgentSearchEngine.t :=
  AgentSearchEngine.addAgent
    (AgentSearchEngine.addAgent AgentSearchEngine.empty "a" alpha) "a" beta.

(** An index with the documents [a], named [test testing], and [b],
    named [testing]. *)
Definition two_documents : SearchIndex.t :=
  SearchIndex.addDocument
    (SearchIndex.addDocument SearchIndex.empty "b" (metadata_named "testing"))
    "a" (metadata_named "Test testing").

Definition agent_name (i : nat) : string :=
  "agent" ++ JsString.of_N (N.of_nat i).

(** An engine with the agents [agent1] .. [agentn], in that order. *)
Definition engine_of (n : nat) : AgentSearchEngine.t :=
  fold_left
    (fun e i => AgentSearchEngine.addAgent e (agent_name i)
                  (metadata_named (agent_name i)))
    (seq 1 n) AgentSearchEngine.empty.

(** A collation for the examples: the order of the code units. *)
Definition code_unit_order (a b : string) : Z :=
  match String.compare a b with
  | Lt => (-1)%Z
  | Eq => 0%Z
  | Gt => 1%Z
  end.

Definition page3 : SearchOptions :=
  {| query := None; filters := None; sort := None;
     limit := Some 10%Z; offset := Some 20%Z |}.

(** Messages for the examples: the library's name of the issue code. *)
Definition code_name (c : Zod.code) (_ : value) : string :=
  match c with
  | Zod.invalid_type => "invalid_type"
  | Zod.invalid_string => "invalid_string"
  | Zod.too_small => "too_small"
  | Zod.too_big => "too_big"
  | Zod.invalid_enum_value => "invalid_enum_value"
  | Zod.unrecognized_keys => "unrecognized_keys"
  end.

(** String formats for the examples, which have no email and no date:
    nothing passes. *)
Definition no_format (_ : string) : bool := false.

Definition validate : value -> ValidationResult.t + Js.exn :=
  AgentParser.validate code_name no_format no_format.

Definition file_of (metadata : value) : value :=
  VObj [("metadata", metadata); ("content", VStr "body");
        ("rawContent", VStr "body")].

Definition only_name : list (string * value) := [("name", VStr "helper")].

Definition empty_capabilities : list (string * value) :=
  [("name", VStr "helper"); ("capabilities", VArr [])].

Definition untidy : list (string * value) :=
  [("name", VStr " helper "); ("tags", VArr ["b"; "a"; "b"]);
   ("dependencies", VArr ["b"; "a"; "b"])].

Definition no_preference : AgentMetadata :=
  {| name := "helper"; version := None; description := None; role := None;
     specialization := None; capabilities := None; coding_languages := None;
     frameworks := None;
     model_requirements :=
       Some {| min_context := None; max_tokens := None;
               preferred_models := Some [] |};
     created := None; updated := None; tags := None; keywords := None;
     category := None; use_cases := None; difficulty := None;
     requires_internet := None |}.

Definition reviewer : AgentMetadata :=
  {| name := "reviewer"; version := Some "1.0.0";
     description := Some "Reviews pull requests"; role := None;
     specialization := None; capabilities := Some ["code-review"];
     coding_languages := None; frameworks := None;
     model_requirements := None; created := None; updated := None;
     tags := None; keywords := None; category := None;
     use_cases := Some ["Review of a change"]; difficulty := None;
     requires_internet := None |}.

End Samples.

(* ================================================================== *)
(** * Properties *)
(* ================================================================== *)

(** ** Maps, sets and sorting *)

Module JsMapFacts.

Section Facts.
Context {V : Type}.
Implicit Types (m : list (string * V)) (k : string) (v : V).

Lemma get_set_same m k v : JsMap.get (JsMap.set m k v) k = Some v.
Proof.
  induction m as [|[k' v'] m IH]; simpl.
  - now rewrite String.eqb_refl.
  - destruct (k' =? k) eqn:E; simpl; rewrite E; auto.
Qed.

Lemma get_set_other m k k' v :
  k <> k' -> JsMap.get (JsMap.set m k v) k' = JsMap.get m k'.
Proof.
  intros Hne. induction m as [|[k0 v0] m IH]; simpl.
  - destruct (k =? k') eqn:E; auto.
    apply String.eqb_eq in E. contradiction.
  - destruct (k0 =? k) eqn:E; simpl.
    + apply String.eqb_eq in E; subst k0.
      destruct (k =? k') eqn:E'; auto.
      apply String.eqb_eq in E'. contradiction.
    + destruct (k0 =? k'); auto.
Qed.

Lemma get_set m k k' v :
  JsMap.get (JsMap.set m k v) k' = if k =? k' then Some v else JsMap.get m k'.
Proof.
  destruct (k =? k') eqn:E.
  - apply String.eqb_eq in E; subst. apply get_set_same.
  - apply String.eqb_neq in E. now apply get_set_other.
Qed.

Lemma has_In_keys m k : JsMap.has m k = true <-> In k (JsMap.keys m).
Proof.
  unfold JsMap.has. induction m as [|[k' v'] m IH]; simpl.
  - split; [discriminate | tauto].
  - destruct (k' =? k) eqn:E.
    + apply String.eqb_eq in E. split; auto.
    + apply String.eqb_neq in E. rewrite IH. split; [auto | intros [H|H]; congruence].
Qed.

Lemma keys_set m k v :
  JsMap.keys (JsMap.set m k v)
  = if JsMap.has m k then JsMap.keys m else (JsMap.keys m ++ [k])%list.
Proof.
  unfold JsMap.has. induction m as [|[k' v'] m IH]; simpl; auto.
  destruct (k' =? k) eqn:E; simpl; auto.
  rewrite IH. now destruct (JsMap.get m k).
Qed.

Lemma get_Some_In m k v : JsMap.get m k = Some v -> In (k, v) m.
Proof.
  induction m as [|[k' v'] m IH]; simpl; [discriminate|].
  destruct (k' =? k) eqn:E.
  - apply String.eqb_eq in E. intros [= ->]. subst. now left.
  - auto.
Qed.

Lemma In_get m k v : NoDup (JsMap.keys m) -> In (k, v) m -> JsMap.get m k = Some v.
Proof.
  induction m as [|[k' v'] m IH]; simpl; [tauto|].
  intros Hnd [H|H].
  - inversion H; subst. now rewrite String.eqb_refl.
  - inversion Hnd as [|? ? Hnotin Hnd']; subst.
    destruct (k' =? k) eqn:E.
    + apply String.eqb_eq in E; subst. exfalso. apply Hnotin.
      change k with (fst (k, v)). now apply in_map.
    + now apply IH.
Qed.

Lemma NoDup_keys_set m k v :
  NoDup (JsMap.keys m) -> NoDup (JsMap.keys (JsMap.set m k v)).
Proof.
  intros Hnd. rewrite keys_set. destruct (JsMap.has m k) eqn:E; auto.
  apply Permutation_NoDup with (l := k :: JsMap.keys m).
  - apply Permutation_cons_append.
  - constructor; auto. rewrite <- has_In_keys. congruence.
Qed.

Lemma In_set m k v e :
  In e (JsMap.set m k v) -> e = (k, v) \/ In e m.
Proof.
  induction m as [|[k' v'] m IH]; simpl.
  - intros [H|[]]; auto.
  - destruct (k' =? k) eqn:E; simpl.
    + apply String.eqb_eq in E; subst. intros [H|H]; auto.
    + intros [H|H]; auto. destruct (IH H); auto.
Qed.

End Facts.

End JsMapFacts.

Module JsSetFacts.

Lemma has_In s x : JsSet.has s x = true <-> In x s.
Proof.
  unfold JsSet.has. rewrite existsb_exists. split.
  - intros [y [Hy E]]. apply String.eqb_eq in E. now subst.
  - intros H. exists x. split; auto. apply String.eqb_refl.
Qed.

Lemma has_false s x : JsSet.has s x = false <-> ~ In x s.
Proof.
  rewrite <- has_In. destruct (JsSet.has s x); split; congruence.
Qed.

Lemma nodupb_NoDup l : Ranking.nodupb l = true <-> NoDup l.
Proof.
  induction l as [|x l IH]; simpl.
  - split; auto. constructor.
  - rewrite andb_true_iff, negb_true_iff, has_false, IH. split.
    + intros [H1 H2]. now constructor.
    + intros H. inversion H. auto.
Qed.

Lemma NoDup_add s x : NoDup s -> NoDup (JsSet.add s x).
Proof.
  intros Hnd. unfold JsSet.add. destruct (JsSet.has s x) eqn:E; auto.
  apply Permutation_NoDup with (l := x :: s).
  - apply Permutation_cons_append.
  - constructor; auto. now apply has_false.
Qed.

Lemma In_add s x y : In y (JsSet.add s x) <-> y = x \/ In y s.
Proof.
  unfold JsSet.add. destruct (JsSet.has s x) eqn:E.
  - apply has_In in E. split; auto. intros [->|H]; auto.
  - rewrite in_app_iff. simpl. split.
    + intros [H|[H|[]]]; auto.
    + intros [H|H]; auto.
Qed.

Lemma NoDup_delete s x : NoDup s -> NoDup (JsSet.delete s x).
Proof. apply NoDup_filter. Qed.

Lemma In_delete s x y : In y (JsSet.delete s x) <-> In y s /\ y <> x.
Proof.
  unfold JsSet.delete. rewrite filter_In, negb_true_iff, String.eqb_neq. tauto.
Qed.

End JsSetFacts.

Module JsSortFacts.

Section Facts.
Context {A : Type}.
Variable before : A -> A -> bool.

Lemma insert_perm x l : Permutation (JsSort.insert before x l) (x :: l).
Proof.
  induction l as [|y l IH]; simpl; auto.
  destruct (before x y); auto.
  rewrite IH. apply perm_swap.
Qed.

Lemma sort_perm l : Permutation (JsSort.sort before l) l.
Proof.
  induction l as [|x l IH]; simpl; auto.
  rewrite insert_perm. now constructor.
Qed.

Hypothesis before_total : forall a b, before a b = true \/ before b a = true.
Hypothesis before_trans :
  forall a b c, before a b = true -> before b c = true -> before a c = true.

Lemma insert_sorted x l :
  StronglySorted (fun a b => before a b = true) l ->
  StronglySorted (fun a b => before a b = true) (JsSort.insert before x l).
Proof.
  induction 1 as [|y l Hs IH Hy]; simpl.
  - repeat constructor.
  - destruct (before x y) eqn:E.
    + constructor; [now constructor|].
      constructor; auto.
      eapply Forall_impl; [|exact Hy]. intros z Hz. eapply before_trans; eauto.
    + constructor; auto.
      assert (Hyx : before y x = true)
        by (destruct (before_total x y); [congruence | auto]).
      rewrite Forall_forall in *. intros z Hz.
      apply (Permutation_in _ (insert_perm x l)) in Hz.
      destruct Hz as [<-|Hz]; auto.
Qed.

Lemma sort_sorted l :
  StronglySorted (fun a b => before a b = true) (JsSort.sort before l).
Proof.
  induction l as [|x l IH]; simpl; [constructor | now apply insert_sorted].
Qed.

End Facts.

End JsSortFacts.

(** ** Tokens *)

Module JsStringFacts.

Import JsString.

Lemma lower_char_not_upper c : is_upper (lower_char c) = false.
Proof. destruct c as [[] [] [] [] [] [] [] []]; reflexivity. Qed.

Lemma lower_char_space c : is_space (lower_char c) = is_space c.
Proof. destruct c as [[] [] [] [] [] [] [] []]; reflexivity. Qed.

Lemma toLowerCase_no_upper s :
  every (fun c => negb (is_upper c)) (toLowerCase s) = true.
Proof.
  induction s as [|c s IH]; simpl; auto.
  now rewrite lower_char_not_upper, IH.
Qed.

(** The characters of a field are characters of the string. *)
Lemma split_ws_every p s :
  every p s = true -> Forall (fun t => every p t = true) (split_ws s).
Proof.
  induction s as [|c s IH]; simpl.
  - repeat constructor.
  - rewrite andb_true_iff. intros [Hc Hs]. specialize (IH Hs).
    destruct (is_space c).
    + destruct s as [|c' s']; [constructor; auto|].
      destruct (is_space c'); auto.
    + destruct (split_ws s) as [|t ts].
      * repeat constructor. simpl. now rewrite Hc.
      * inversion IH; subst. constructor; auto. simpl. now rewrite Hc.
Qed.

(** No field holds a whitespace character. *)
Lemma split_ws_no_space s :
  Forall (fun t => every (fun c => negb (is_space c)) t = true) (split_ws s).
Proof.
  induction s as [|c s IH]; simpl.
  - repeat constructor.
  - destruct (is_space c) eqn:E.
    + destruct s as [|c' s']; [repeat constructor|].
      destruct (is_space c'); auto.
    + destruct (split_ws s) as [|t ts].
      * repeat constructor. simpl. now rewrite E.
      * inversion IH; subst. constructor; auto. simpl. now rewrite E.
Qed.

Lemma every_and p q s :
  every (fun c => p c && q c) s = every p s && every q s.
Proof.
  induction s as [|c s IH]; simpl; auto.
  rewrite IH. destruct (p c), (q c), (every p s); reflexivity.
Qed.

Lemma prefix_refl s : prefix s s = true.
Proof.
  induction s as [|c s IH]; simpl; auto.
  destruct (ascii_dec c c); [exact IH | contradiction].
Qed.

Lemma includes_refl s : includes s s = true.
Proof. destruct s; unfold includes; now rewrite prefix_refl. Qed.

Lemma trimEnd_idempotent s : trimEnd (trimEnd s) = trimEnd s.
Proof.
  induction s as [|c s IH]; simpl; auto.
  destruct (trimEnd s) as [|d r] eqn:E.
  - destruct (is_space c) eqn:Ec; simpl; auto. now rewrite Ec.
  - change (trimEnd (String c (String d r)))
      with (match trimEnd (String d r) with
            | EmptyString => if is_space c then EmptyString
                             else String c EmptyString
            | String x y => String c (String x y)
            end).
    now rewrite IH.
Qed.

Lemma trimStart_head s :
  trimStart s = EmptyString
  \/ exists c s', trimStart s = String c s' /\ is_space c = false.
Proof.
  induction s as [|c s IH]; simpl; auto.
  destruct (is_space c) eqn:E; auto. right. eauto.
Qed.

Lemma trim_idempotent s : trim (trim s) = trim s.
Proof.
  unfold trim. destruct (trimStart_head s) as [->|(c & s' & -> & Hc)].
  - reflexivity.
  - assert (H : exists r, trimEnd (String c s') = String c r).
    { simpl. destruct (trimEnd s'); [rewrite Hc|]; eauto. }
    destruct H as [r Hr]. rewrite Hr. cbn [trimStart]. rewrite Hc, <- Hr.
    apply trimEnd_idempotent.
Qed.

Lemma split_ws_nonempty s : split_ws s <> [].
Proof.
  induction s as [|c s IH]; simpl; [discriminate|].
  destruct (is_space c).
  - destruct s as [|c' s']; [discriminate|].
    destruct (is_space c'); [exact IH | discriminate].
  - destruct (split_ws s); discriminate.
Qed.

End JsStringFacts.

(** ** Scores *)

Module RankingFacts.

Import JsString Ranking SearchIndex.

Lemma occ_cons x ids id :
  occ (x :: ids) id = ((if (id =? x)%string then 1 else 0) + occ ids id)%Z.
Proof.
  unfold occ. cbn [filter]. destruct (id =? x); cbn [List.length]; lia.
Qed.

Lemma occ_nonneg ids id : (0 <= occ ids id)%Z.
Proof. unfold occ. lia. Qed.

Lemma occ_NoDup ids id :
  NoDup ids -> occ ids id = if JsSet.has ids id then 1%Z else 0%Z.
Proof.
  induction 1 as [|x ids Hx Hnd IH].
  - reflexivity.
  - rewrite occ_cons, IH. unfold JsSet.has. simpl.
    destruct (id =? x) eqn:E; simpl; auto.
    apply String.eqb_eq in E; subst x.
    apply JsSetFacts.has_false in Hx. unfold JsSet.has in Hx. now rewrite Hx.
Qed.

Lemma score_bump k results id id' :
  score_of (bump k results id) id'
  = (score_of results id' + if (id' =? id)%string then k else 0)%Z.
Proof.
  unfold score_of, bump. rewrite JsMapFacts.get_set, (String.eqb_sym id id').
  destruct (id' =? id) eqn:E.
  - apply String.eqb_eq in E; subst. reflexivity.
  - lia.
Qed.

Lemma score_fold_bump k ids : forall results id,
  score_of (fold_left (bump k) ids results) id
  = (score_of results id + k * occ ids id)%Z.
Proof.
  induction ids as [|x ids IH]; intros results id; simpl.
  - unfold occ. simpl. lia.
  - rewrite IH, score_bump, occ_cons. destruct (id =? x); lia.
Qed.

Lemma score_partial_loop token idx : forall results id,
  score_of
    (fold_left
       (fun res (entry : string * list string) =>
          let (indexToken, ids) := entry in
          if includes indexToken token then fold_left (bump 1) ids res
          else res)
       idx results) id
  = (score_of results id + partial_sum idx token id)%Z.
Proof.
  induction idx as [|[indexToken ids] idx IH]; intros results id; simpl.
  - lia.
  - rewrite IH. destruct (includes indexToken token); simpl.
    + rewrite score_fold_bump. lia.
    + lia.
Qed.

Lemma partial_sum_points idx token id :
  Forall (fun entry : string * list string => NoDup (snd entry)) idx ->
  partial_sum idx token id = partial_points idx token id.
Proof.
  unfold partial_points, partial_sum.
  induction 1 as [|[indexToken ids] idx Hnd Hall IH]; [reflexivity|].
  cbn [fold_right filter fst snd] in *.
  rewrite IH, (occ_NoDup _ _ Hnd).
  destruct (includes indexToken token), (JsSet.has ids id);
    cbn [andb List.length]; lia.
Qed.

Lemma well_formed_iff idx :
  well_formed idx = true
  <-> NoDup (JsMap.keys idx)
      /\ Forall (fun entry : string * list string => NoDup (snd entry)) idx.
Proof.
  unfold well_formed. rewrite andb_true_iff, JsSetFacts.nodupb_NoDup.
  rewrite forallb_forall, Forall_forall.
  split; intros [H1 H2]; split; auto; intros e He;
    apply JsSetFacts.nodupb_NoDup; auto.
Qed.

Lemma score_token_points idx results token id :
  well_formed idx = true ->
  score_of (score_token idx results token) id
  = (score_of results id
     + exact_points idx token id + partial_points idx token id)%Z.
Proof.
  intros Hwf. apply well_formed_iff in Hwf. destruct Hwf as [_ Hsets].
  unfold score_token. rewrite score_partial_loop, (partial_sum_points _ _ _ Hsets).
  unfold exact_points. destruct (JsMap.get idx token) as [ids|] eqn:E.
  - rewrite score_fold_bump, occ_NoDup.
    + destruct (JsSet.has ids id); lia.
    + apply JsMapFacts.get_Some_In in E. rewrite Forall_forall in Hsets.
      exact (Hsets _ E).
  - lia.
Qed.

Lemma score_tokens idx tokens : forall results id,
  well_formed idx = true ->
  score_of (fold_left (score_token idx) tokens results) id
  = (score_of results id + aggregate idx tokens id)%Z.
Proof.
  induction tokens as [|t tokens IH]; intros results id Hwf; simpl.
  - lia.
  - rewrite IH, score_token_points by assumption. lia.
Qed.

(** An exact match is also a substring match. *)
Lemma exact_is_partial idx token id :
  exact_points idx token id = 2%Z -> (1 <= partial_points idx token id)%Z.
Proof.
  unfold exact_points, partial_points.
  destruct (JsMap.get idx token) as [ids|] eqn:E; [|discriminate].
  destruct (JsSet.has ids id) eqn:Hin; [|discriminate]. intros _.
  apply JsMapFacts.get_Some_In in E.
  assert (Hf : In (token, ids)
                  (filter (fun entry : string * list string =>
                             includes (fst entry) token && JsSet.has (snd entry) id)
                          idx)).
  { apply filter_In. split; auto. cbn [fst snd].
    now rewrite Hin, JsStringFacts.includes_refl. }
  destruct (filter _ idx); [destruct Hf | simpl; lia].
Qed.

(** *** The [results] map *)

Lemma scored_nil : scored [].
Proof. split; constructor. Qed.

Lemma scored_get results id v :
  scored results -> JsMap.get results id = Some v -> (0 < v)%Z.
Proof.
  intros [_ Hpos] E. apply JsMapFacts.get_Some_In in E.
  rewrite Forall_forall in Hpos. exact (Hpos _ E).
Qed.

Lemma scored_bump k results id :
  (0 < k)%Z -> scored results -> scored (bump k results id).
Proof.
  intros Hk Hs. pose proof Hs as [Hnd Hpos]. unfold bump. split.
  - now apply JsMapFacts.NoDup_keys_set.
  - rewrite Forall_forall in *. intros e He.
    apply JsMapFacts.In_set in He. destruct He as [->|He]; auto. simpl.
    destruct (JsMap.get results id) as [v|] eqn:E; [|lia].
    pose proof (scored_get _ _ _ Hs E). lia.
Qed.

Lemma scored_fold_bump k ids : forall results,
  (0 < k)%Z -> scored results -> scored (fold_left (bump k) ids results).
Proof.
  induction ids as [|x ids IH]; intros results Hk Hs; simpl; auto.
  apply IH; auto. now apply scored_bump.
Qed.

Lemma scored_score_token idx token results :
  scored results -> scored (score_token idx results token).
Proof.
  intros Hs. unfold score_token.
  assert (H1 : scored
                 match JsMap.get idx token with
                 | Some exactMatches => fold_left (bump 2) exactMatches results
                 | None => results
                 end).
  { destruct (JsMap.get idx token); auto. apply scored_fold_bump; auto; lia. }
  revert H1. generalize (match JsMap.get idx token with
                         | Some exactMatches => fold_left (bump 2) exactMatches results
                         | None => results
                         end).
  generalize idx. intros idx0.
  induction idx0 as [|[indexToken ids] idx0 IH]; intros res Hres; simpl; auto.
  apply IH. destruct (includes indexToken token); auto.
  apply scored_fold_bump; auto; lia.
Qed.

Lemma scored_scores s query : scored (scores s query).
Proof.
  unfold scores. generalize (tokenize query). intros tokens.
  assert (H : scored []) by apply scored_nil. revert H.
  generalize (@nil (string * Z)).
  induction tokens as [|t tokens IH]; intros res Hres; simpl; auto.
  apply IH. now apply scored_score_token.
Qed.

Lemma scored_In results e :
  scored results -> In e results -> score_of results (fst e) = snd e.
Proof.
  intros [Hnd _] He. destruct e as [id v]. unfold score_of. cbn [fst snd].
  now rewrite (JsMapFacts.In_get _ _ _ Hnd He).
Qed.

Lemma scored_positive results id :
  scored results -> In id (JsMap.keys results) <-> (0 < score_of results id)%Z.
Proof.
  intros Hs. rewrite <- JsMapFacts.has_In_keys. unfold JsMap.has, score_of.
  destruct (JsMap.get results id) as [v|] eqn:E.
  - pose proof (scored_get _ _ _ Hs E). split; auto.
  - split; [discriminate | lia].
Qed.

Lemma by_score_desc_total a b :
  by_score_desc a b = true \/ by_score_desc b a = true.
Proof. unfold by_score_desc. rewrite !Z.leb_le. lia. Qed.

Lemma by_score_desc_trans a b c :
  by_score_desc a b = true -> by_score_desc b c = true ->
  by_score_desc a c = true.
Proof. unfold by_score_desc. rewrite !Z.leb_le. lia. Qed.

Lemma sorted_ids (score : string -> Z) (l : list (string * Z)) :
  StronglySorted (fun a b => by_score_desc a b = true) l ->
  (forall e, In e l -> score (fst e) = snd e) ->
  StronglySorted (fun a b => (score b <= score a)%Z) (map fst l).
Proof.
  induction 1 as [|a l Hs IH Ha]; intros Hin; simpl.
  - constructor.
  - constructor.
    + apply IH. intros e He. apply Hin. now right.
    + rewrite Forall_forall in Ha. apply Forall_forall. intros id Hid.
      apply in_map_iff in Hid. destruct Hid as [b [<- Hb]].
      rewrite (Hin a (or_introl eq_refl)), (Hin b (or_intror Hb)).
      specialize (Ha b Hb). unfold by_score_desc in Ha.
      apply Z.leb_le in Ha. lia.
Qed.

End RankingFacts.

(** *** Reachable indexes are well formed *)

Module IndexFacts.

Import JsString Ranking SearchIndex.

Lemma wf_set idx token ids : wf idx -> NoDup ids -> wf (JsMap.set idx token ids).
Proof.
  intros [Hk Hs] Hids. split.
  - now apply JsMapFacts.NoDup_keys_set.
  - rewrite Forall_forall in *. intros e He.
    apply JsMapFacts.In_set in He. destruct He as [->|He]; auto.
Qed.

Lemma wf_add_posting id idx token : wf idx -> wf (add_posting id idx token).
Proof.
  intros Hwf. unfold add_posting.
  set (idx' := if JsMap.has idx token then idx else JsMap.set idx token []).
  assert (Hwf' : wf idx').
  { subst idx'. destruct (JsMap.has idx token); auto.
    apply wf_set; auto. constructor. }
  destruct (JsMap.get idx' token) as [ids|] eqn:E; auto.
  apply wf_set; auto. apply JsSetFacts.NoDup_add.
  destruct Hwf' as [_ Hs]. rewrite Forall_forall in Hs.
  exact (Hs _ (JsMapFacts.get_Some_In _ _ _ E)).
Qed.

Lemma keys_remove_postings id idx k :
  In k (JsMap.keys (remove_postings id idx)) -> In k (JsMap.keys idx).
Proof.
  induction idx as [|[token ids] idx IH]; simpl; auto.
  destruct (List.length (JsSet.delete ids id) =? 0)%nat; simpl; intuition.
Qed.

Lemma wf_remove_postings id idx : wf idx -> wf (remove_postings id idx).
Proof.
  induction idx as [|[token ids] idx IH]; intros [Hk Hs]; simpl; auto.
  - split; constructor.
  - inversion Hk as [|? ? Hnotin Hk']; subst.
    inversion Hs as [|? ? Hids Hs']; subst.
    destruct (IH (conj Hk' Hs')) as [IHk IHs].
    destruct (List.length (JsSet.delete ids id) =? 0)%nat; [now split|].
    split; simpl.
    + constructor; auto. intros Hin. apply Hnotin.
      now apply keys_remove_postings in Hin.
    + constructor; auto. simpl. now apply JsSetFacts.NoDup_delete.
Qed.

Lemma well_formed_empty : well_formed (index empty) = true.
Proof. reflexivity. Qed.

Lemma well_formed_addDocument s id metadata :
  well_formed (index s) = true ->
  well_formed (index (addDocument s id metadata)) = true.
Proof.
  rewrite !RankingFacts.well_formed_iff. fold (wf (index s)).
  fold (wf (index (addDocument s id metadata))). simpl.
  generalize (split_ws (searchableText metadata)), (index s).
  induction l as [|t l IH]; intros idx Hwf; simpl; auto.
  apply IH. now apply wf_add_posting.
Qed.

Lemma well_formed_removeDocument s id :
  well_formed (index s) = true ->
  well_formed (index (removeDocument s id)) = true.
Proof.
  rewrite !RankingFacts.well_formed_iff. apply wf_remove_postings.
Qed.

(** A posting, once made, outlives every later [addDocument]. *)
Lemma add_posting_keeps id idx token t ids x :
  JsMap.get idx t = Some ids -> In x ids ->
  exists ids', JsMap.get (add_posting id idx token) t = Some ids' /\ In x ids'.
Proof.
  intros Hget Hin. unfold add_posting.
  set (idx' := if JsMap.has idx token then idx else JsMap.set idx token []).
  assert (Hget' : JsMap.get idx' t = Some ids).
  { subst idx'. unfold JsMap.has. destruct (JsMap.get idx token) eqn:E; auto.
    rewrite JsMapFacts.get_set. destruct (token =? t) eqn:Et; auto.
    apply String.eqb_eq in Et; subst. congruence. }
  destruct (JsMap.get idx' token) as [ids0|] eqn:E; [|eauto].
  rewrite JsMapFacts.get_set. destruct (token =? t) eqn:Et; [|eauto].
  apply String.eqb_eq in Et; subst t.
  exists (JsSet.add ids0 id). split; auto.
  apply JsSetFacts.In_add. right. congruence.
Qed.

Lemma addDocument_keeps_postings s id metadata t ids x :
  JsMap.get (index s) t = Some ids -> In x ids ->
  exists ids',
    JsMap.get (index (addDocument s id metadata)) t = Some ids' /\ In x ids'.
Proof.
  simpl. generalize (split_ws (searchableText metadata)), (index s), ids.
  induction l as [|token l IH]; intros idx ids0 Hget Hin; simpl; eauto.
  destruct (add_posting_keeps id idx token t ids0 x Hget Hin) as [ids1 [H1 H2]].
  eauto.
Qed.

End IndexFacts.

(** ** The search index *)

Module SearchIndexFacts.

Import JsString Ranking SearchIndex.

(** C1 (the code departs from it).  After [addAgent("a", alpha)] and
    [addAgent("a", beta)] the engine holds [beta] for ["a"] and a search
    for [beta] returns ["a"], and yet a search for [alpha], a token of
    the replaced metadata only, still returns ["a"]: [addDocument] does
    not remove the postings of the document it replaces. *)
Theorem readd_keeps_stale_postings :
  let e := Samples.readded in
  JsMap.get (AgentSearchEngine.agents e) "a" = Some Samples.beta
  /\ JsMap.get (documents (AgentSearchEngine.searchIndex e)) "a"
     = Some Samples.beta
  /\ search (AgentSearchEngine.searchIndex e) "beta" = ["a"]
  /\ search (AgentSearchEngine.searchIndex e) "alpha" = ["a"]
  /\ index (AgentSearchEngine.searchIndex e) = [("alpha", ["a"]); ("beta", ["a"])].
Proof.
  cbv zeta. repeat split; vm_compute; reflexivity.
Qed.

(** The query [test] gives [a] 2 for the token [test], 1 for [test] as
    a substring of itself and 1 for [testing]; it gives [b] 1 for
    [testing]. *)
Example search_amplifies_substrings :
  scores Samples.two_documents "TEST" = [("a", 4%Z); ("b", 1%Z)]
  /\ search Samples.two_documents "TEST" = ["a"; "b"]
  /\ search Samples.two_documents "test  testing" = ["a"; "b"]
  /\ scores Samples.two_documents "test  testing" = [("a", 7%Z); ("b", 4%Z)].
Proof. repeat split; vm_compute; reflexivity. Qed.

(** C3.  On a well-formed index the query is lowercased and split on
    whitespace, the score that [search] accumulates for a document is, summed
    over the query tokens, 2 when the document is in the posting set of the
    token itself plus 1 for each index token that contains the query token
    and lists the document (an exact match earns that point too), and the
    ids come back without repetition in descending order of that score,
    exactly those with a positive score. *)
Theorem search_ranks_by_aggregate_score (s : SearchIndex.t) (query : string) :
  well_formed (index s) = true ->
  let tokens := tokenize query in
  let score := aggregate (index s) tokens in
  tokens = split_ws (toLowerCase query)
  /\ Forall (fun t => is_token t = true) tokens
  /\ (forall id, score_of (scores s query) id = score id)
  /\ (forall token id,
        exact_points (index s) token id = 2%Z ->
        (1 <= partial_points (index s) token id)%Z)
  /\ StronglySorted (fun a b => (score b <= score a)%Z) (search s query)
  /\ NoDup (search s query)
  /\ (forall id, In id (search s query) <-> (0 < score id)%Z).
Proof.
  intros Hwf tokens score.
  assert (Hscore : forall id, score_of (scores s query) id = score id).
  { intros id. unfold scores. rewrite RankingFacts.score_tokens by assumption.
    reflexivity. }
  pose proof (RankingFacts.scored_scores s query) as Hsc.
  pose proof (JsSortFacts.sort_perm by_score_desc (scores s query)) as Hperm.
  split; [reflexivity|]. split.
  { unfold tokens, tokenize, is_token.
    pose proof (JsStringFacts.split_ws_no_space (toLowerCase query)) as H1.
    pose proof (JsStringFacts.split_ws_every _ _
                  (JsStringFacts.toLowerCase_no_upper query)) as H2.
    rewrite Forall_forall in *. intros t Ht.
    rewrite JsStringFacts.every_and, (H1 _ Ht), (H2 _ Ht). reflexivity. }
  split; [exact Hscore|]. split; [apply RankingFacts.exact_is_partial|].
  split; [|split].
  - unfold search.
    pose proof (JsSortFacts.sort_sorted by_score_desc
                  RankingFacts.by_score_desc_total
                  RankingFacts.by_score_desc_trans (scores s query)) as Hsorted.
    assert (Hin : forall e, In e (JsSort.sort by_score_desc (scores s query)) ->
                            score (fst e) = snd e).
    { intros e He. rewrite <- Hscore. apply RankingFacts.scored_In; auto.
      eapply Permutation_in; eauto. }
    now apply RankingFacts.sorted_ids.
  - unfold search. apply Permutation_NoDup with (l := JsMap.keys (scores s query)).
    + unfold JsMap.keys. apply Permutation_map. now symmetry.
    + apply Hsc.
  - intros id. rewrite <- Hscore, <- RankingFacts.scored_positive by assumption.
    unfold search, JsMap.keys. split; apply Permutation_in; apply Permutation_map;
      [assumption | now symmetry].
Qed.

Lemma search_ranks_by_aggregate_score_witness :
  well_formed (index (AgentSearchEngine.searchIndex Samples.readded)) = true
  /\ search (AgentSearchEngine.searchIndex Samples.readded) "Beta  b" = ["a"]
  /\ forall id,
       score_of (scores (AgentSearchEngine.searchIndex Samples.readded) "Beta  b") id
       = aggregate (index (AgentSearchEngine.searchIndex Samples.readded))
                   ["beta"; "b"] id.
Proof.
  split; [reflexivity|]. split; [reflexivity|].
  exact (proj1 (proj2 (proj2
           (search_ranks_by_aggregate_score
              (AgentSearchEngine.searchIndex Samples.readded) "Beta  b"
              eq_refl)))).
Defined.

End SearchIndexFacts.

(** ** The search engine *)

Module AgentSearchEngineFacts.

Import AgentSearchEngine.

Lemma js_slice_window {A : Type} (a : list A) (o l : Z) :
  (0 <= o)%Z -> (0 < l)%Z ->
  js_slice a o (o + l) = firstn (Z.to_nat l) (skipn (Z.to_nat o) a).
Proof.
  intros Ho Hl. unfold js_slice.
  destruct (Z.ltb_spec o 0); [lia|]. destruct (Z.ltb_spec (o + l) 0); [lia|].
  set (len := Z.of_nat (List.length a)).
  destruct (Z.le_gt_cases len o) as [Hle|Hgt].
  - rewrite (Z.min_r o len), (Z.min_r (o + l) len) by lia.
    rewrite Z.sub_diag. simpl.
    rewrite (skipn_all2 (n := Z.to_nat o)) by (subst len; lia).
    now rewrite firstn_nil.
  - rewrite (Z.min_l o len) by lia.
    destruct (Z.le_gt_cases (o + l) len) as [Hle'|Hgt'].
    + rewrite Z.min_l by lia. f_equal. lia.
    + rewrite Z.min_r by lia.
      rewrite !firstn_all2; auto; rewrite length_skipn; subst len; lia.
Qed.

Lemma length_sortResults localeCompare agents sort :
  List.length (sortResults localeCompare agents sort) = List.length agents.
Proof.
  unfold sortResults. apply Permutation_length, JsSortFacts.sort_perm.
Qed.

Lemma length_matching localeCompare e options :
  List.length (matching localeCompare e options)
  = List.length (narrowed e options).
Proof.
  unfold matching. destruct (sort options); auto using length_sortResults.
Qed.

(** C5.  With a positive limit [l] and whatever the offset [o], [search]
    returns the slice from [o] to [o + l] of the filtered and sorted list:
    for an offset that is not negative these are the [l] agents that follow
    the first [o], and for a negative offset the start of the slice counts
    from the end of the list.  [total] counts the agents that matched
    before the page was cut, [page] is [floor(o / l) + 1] and [pageSize] is
    [l].  With 25 registered agents, no query, no filter and no sort, the
    page at limit 10 and offset 20 has 5 agents, total 25, page 3 and page
    size 10. *)
Theorem search_paginates (localeCompare : string -> string -> Z)
        (e : AgentSearchEngine.t) (options : SearchOptions) (l o : Z) :
  limit options = Some l -> (0 < l)%Z ->
  or_default (offset options) 0 = o ->
  let results := matching localeCompare e options in
  let r := search localeCompare e options in
  SearchResult.agents r = js_slice results o (o + l)
  /\ ((0 <= o)%Z ->
      SearchResult.agents r = firstn (Z.to_nat l) (skipn (Z.to_nat o) results))
  /\ ((o < 0)%Z ->
      let len := Z.of_nat (List.length results) in
      let start := Z.max (len + o) 0 in
      let stop := if (o + l <? 0)%Z then Z.max (len + (o + l)) 0
                  else Z.min (o + l) len in
      SearchResult.agents r
      = firstn (Z.to_nat (stop - start)) (skipn (Z.to_nat start) results))
  /\ SearchResult.total r = Z.of_nat (List.length results)
  /\ SearchResult.total r = Z.of_nat (List.length (narrowed e options))
  /\ SearchResult.page r = (o / l + 1)%Z
  /\ SearchResult.pageSize r = l
  /\ (query options = None -> filters options = None -> sort options = None ->
      List.length (agents e) = 25%nat -> l = 10%Z -> o = 20%Z ->
      results = JsMap.values (agents e)
      /\ List.length (SearchResult.agents r) = 5%nat
      /\ SearchResult.total r = 25%Z
      /\ SearchResult.page r = 3%Z
      /\ SearchResult.pageSize r = 10%Z).
Proof.
  intros Hl Hpos Ho results r.
  assert (Hlim : or_default (limit options) 20 = l).
  { rewrite Hl. simpl. destruct (Z.eqb_spec l 0); [lia | reflexivity]. }
  assert (Hslice : SearchResult.agents r = js_slice results o (o + l)).
  { subst r. unfold search. cbn [SearchResult.agents]. now rewrite Hlim, Ho. }
  assert (Hagents : (0 <= o)%Z ->
                    SearchResult.agents r
                    = firstn (Z.to_nat l) (skipn (Z.to_nat o) results)).
  { intros Hnn. rewrite Hslice. now apply js_slice_window. }
  assert (Htotal : SearchResult.total r = Z.of_nat (List.length results))
    by reflexivity.
  assert (Hpage : SearchResult.page r = (o / l + 1)%Z).
  { subst r. unfold search. cbn [SearchResult.page]. now rewrite Hlim, Ho. }
  assert (Hsize : SearchResult.pageSize r = l).
  { subst r. unfold search. cbn [SearchResult.pageSize]. exact Hlim. }
  split; [exact Hslice|]. split; [exact Hagents|]. split.
  { intros Hneg. cbv zeta. rewrite Hslice. unfold js_slice.
    destruct (Z.ltb_spec o 0); [reflexivity | lia]. }
  split; [exact Htotal|]. split.
  { rewrite Htotal. subst results. now rewrite length_matching. }
  split; [exact Hpage|]. split; [exact Hsize|].
  intros Hq Hf Hs H25 Hl10 Ho20.
  assert (Hall : results = JsMap.values (agents e)).
  { subst results. unfold matching, narrowed. now rewrite Hq, Hf, Hs. }
  assert (Hlen : List.length results = 25%nat).
  { rewrite Hall. unfold JsMap.values. now rewrite length_map. }
  split; [exact Hall|]. split; [|split; [|split]].
  - rewrite Hagents by lia.
    rewrite length_firstn, length_skipn, Hlen, Hl10, Ho20. reflexivity.
  - rewrite Htotal, Hlen. reflexivity.
  - rewrite Hpage, Hl10, Ho20. reflexivity.
  - now rewrite Hsize.
Qed.

Lemma search_paginates_witness :
  List.length (agents (Samples.engine_of 25)) = 25%nat
  /\ let r := search Samples.code_unit_order (Samples.engine_of 25) Samples.page3 in
     List.length (SearchResult.agents r) = 5%nat
     /\ SearchResult.total r = 25%Z
     /\ SearchResult.page r = 3%Z
     /\ SearchResult.pageSize r = 10%Z.
Proof.
  split; [reflexivity|].
  pose proof (search_paginates Samples.code_unit_order (Samples.engine_of 25)
                Samples.page3 10 20 eq_refl eq_refl eq_refl) as H.
  cbv zeta in H.
  destruct H as (_ & _ & _ & _ & _ & _ & _ & H).
  destruct (H eq_refl eq_refl eq_refl eq_refl eq_refl eq_refl)
    as (_ & H5 & Ht & Hp & Hs).
  cbv zeta. auto.
Defined.

(** C10.  A limit of 0 is read as no limit at all: the call returns what
    the call without a limit returns, which is what the call with limit 20
    returns, so the page holds up to 20 agents, [pageSize] is 20 and [page]
    is [floor(offset / 20) + 1]. *)
Theorem search_zero_limit_is_default (localeCompare : string -> string -> Z)
        (e : AgentSearchEngine.t) (q : option string)
        (f : option SearchFilters.t) (s : option SortOption) (o : option Z) :
  let call l :=
    search localeCompare e
      {| query := q; filters := f; sort := s; limit := l; offset := o |} in
  let results :=
    matching localeCompare e
      {| query := q; filters := f; sort := s; limit := Some 0%Z; offset := o |} in
  let offset := or_default o 0 in
  call (Some 0%Z) = call None
  /\ call (Some 0%Z) = call (Some 20%Z)
  /\ SearchResult.agents (call (Some 0%Z)) = js_slice results offset (offset + 20)
  /\ (List.length (SearchResult.agents (call (Some 0%Z))) <= 20)%nat
  /\ SearchResult.pageSize (call (Some 0%Z)) = 20%Z
  /\ SearchResult.page (call (Some 0%Z)) = (offset / 20 + 1)%Z.
Proof.
  cbv zeta. repeat split.
  unfold search. cbn [SearchResult.agents limit offset or_default Z.eqb].
  unfold js_slice. rewrite length_firstn.
  set (len := Z.of_nat (List.length _)).
  set (k := if (or_default o 0 <? 0)%Z then _ else _).
  set (final := if (or_default o 0 + 20 <? 0)%Z then _ else _).
  assert (final - k <= 20)%Z; [|lia].
  subst k final.
  destruct (Z.ltb_spec (or_default o 0) 0), (Z.ltb_spec (or_default o 0 + 20) 0); lia.
Qed.

End AgentSearchEngineFacts.

(** ** The version manager *)

Module VersionManagerFacts.

Import JsString VersionManager.

Lemma existsb_false {A : Type} (f : A -> bool) (l : list A) :
  existsb f l = false <-> forall x, In x l -> f x = false.
Proof.
  induction l as [|y l IH]; simpl.
  - split; auto. intros _ x [].
  - rewrite orb_false_iff, IH. split.
    + intros [Hy Hl] x [<-|Hx]; auto.
    + intros H. split; auto.
Qed.

(** What [semver.clean] does to a range with an operator: it does not
    parse as a version, so the call ends there. *)
Example caret_range_is_not_a_version :
  Semver.clean Semver.node "^1.2.0" = None
  /\ VersionCompatibility.reason
       (checkCompatibility Semver.node "^1.2.0" "1.3.0")
     = Some "Invalid version format".
Proof. split; reflexivity. Qed.

(** C4 (as stated it fails).  For required version 1.2.0 and provided
    version 2.0.0 the suggested version is built from the major of the
    required version: it is 1.x.x and not 2.x.x. *)
Lemma checkCompatibility_suggests_required_major :
  let r := checkCompatibility Semver.node "1.2.0" "2.0.0" in
  VersionCompatibility.compatible r = false
  /\ VersionCompatibility.suggestedVersion r = Some "1.x.x"
  /\ VersionCompatibility.suggestedVersion r <> Some "2.x.x".
Proof.
  cbv zeta. split; [reflexivity|]. split; [reflexivity|].
  vm_compute. discriminate.
Qed.

(** C4 (amended).  [checkCompatibility] answers incompatible with reason
    [Invalid version format] and no suggestion when [clean] rejects either
    argument.  Otherwise it decides in this order: compatible when the
    provided version satisfies the required string read as a range; else,
    when the majors differ, incompatible with a reason that names both and
    the suggestion [<requiredMajor>.x.x]; else, when the provided version is
    lower, incompatible as too old with the required string as suggestion;
    else compatible.  So 1.2.0 against 2.0.0 suggests 1.x.x, and 1.5.0
    against 1.2.0 is too old and suggests 1.5.0. *)
Theorem checkCompatibility_decides_in_order
        (semver : Semver.lib) (required provided : string) :
  let r := checkCompatibility semver required provided in
  let answer c why suggestion :=
    {| VersionCompatibility.compatible := c;
       VersionCompatibility.reason := why;
       VersionCompatibility.suggestedVersion := suggestion |} in
  (falsy (Semver.clean semver required) = true
   \/ falsy (Semver.clean semver provided) = true ->
   r = answer false (Some "Invalid version format") None)
  /\ (forall cr cp,
        Semver.clean semver required = Some cr -> cr <> EmptyString ->
        Semver.clean semver provided = Some cp -> cp <> EmptyString ->
        (Semver.satisfies semver cp required = true ->
         r = answer true None None)
        /\ (forall rm pm,
              Semver.satisfies semver cp required = false ->
              Semver.major semver cr = Some rm ->
              Semver.major semver cp = Some pm ->
              (rm <> pm ->
               r = answer false
                     (Some ("Major version mismatch: required v" ++ of_N rm
                              ++ ", provided v" ++ of_N pm))
                     (Some (of_N rm ++ ".x.x")))
              /\ (rm = pm -> Semver.lt semver cp cr = Some true ->
                  r = answer false
                        (Some ("Version too old: required " ++ required
                                 ++ ", provided " ++ provided))
                        (Some required))
              /\ (rm = pm -> Semver.lt semver cp cr = Some false ->
                  r = answer true None None)))
  /\ checkCompatibility Semver.node "1.2.0" "2.0.0"
     = answer false (Some "Major version mismatch: required v1, provided v2")
         (Some "1.x.x")
  /\ checkCompatibility Semver.node "1.5.0" "1.2.0"
     = answer false (Some "Version too old: required 1.5.0, provided 1.2.0")
         (Some "1.5.0").
Proof.
  cbv zeta. split; [|split; [|split; reflexivity]].
  - intros H. unfold checkCompatibility, checkCompatibility_try.
    replace (falsy (Semver.clean semver required)
             || falsy (Semver.clean semver provided)) with true; auto.
    symmetry. apply orb_true_iff. exact H.
  - intros cr cp Hcr Hne_r Hcp Hne_p.
    assert (Hok : falsy (Semver.clean semver required)
                  || falsy (Semver.clean semver provided) = false).
    { rewrite Hcr, Hcp. unfold falsy, truthy.
      apply String.eqb_neq in Hne_r, Hne_p. now rewrite Hne_r, Hne_p. }
    unfold checkCompatibility, checkCompatibility_try.
    rewrite Hok, Hcr, Hcp. cbn [or_empty_string]. split.
    + intros Hsat. now rewrite Hsat.
    + intros rm pm Hsat Hrm Hpm. rewrite Hsat, Hrm, Hpm. repeat split.
      * intros Hne. apply N.eqb_neq in Hne. now rewrite Hne.
      * intros Heq Hlt. apply N.eqb_eq in Heq. now rewrite Heq, Hlt.
      * intros Heq Hlt. apply N.eqb_eq in Heq. now rewrite Heq, Hlt.
Qed.

Lemma checkCompatibility_decides_in_order_witness :
  Semver.clean Semver.node "1.5.0" = Some "1.5.0"
  /\ Semver.clean Semver.node "1.2.0" = Some "1.2.0"
  /\ Semver.satisfies Semver.node "1.2.0" "1.5.0" = false
  /\ Semver.major Semver.node "1.5.0" = Some 1%N
  /\ Semver.major Semver.node "1.2.0" = Some 1%N
  /\ Semver.lt Semver.node "1.2.0" "1.5.0" = Some true
  /\ checkCompatibility Semver.node "1.5.0" "1.2.0"
     = {| VersionCompatibility.compatible := false;
          VersionCompatibility.reason :=
            Some ("Version too old: required " ++ "1.5.0"
                    ++ ", provided " ++ "1.2.0");
          VersionCompatibility.suggestedVersion := Some "1.5.0" |}.
Proof.
  repeat (split; [reflexivity|]).
  pose proof (checkCompatibility_decides_in_order Semver.node "1.5.0" "1.2.0")
    as H.
  cbv zeta in H. destruct H as (_ & H & _).
  destruct (H "1.5.0" "1.2.0" eq_refl ltac:(discriminate) eq_refl
              ltac:(discriminate)) as (_ & H').
  destruct (H' 1%N 1%N eq_refl eq_refl eq_refl) as (_ & Hold & _).
  exact (Hold eq_refl eq_refl).
Defined.

(** C9 (as stated it fails).  An empty array of preferred models is
    present, so the check runs, finds no entry that matches and adds an
    issue. *)
Lemma checkModelCompatibility_empty_preference :
  let r := checkModelCompatibility Samples.no_preference "gpt-4" 1000 in
  (exists mr, model_requirements Samples.no_preference = Some mr
              /\ preferred_models mr = Some [])
  /\ ModelCompatibility.issues r = ["Model gpt-4 is not in preferred models: "]
  /\ ModelCompatibility.compatible r = false.
Proof.
  cbv zeta. split; [|split; reflexivity].
  eexists. split; reflexivity.
Qed.

(** C9 (amended).  [checkModelCompatibility] is total.  It adds an issue
    for the model exactly when [preferred_models] is present, empty or
    not, and no entry is a case-insensitive substring of the model; it adds
    an issue for the context exactly when [min_context] is present, not
    zero, and larger than the available context; [compatible] holds exactly
    when there is no issue; and without [model_requirements] there is
    none. *)
Theorem checkModelCompatibility_issues
        (agent : AgentMetadata) (model : string) (contextSize : Z) :
  let r := checkModelCompatibility agent model contextSize in
  ModelCompatibility.issues r
  = (preferred_issue agent model ++ context_issue agent contextSize)%list
  /\ (List.length (preferred_issue agent model) <= 1)%nat
  /\ (List.length (context_issue agent contextSize) <= 1)%nat
  /\ (preferred_issue agent model <> []
      <-> exists mr models,
            model_requirements agent = Some mr
            /\ preferred_models mr = Some models
            /\ forall m, In m models ->
                         includes (toLowerCase model) (toLowerCase m) = false)
  /\ (context_issue agent contextSize <> []
      <-> exists mr mc,
            model_requirements agent = Some mr
            /\ min_context mr = Some mc
            /\ mc <> 0%Z /\ (contextSize < mc)%Z)
  /\ (ModelCompatibility.compatible r = true <-> ModelCompatibility.issues r = [])
  /\ (model_requirements agent = None -> ModelCompatibility.issues r = []).
Proof.
  cbv zeta. split; [reflexivity|]. split; [|split; [|split; [|split; [|split]]]].
  - unfold preferred_issue. destruct (model_requirements agent) as [mr|]; simpl; auto.
    destruct (preferred_models mr) as [models|]; simpl; auto.
    destruct (negb _); simpl; auto.
  - unfold context_issue. destruct (model_requirements agent) as [mr|]; simpl; auto.
    destruct (min_context mr) as [mc|]; simpl; auto.
    destruct (mc =? 0)%Z; simpl; auto. destruct (contextSize <? mc)%Z; simpl; auto.
  - unfold preferred_issue. split.
    + destruct (model_requirements agent) as [mr|]; [|congruence].
      destruct (preferred_models mr) as [models|] eqn:Hm; [|congruence].
      destruct (existsb _ models) eqn:E; simpl; [congruence|]. intros _.
      exists mr, models. repeat split; auto.
      exact (proj1 (existsb_false _ _) E).
    + intros (mr & models & -> & -> & Hnone).
      apply existsb_false in Hnone. rewrite Hnone. simpl. discriminate.
  - unfold context_issue. split.
    + destruct (model_requirements agent) as [mr|]; [|congruence].
      destruct (min_context mr) as [mc|] eqn:Hm; [|congruence].
      destruct (Z.eqb_spec mc 0); [congruence|].
      destruct (Z.ltb_spec contextSize mc); [|congruence]. intros _.
      exists mr, mc. auto.
    + intros (mr & mc & -> & -> & Hnz & Hlt).
      destruct (Z.eqb_spec mc 0); [contradiction|].
      destruct (Z.ltb_spec contextSize mc); [discriminate | lia].
  - unfold checkModelCompatibility. cbn [ModelCompatibility.compatible
                                          ModelCompatibility.issues].
    destruct (_ ++ _)%list; simpl; split; congruence.
  - intros Hnone. unfold checkModelCompatibility, preferred_issue, context_issue.
    now rewrite Hnone.
Qed.

End VersionManagerFacts.

(** ** The validator *)

Module AgentParserFacts.

Import AgentParser Advice.

Section Facts.

Variable errorMap : Zod.code -> value -> string.
Variable is_email : string -> bool.
Variable is_datetime : string -> bool.

#[local] Abbreviation safeParse :=
  (AgentParser.safeParse errorMap is_email is_datetime).
#[local] Abbreviation validate_try :=
  (AgentParser.validate_try errorMap is_email is_datetime).
#[local] Abbreviation validate :=
  (AgentParser.validate errorMap is_email is_datetime).

Lemma store_eta s : {| errors := errors s; warnings := warnings s |} = s.
Proof. now destruct s. Qed.

Lemma for_each_push_error (l : list Zod.issue) : forall s,
  for_each l (fun err => push_error (to_error err)) s
  = (inl tt, {| errors := errors s ++ map to_error l; warnings := warnings s |}).
Proof.
  induction l as [|x l IH]; intros s; simpl.
  - unfold ret. now rewrite app_nil_r, store_eta.
  - unfold bind, push_error. rewrite IH. simpl.
    now rewrite <- app_assoc.
Qed.

(** Reading a property of a value that is neither [undefined] nor [null]
    does not throw. *)
Lemma get_prop md key v key' :
  Js.get md key = inl v -> Js.get md key' = inl (Js.prop md key').
Proof. unfold Js.prop. destruct md; simpl; intros H; congruence. Qed.

Lemma get_truthy v key : Js.truthy v = true -> Js.get v key = inl (Js.prop v key).
Proof. unfold Js.prop. destruct v; simpl; intros H; congruence. Qed.

(** What the [try] block does, step by step. *)
Lemma validate_try_steps agentFile s :
  validate_try agentFile s
  = match Js.get agentFile "metadata" with
    | inr e => (inr e, s)
    | inl metadata =>
        let found := map to_error (safeParse (VObj [("agent", metadata)])) in
        match Js.get metadata "version" with
        | inr e =>
            (inr e, {| errors := errors s ++ found; warnings := warnings s |})
        | inl _ =>
            let s' := {| errors := errors s ++ found;
                         warnings := warnings s ++ warnings_of metadata |} in
            (inl {| ValidationResult.valid := (List.length (errors s') =? 0)%nat;
                    ValidationResult.errors := errors s';
                    ValidationResult.warnings := warnings s' |}, s')
        end
    end.
Proof.
  unfold AgentParser.validate_try.
  destruct (Js.get agentFile "metadata") as [metadata|e] eqn:Hmd;
    [|reflexivity].
  cbv beta iota delta [bind lift ret]. rewrite for_each_push_error.
  cbv zeta.
  destruct (Js.get metadata "version") as [version|e] eqn:Hv; [|reflexivity].
  rewrite (get_prop _ _ _ "description" Hv), (get_prop _ _ _ "author" Hv),
    (get_prop _ _ _ "organization" Hv), (get_prop _ _ _ "capabilities" Hv).
  unfold warnings_of, missing, empty_array.
  replace (Js.prop metadata "version") with version
    by (unfold Js.prop; now rewrite Hv).
  generalize (Js.prop metadata "description") (Js.prop metadata "author")
    (Js.prop metadata "organization") (Js.prop metadata "capabilities").
  intros description author organization capabilities.
  generalize (map to_error (safeParse (VObj [("agent", metadata)]))).
  intros found.
  destruct (Js.truthy capabilities) eqn:Hc.
  - rewrite (get_truthy _ "length" Hc).
    destruct (Js.truthy version), (Js.truthy description), (Js.truthy author),
      (Js.truthy organization), (Js.is_zero (Js.prop capabilities "length"));
      cbn -[List.length Nat.eqb]; rewrite ?app_nil_r, <- ?app_assoc; reflexivity.
  - destruct (Js.truthy version), (Js.truthy description), (Js.truthy author),
      (Js.truthy organization);
      cbn -[List.length Nat.eqb]; rewrite ?app_nil_r, <- ?app_assoc; reflexivity.
Qed.

(** A document that passes the schema is an object with a non-empty
    string as its name. *)
Lemma valid_has_name metadata :
  safeParse (VObj [("agent", metadata)]) = [] ->
  exists props n,
    metadata = VObj props /\ Js.lookup props "name" = VStr n /\ n <> EmptyString.
Proof.
  unfold AgentParser.safeParse, Zod.safeParse, Schema.AgentFrontmatterSchema.
  cbn [Zod.issues Js.lookup JsMap.get String.eqb Ascii.eqb Bool.eqb app].
  rewrite app_nil_r. unfold Schema.AgentMetadataSchema.
  destruct metadata as [| | | | |items|props];
    try (cbn [Zod.issues Zod.fail]; discriminate).
  cbn [Zod.issues]. intros H.
  apply app_eq_nil in H. destruct H as [H _].
  apply app_eq_nil in H. destruct H as [H _].
  exists props. destruct (Js.lookup props "name") as [| | | |n| |];
    try (cbn [Zod.fail] in H; discriminate).
  exists n. repeat split. intros ->. discriminate.
Qed.

(** Whatever the warnings, a returned result is valid exactly when it has
    no error. *)
Lemma valid_iff_no_error agentFile r :
  validate agentFile = inl r ->
  (ValidationResult.valid r = true <-> ValidationResult.errors r = []).
Proof.
  unfold AgentParser.validate, try_catch. rewrite validate_try_steps.
  destruct (Js.get agentFile "metadata") as [metadata|e].
  - cbv zeta. destruct (Js.get metadata "version") as [version|e].
    + cbn [fst errors app]. intros [= <-].
      cbn [ValidationResult.valid ValidationResult.errors].
      destruct (map to_error _); simpl; split; congruence.
    + cbn [fst errors warnings app]. intros [= <-].
      cbn [ValidationResult.valid ValidationResult.errors].
      split; [discriminate|]. intros H.
      apply app_eq_nil in H. destruct H; discriminate.
  - cbn [fst errors warnings app]. intros [= <-]. split; discriminate.
Qed.

(** C7.  [validate] returns for every input.  The result is valid exactly
    when it has no error.  When the metadata can be read, the errors are
    all the issues of the schema, one error each and in their order, next
    to the warnings.  When the [try] block throws, the result is not valid
    and its errors are those found so far followed by one error on field
    [agent] for what was thrown. *)
Theorem validate_never_throws (agentFile : value) :
  exists r,
    validate agentFile = inl r
    /\ (ValidationResult.valid r = true <-> ValidationResult.errors r = [])
    /\ (forall metadata version,
          Js.get agentFile "metadata" = inl metadata ->
          Js.get metadata "version" = inl version ->
          let found := safeParse (VObj [("agent", metadata)]) in
          ValidationResult.errors r = map to_error found
          /\ List.length (ValidationResult.errors r) = List.length found
          /\ ValidationResult.warnings r = warnings_of metadata)
    /\ (forall e s,
          validate_try agentFile {| errors := []; warnings := [] |} = (inr e, s) ->
          ValidationResult.valid r = false
          /\ ValidationResult.errors r = (errors s ++ [generic_error e])%list
          /\ ValidationResult.warnings r = warnings s).
Proof.
  unfold AgentParser.validate, try_catch.
  rewrite validate_try_steps.
  destruct (Js.get agentFile "metadata") as [metadata|e] eqn:Hmd.
  - cbv zeta. destruct (Js.get metadata "version") as [version|e] eqn:Hv.
    + cbn [fst errors warnings app]. eexists. split; [reflexivity|].
      cbn [ValidationResult.valid ValidationResult.errors
           ValidationResult.warnings].
      split; [|split].
      * destruct (map to_error _); simpl; split; congruence.
      * intros metadata' version' [= <-] _. cbv zeta.
        now rewrite length_map.
      * intros e s [=].
    + cbn [fst errors warnings app]. eexists. split; [reflexivity|].
      cbn [ValidationResult.valid ValidationResult.errors
           ValidationResult.warnings].
      split; [|split].
      * split; [discriminate|]. intros H.
        apply app_eq_nil in H. destruct H; discriminate.
      * intros metadata' version' [= <-]. congruence.
      * intros e' s [= <- <-]. auto.
  - cbn [fst errors warnings app]. eexists. split; [reflexivity|].
    cbn [ValidationResult.valid ValidationResult.errors
         ValidationResult.warnings].
    split; [|split].
    + split; discriminate.
    + intros metadata version [=].
    + intros e' s [= <- <-]. auto.
Qed.

(** C6 (amended).  A document that passes the schema, which makes its
    name a non-empty string, that has no version, no description, no author
    and no organization, and whose capabilities are not an empty array, is
    valid with exactly the three warnings on version, description and
    author, in that order.  For every input, whether the result is valid
    depends on its errors alone, never on the warnings. *)
Theorem validate_name_only (agentFile metadata : value) :
  Js.get agentFile "metadata" = inl metadata ->
  safeParse (VObj [("agent", metadata)]) = [] ->
  missing metadata "version" = true ->
  missing metadata "description" = true ->
  missing metadata "author" = true ->
  missing metadata "organization" = true ->
  empty_array (Js.prop metadata "capabilities") = false ->
  validate agentFile
  = inl {| ValidationResult.valid := true;
           ValidationResult.errors := [];
           ValidationResult.warnings :=
             [version_warning; description_warning; author_warning] |}
  /\ (exists props n,
        metadata = VObj props /\ Js.lookup props "name" = VStr n
        /\ n <> EmptyString)
  /\ (forall other r,
        validate other = inl r ->
        (ValidationResult.valid r = true <-> ValidationResult.errors r = [])).
Proof.
  intros Hmd Hvalid Hv Hd Ha Ho Hc.
  split; [|split; [now apply valid_has_name | apply valid_iff_no_error]].
  destruct (valid_has_name _ Hvalid) as (props & n & -> & _ & _).
  unfold AgentParser.validate, try_catch. rewrite validate_try_steps, Hmd.
  cbv zeta. rewrite Hvalid. cbn [Js.get map app errors warnings fst].
  unfold warnings_of. rewrite Hv, Hd, Ha, Ho, Hc. reflexivity.
Qed.

End Facts.

(** What the round trip of [parse] and [serialize] rests on.  If the
    header and the body that [matter.stringify] writes are what [matter]
    reads back, the body up to the blanks around it, then a parsed file
    that is serialized and parsed again has the same metadata and the same
    content.  Whether the two packages do so is not decided by the code of
    the repository. *)
Lemma roundtrip_from_codec
      (matter : string -> (value * string) + Js.exn)
      (stringify : string -> value -> string) :
  (forall body data,
      exists body', matter (stringify body data) = inl (data, body')
                    /\ JsString.trim body' = JsString.trim body) ->
  forall x p f,
    parse matter x p = inl f ->
    exists f',
      parse matter (serialize stringify f) p = inl f'
      /\ AgentFile.metadata f' = AgentFile.metadata f
      /\ AgentFile.content f' = AgentFile.content f.
Proof.
  intros Hcodec x p f. unfold parse at 1.
  destruct (matter x) as [[frontmatter body]|e]; [|discriminate].
  destruct (Js.get frontmatter "agent") as [agent|e]; [|discriminate].
  destruct (Js.truthy agent) eqn:Ht; [|discriminate]. simpl.
  intros [= <-]. unfold serialize, parse. cbn [AgentFile.metadata AgentFile.content].
  destruct (Hcodec (JsString.trim body) (VObj [("agent", agent)]))
    as (body' & -> & Hbody).
  cbn [Js.get Js.lookup JsMap.get String.eqb Ascii.eqb Bool.eqb].
  rewrite Ht. cbn [negb].
  eexists. split; [reflexivity|]. split; [reflexivity|].
  cbn [AgentFile.content].
  now rewrite Hbody, JsStringFacts.trim_idempotent.
Qed.

(** Two violations give two errors, in the order of the schema. *)
Example validate_collects_both :
  option_map (fun r => map ValidationError.field (ValidationResult.errors r))
    (match Samples.validate
             (Samples.file_of
                (VObj [("version", VStr "1.0"); ("name", VStr EmptyString)]))
     with inl r => Some r | inr _ => None end)
  = Some ["name"; "version"].
Proof. vm_compute. reflexivity. Qed.

(** C6 (as stated it fails).  With an empty [capabilities] array next to
    the name the document passes the schema and is valid, and it gets a
    fourth warning, on [capabilities]. *)
Lemma validate_empty_capabilities_warns :
  let metadata := VObj Samples.empty_capabilities in
  AgentParser.safeParse Samples.code_name Samples.no_format Samples.no_format
    (VObj [("agent", metadata)]) = []
  /\ Js.lookup Samples.empty_capabilities "name" = VStr "helper"
  /\ missing metadata "version" = true
  /\ missing metadata "description" = true
  /\ missing metadata "author" = true
  /\ missing metadata "organization" = true
  /\ Samples.validate (Samples.file_of metadata)
     = inl {| ValidationResult.valid := true;
              ValidationResult.errors := [];
              ValidationResult.warnings :=
                [version_warning; description_warning; author_warning;
                 capabilities_warning] |}.
Proof.
  cbv zeta. repeat split; vm_compute; reflexivity.
Qed.

Lemma validate_name_only_witness :
  Js.get (Samples.file_of (VObj Samples.only_name)) "metadata"
  = inl (VObj Samples.only_name)
  /\ AgentParser.safeParse Samples.code_name Samples.no_format Samples.no_format
       (VObj [("agent", VObj Samples.only_name)]) = []
  /\ Samples.validate (Samples.file_of (VObj Samples.only_name))
     = inl {| ValidationResult.valid := true;
              ValidationResult.errors := [];
              ValidationResult.warnings :=
                [version_warning; description_warning; author_warning] |}.
Proof.
  split; [reflexivity|]. split; [reflexivity|].
  exact (proj1 (validate_name_only Samples.code_name Samples.no_format
                  Samples.no_format (Samples.file_of (VObj Samples.only_name))
                  (VObj Samples.only_name)
                  eq_refl eq_refl eq_refl eq_refl eq_refl eq_refl eq_refl)).
Defined.

End AgentParserFacts.

(** ** Normalization *)

Module HelpersFacts.

Import Helpers Normal.

Lemma compare_not_Gt_trans a : forall b c,
  String.compare a b <> Gt -> String.compare b c <> Gt ->
  String.compare a c <> Gt.
Proof.
  induction a as [|x a IH]; intros b c Hab Hbc.
  - destruct c; simpl; discriminate.
  - destruct b as [|y b]; [simpl in Hab; congruence|].
    destruct c as [|z c]; [simpl in Hbc; congruence|].
    simpl in *. unfold Ascii.compare in *.
    destruct (N.compare_spec (N_of_ascii x) (N_of_ascii y)) as [Exy|Lxy|Gxy];
      destruct (N.compare_spec (N_of_ascii y) (N_of_ascii z)) as [Eyz|Lyz|Gyz];
      destruct (N.compare_spec (N_of_ascii x) (N_of_ascii z)) as [Exz|Lxz|Gxz];
      try congruence; try lia; eauto.
Qed.

Lemma leb_trans a b c :
  String.leb a b = true -> String.leb b c = true -> String.leb a c = true.
Proof.
  unfold String.leb. intros Hab Hbc.
  pose proof (compare_not_Gt_trans a b c) as H.
  destruct (String.compare a b), (String.compare b c), (String.compare a c);
    try reflexivity; try discriminate; exfalso; apply H; congruence.
Qed.

(** *** Deduplicated and sorted *)

Lemma dedup_acc items : forall acc,
  NoDup acc ->
  NoDup (fold_left JsSet.add items acc)
  /\ forall x, In x (fold_left JsSet.add items acc) <-> In x acc \/ In x items.
Proof.
  induction items as [|y items IH]; intros acc Hacc; simpl.
  - split; auto. intros x. tauto.
  - destruct (IH (JsSet.add acc y) (JsSetFacts.NoDup_add _ _ Hacc)) as [H1 H2].
    split; auto. intros x. rewrite H2, JsSetFacts.In_add.
    split; intros H; intuition (subst; auto).
Qed.

Lemma tidy_items items :
  let r := sort_default (dedup items) in
  NoDup r
  /\ StronglySorted (fun a b => String.leb a b = true) r
  /\ forall x, In x r <-> In x items.
Proof.
  cbv zeta. unfold sort_default, dedup.
  destruct (dedup_acc items [] (NoDup_nil _)) as [Hnd Hin].
  pose proof (JsSortFacts.sort_perm String.leb (fold_left JsSet.add items []))
    as Hperm.
  split; [|split].
  - eapply Permutation_NoDup; [symmetry; exact Hperm | exact Hnd].
  - apply JsSortFacts.sort_sorted; [apply String.leb_total | apply leb_trans].
  - intros x. split.
    + intros Hx. apply (Permutation_in _ Hperm) in Hx.
      apply Hin in Hx. destruct Hx as [[]|Hx]; exact Hx.
    + intros Hx. apply (Permutation_in _ (Permutation_sym Hperm)).
      apply Hin. now right.
Qed.

(** *** The two loops *)

Lemma keys_map (f : string * value -> string * value) m :
  (forall e, fst (f e) = fst e) -> JsMap.keys (map f m) = JsMap.keys m.
Proof.
  intros Hf. unfold JsMap.keys. rewrite map_map. apply map_ext. exact Hf.
Qed.

Lemma set_present (m : list (string * value)) k v' :
  NoDup (JsMap.keys m) -> JsMap.has m k = true ->
  JsMap.set m k v' = map (fun e => if fst e =? k then (fst e, v') else e) m.
Proof.
  unfold JsMap.has.
  induction m as [|[k0 v0] m IH]; simpl; intros Hnd Hhas; [discriminate|].
  inversion Hnd as [|? ? Hnotin Hnd']; subst.
  destruct (k0 =? k) eqn:E.
  - f_equal. rewrite <- (map_id m) at 1. apply map_ext_in. intros e He.
    apply String.eqb_eq in E; subst k0.
    destruct (fst e =? k) eqn:E'; auto.
    apply String.eqb_eq in E'. exfalso. apply Hnotin. rewrite <- E'.
    now apply in_map.
  - f_equal. now apply IH.
Qed.

Lemma normalize_array_map m f :
  NoDup (JsMap.keys m) ->
  normalize_array m f
  = map (fun e => if fst e =? f then (fst e, tidy_array (snd e)) else e) m.
Proof.
  intros Hnd. unfold normalize_array.
  assert (Hsame : forall e, In e m -> (fst e =? f) = true ->
                            JsMap.get m f = Some (snd e)).
  { intros [k v] He E. apply String.eqb_eq in E. simpl in *. subst k.
    now apply JsMapFacts.In_get. }
  destruct (JsMap.get m f) as [v|] eqn:Hget.
  - assert (Hid : m = map (fun e => if fst e =? f
                                    then (fst e, tidy_array (snd e)) else e) m
                  \/ exists items, v = VArr items).
    { destruct v; try (right; eexists; reflexivity); left;
        rewrite <- (map_id m) at 1; apply map_ext_in; intros [k w] He;
        cbn [fst snd]; destruct (k =? f) eqn:E; auto;
        specialize (Hsame _ He E); cbn [snd] in Hsame;
        injection Hsame as <-; reflexivity. }
    destruct v; try (destruct Hid as [Hid|[items' [=]]]; exact Hid).
    rewrite set_present; auto.
    + apply map_ext_in. intros [k w] He. cbn [fst snd].
      destruct (k =? f) eqn:E; auto.
      specialize (Hsame _ He E). cbn [snd] in Hsame.
      injection Hsame as <-. reflexivity.
    + unfold JsMap.has. now rewrite Hget.
  - rewrite <- (map_id m) at 1. apply map_ext_in. intros e He.
    destruct (fst e =? f) eqn:E; auto.
    specialize (Hsame _ He E). congruence.
Qed.

Lemma fold_normalize_array fs : NoDup fs -> forall m,
  NoDup (JsMap.keys m) ->
  fold_left normalize_array fs m
  = map (fun e => if existsb (String.eqb (fst e)) fs
                  then (fst e, tidy_array (snd e)) else e) m.
Proof.
  induction 1 as [|f fs Hf Hfs IH]; intros m Hnd; simpl.
  - now rewrite map_id.
  - rewrite normalize_array_map by assumption.
    rewrite IH.
    + rewrite map_map. apply map_ext. intros [k v]. cbn [fst snd].
      destruct (k =? f) eqn:E; cbn [fst snd orb]; auto.
      apply String.eqb_eq in E; subst k.
      replace (existsb (String.eqb f) fs) with false; auto.
      symmetry. apply JsSetFacts.has_false in Hf. exact Hf.
    + rewrite keys_map; auto. intros [k v]. cbn [fst].
      now destruct (k =? f).
Qed.

Lemma set_first (l1 l2 : list (string * value)) k v v' :
  ~ In k (JsMap.keys l1) ->
  JsMap.set (l1 ++ (k, v) :: l2) k v' = (l1 ++ (k, v') :: l2)%list.
Proof.
  induction l1 as [|[k0 v0] l1 IH]; simpl; intros Hnotin.
  - now rewrite String.eqb_refl.
  - destruct (k0 =? k) eqn:E.
    + apply String.eqb_eq in E. tauto.
    + f_equal. apply IH. tauto.
Qed.

Lemma fold_trim_entry todo : forall done,
  NoDup (JsMap.keys (done ++ todo)) ->
  fold_left trim_entry todo (map trimmed done ++ todo)%list
  = map trimmed (done ++ todo).
Proof.
  induction todo as [|[k v] todo IH]; intros done Hnd; simpl.
  - now rewrite !app_nil_r.
  - assert (Hstep : trim_entry (map trimmed done ++ (k, v) :: todo)%list (k, v)
                    = (map trimmed (done ++ [(k, v)]) ++ todo)%list).
    { assert (Hnotin : ~ In k (JsMap.keys (map trimmed done))).
      { rewrite keys_map by reflexivity.
        unfold JsMap.keys in Hnd. rewrite map_app in Hnd. simpl in Hnd.
        apply NoDup_remove_2 in Hnd. intros Hin. apply Hnd.
        apply in_or_app. now left. }
      rewrite map_app, <- app_assoc. simpl. unfold trim_entry. cbn [fst snd].
      destruct v; try reflexivity.
      now rewrite set_first. }
    rewrite Hstep, IH.
    + now rewrite <- app_assoc.
    + now rewrite <- app_assoc.
Qed.

Lemma arrayFields_NoDup : NoDup arrayFields.
Proof. apply JsSetFacts.nodupb_NoDup. reflexivity. Qed.

(** C8 (as stated it fails).  [dependencies] is not one of the arrays
    that [normalizeMetadata] tidies, so its duplicate and its order stay,
    while the name, a string, loses its surrounding blanks: the rest of
    the structure is not left as it was. *)
Lemma normalizeMetadata_skips_dependencies :
  normalizeMetadata Samples.untidy
  = [("name", VStr "helper"); ("tags", VArr ["a"; "b"]);
     ("dependencies", VArr ["b"; "a"; "b"])]
  /\ JsMap.get Samples.untidy "name" = Some (VStr " helper ")
  /\ JsMap.get (normalizeMetadata Samples.untidy) "dependencies"
     <> Some (VArr ["a"; "b"]).
Proof.
  split; [reflexivity|]. split; [reflexivity|].
  vm_compute. discriminate.
Qed.

(** C8 (amended).  On an object, [normalizeMetadata] keeps the keys and
    their order and replaces each value: an array under one of the twelve
    names capabilities, coding_languages, frameworks, tools, technologies,
    industries, skills, domains, languages, tags, keywords and use_cases by
    its elements without repetition in ascending order, a string by its
    trimmed text, and anything else, the arrays dependencies, integrations
    and apis among it, by itself. *)
Theorem normalizeMetadata_entries (metadata : list (string * value)) :
  Ranking.nodupb (JsMap.keys metadata) = true ->
  normalizeMetadata metadata = map normalize_entry metadata
  /\ JsMap.keys (normalizeMetadata metadata) = JsMap.keys metadata
  /\ (forall key, is_array_field key = true <-> In key arrayFields)
  /\ List.length arrayFields = 12%nat
  /\ is_array_field "dependencies" = false
  /\ is_array_field "integrations" = false
  /\ is_array_field "apis" = false
  /\ (forall key items,
        is_array_field key = true ->
        normalize_value key (VArr items) = VArr (sort_default (dedup items)))
  /\ (forall key items,
        is_array_field key = false ->
        normalize_value key (VArr items) = VArr items)
  /\ (forall key s, normalize_value key (VStr s) = VStr (JsString.trim s))
  /\ (forall key v,
        (forall items, v <> VArr items) -> (forall s, v <> VStr s) ->
        normalize_value key v = v)
  /\ (forall items,
        let r := sort_default (dedup items) in
        NoDup r
        /\ StronglySorted (fun a b => String.leb a b = true) r
        /\ forall x, In x r <-> In x items).
Proof.
  intros Hnd. apply JsSetFacts.nodupb_NoDup in Hnd.
  assert (Heq : normalizeMetadata metadata = map normalize_entry metadata).
  { unfold normalizeMetadata.
    rewrite (fold_normalize_array _ arrayFields_NoDup _ Hnd).
    set (m1 := map _ metadata).
    assert (Hk : JsMap.keys m1 = JsMap.keys metadata).
    { subst m1. apply keys_map. intros [k v]. cbn [fst].
      now destruct (existsb _ _). }
    pose proof (fold_trim_entry m1 []) as H. simpl in H. rewrite H.
    - subst m1. rewrite map_map. apply map_ext. intros [k v].
      unfold trimmed, normalize_entry, normalize_value, is_array_field.
      cbn [fst snd]. now destruct (existsb _ _).
    - now rewrite Hk. }
  split; [exact Heq|]. split.
  { rewrite Heq. now apply keys_map. }
  split.
  { intros key. unfold is_array_field. apply JsSetFacts.has_In. }
  do 4 (split; [reflexivity|]).
  split.
  { intros key items Hk. unfold normalize_value. now rewrite Hk. }
  split.
  { intros key items Hk. unfold normalize_value. now rewrite Hk. }
  split.
  { intros key s. unfold normalize_value. now destruct (is_array_field key). }
  split.
  { intros key v Harr Hstr. unfold normalize_value.
    destruct (is_array_field key), v; try reflexivity;
      solve [exfalso; eapply Harr; reflexivity
            | exfalso; eapply Hstr; reflexivity]. }
  apply tidy_items.
Qed.

Lemma normalizeMetadata_entries_witness :
  Ranking.nodupb (JsMap.keys Samples.untidy) = true
  /\ normalizeMetadata Samples.untidy = map normalize_entry Samples.untidy
  /\ map normalize_entry Samples.untidy
     = [("name", VStr "helper"); ("tags", VArr ["a"; "b"]);
        ("dependencies", VArr ["b"; "a"; "b"])].
Proof.
  split; [reflexivity|]. split; [|reflexivity].
  exact (proj1 (normalizeMetadata_entries Samples.untidy eq_refl)).
Defined.

End HelpersFacts.

(** ** What a query reaches *)

Module RetrievalFacts.

Import JsString Ranking SearchIndex Retrieval.

Lemma keys_bump k results id x :
  In x (JsMap.keys (bump k results id)) <-> x = id \/ In x (JsMap.keys results).
Proof.
  unfold bump. rewrite JsMapFacts.keys_set.
  destruct (JsMap.has results id) eqn:E.
  - apply JsMapFacts.has_In_keys in E. split; auto. intros [->|H]; auto.
  - rewrite in_app_iff. simpl. split.
    + intros [H|[H|[]]]; auto.
    + intros [H|H]; auto.
Qed.

Lemma keys_fold_bump k ids : forall results x,
  In x (JsMap.keys (fold_left (bump k) ids results))
  <-> In x ids \/ In x (JsMap.keys results).
Proof.
  induction ids as [|y ids IH]; intros results x; simpl.
  - tauto.
  - rewrite IH, keys_bump. split; intros H; intuition (subst; auto).
Qed.

Lemma keys_partial_loop token idx : forall results x,
  In x (JsMap.keys
          (fold_left
             (fun res (entry : string * list string) =>
                let (indexToken, ids) := entry in
                if includes indexToken token then fold_left (bump 1) ids res
                else res)
             idx results))
  <-> In x (JsMap.keys results)
      \/ exists tok ids,
           In (tok, ids) idx /\ includes tok token = true /\ In x ids.
Proof.
  induction idx as [|[indexToken ids] idx IH]; intros results x; simpl.
  - split; auto. intros [H|(tok & ids & [] & _)]; auto.
  - rewrite IH. destruct (includes indexToken token) eqn:E.
    + rewrite keys_fold_bump. split.
      * intros [[H|H]|(tok & ids' & H1 & H2 & H3)]; auto.
        -- right. exists indexToken, ids. auto.
        -- right. exists tok, ids'. auto.
      * intros [H|(tok & ids' & [H1|H1] & H2 & H3)]; auto.
        -- inversion H1; subst. auto.
        -- right. exists tok, ids'. auto.
    + split.
      * intros [H|(tok & ids' & H1 & H2 & H3)]; auto.
        right. exists tok, ids'. auto.
      * intros [H|(tok & ids' & [H1|H1] & H2 & H3)]; auto.
        -- inversion H1; subst. congruence.
        -- right. exists tok, ids'. auto.
Qed.

Lemma keys_score_token idx results token x :
  In x (JsMap.keys (score_token idx results token))
  <-> In x (JsMap.keys results)
      \/ exists tok ids,
           In (tok, ids) idx /\ includes tok token = true /\ In x ids.
Proof.
  unfold score_token. rewrite keys_partial_loop.
  destruct (JsMap.get idx token) as [exactMatches|] eqn:E; [|tauto].
  rewrite keys_fold_bump. split.
  - intros [[H|H]|H]; auto.
    right. exists token, exactMatches. repeat split; auto.
    + now apply JsMapFacts.get_Some_In.
    + apply JsStringFacts.includes_refl.
  - intros [H|H]; auto.
Qed.

Lemma keys_score_tokens idx tokens : forall results x,
  In x (JsMap.keys (fold_left (score_token idx) tokens results))
  <-> In x (JsMap.keys results) \/ hit idx tokens x.
Proof.
  unfold hit.
  induction tokens as [|t tokens IH]; intros results x; simpl.
  - split; auto. intros [H|(t & tok & ids & [] & _)]; auto.
  - rewrite IH, keys_score_token. split.
    + intros [[H|(tok & ids & H1 & H2 & H3)]|(t' & tok & ids & H0 & H1 & H2 & H3)];
        auto.
      * right. exists t, tok, ids. auto.
      * right. exists t', tok, ids. auto.
    + intros [H|(t' & tok & ids & [H0|H0] & H1 & H2 & H3)]; auto.
      * subst t'. left. right. exists tok, ids. auto.
      * right. exists t', tok, ids. auto.
Qed.

(** [search] returns exactly the documents that the query reaches. *)
Lemma search_hit s query id :
  In id (search s query) <-> hit (index s) (tokenize query) id.
Proof.
  unfold search, scores.
  pose proof (JsSortFacts.sort_perm by_score_desc
                (fold_left (score_token (index s)) (tokenize query) [])) as Hp.
  pose proof (keys_score_tokens (index s) (tokenize query) [] id) as Hk.
  unfold JsMap.keys in Hk. simpl in Hk. split.
  - intros H. apply (Permutation_in _ (Permutation_map fst Hp)) in H.
    apply Hk in H. destruct H as [[]|H]; exact H.
  - intros H. apply (Permutation_in _ (Permutation_map fst (Permutation_sym Hp))).
    apply Hk. now right.
Qed.

End RetrievalFacts.

(** ** Adding and removing documents *)

Module DocumentFacts.

Import JsString Ranking SearchIndex Retrieval.

Lemma toLowerCase_fixed s :
  every (fun c => negb (is_upper c)) s = true -> toLowerCase s = s.
Proof.
  induction s as [|c s IH]; simpl; auto.
  rewrite andb_true_iff, negb_true_iff. intros [Hc Hs].
  unfold lower_char. now rewrite Hc, IH.
Qed.

Lemma split_ws_single s :
  every (fun c => negb (is_space c)) s = true -> split_ws s = [s].
Proof.
  induction s as [|c s IH]; simpl; auto.
  rewrite andb_true_iff, negb_true_iff. intros [Hc Hs].
  now rewrite Hc, IH.
Qed.

(** A token of a lowercased text is the only token of itself. *)
Lemma tokenize_token text t :
  In t (split_ws (toLowerCase text)) -> tokenize t = [t].
Proof.
  intros Ht. unfold tokenize.
  pose proof (JsStringFacts.split_ws_no_space (toLowerCase text)) as H1.
  pose proof (JsStringFacts.split_ws_every _ _
                (JsStringFacts.toLowerCase_no_upper text)) as H2.
  rewrite Forall_forall in H1, H2.
  rewrite toLowerCase_fixed by auto. apply split_ws_single. auto.
Qed.

Lemma add_posting_adds id idx token :
  exists ids,
    JsMap.get (add_posting id idx token) token = Some ids /\ In id ids.
Proof.
  unfold add_posting.
  set (idx' := if JsMap.has idx token then idx else JsMap.set idx token []).
  assert (H : exists ids0, JsMap.get idx' token = Some ids0).
  { subst idx'. unfold JsMap.has.
    destruct (JsMap.get idx token) eqn:E; eauto.
    rewrite JsMapFacts.get_set_same. eauto. }
  destruct H as [ids0 H]. rewrite H, JsMapFacts.get_set_same.
  eexists. split; [reflexivity|]. apply JsSetFacts.In_add. now left.
Qed.

Lemma fold_add_posting_keeps id tokens : forall idx t ids x,
  JsMap.get idx t = Some ids -> In x ids ->
  exists ids',
    JsMap.get (fold_left (add_posting id) tokens idx) t = Some ids' /\ In x ids'.
Proof.
  induction tokens as [|token tokens IH]; intros idx t ids x Hget Hin; simpl; eauto.
  destruct (IndexFacts.add_posting_keeps id idx token t ids x Hget Hin)
    as (ids1 & H1 & H2).
  eauto.
Qed.

Lemma fold_add_posting_adds id tokens : forall idx t,
  In t tokens ->
  exists ids,
    JsMap.get (fold_left (add_posting id) tokens idx) t = Some ids /\ In id ids.
Proof.
  induction tokens as [|token tokens IH]; intros idx t Ht; [destruct Ht|].
  destruct Ht as [->|Ht]; simpl; auto.
  destruct (add_posting_adds id idx t) as (ids & H1 & H2).
  eapply fold_add_posting_keeps; eauto.
Qed.

Lemma set_keeps_or_replaces {V : Type} (m : list (string * V)) k v e :
  In e m ->
  In e (JsMap.set m k v) \/ (fst e = k /\ JsMap.get m k = Some (snd e)).
Proof.
  induction m as [|[k0 v0] m IH]; simpl; [tauto|].
  intros [<-|He]; destruct (k0 =? k) eqn:E; simpl; auto.
  - apply String.eqb_eq in E. auto.
  - destruct (IH He) as [H|H]; auto.
Qed.

Lemma In_add_posting_keeps id idx token tok ids x :
  In (tok, ids) idx -> In x ids ->
  exists ids', In (tok, ids') (add_posting id idx token) /\ In x ids'.
Proof.
  intros He Hx. unfold add_posting.
  set (idx' := if JsMap.has idx token then idx else JsMap.set idx token []).
  assert (He' : In (tok, ids) idx').
  { subst idx'. unfold JsMap.has.
    destruct (JsMap.get idx token) eqn:E; auto.
    destruct (set_keeps_or_replaces idx token [] _ He) as [H|[_ H]]; auto.
    congruence. }
  destruct (JsMap.get idx' token) as [ids0|] eqn:E; [|eauto].
  destruct (set_keeps_or_replaces idx' token (JsSet.add ids0 id) _ He')
    as [H|[H1 H2]]; [eauto|].
  simpl in H1, H2. subst tok. rewrite E in H2. injection H2 as <-.
  exists (JsSet.add ids0 id). split.
  - apply JsMapFacts.get_Some_In, JsMapFacts.get_set_same.
  - apply JsSetFacts.In_add. now right.
Qed.

Lemma In_fold_add_posting_keeps id tokens : forall idx tok ids x,
  In (tok, ids) idx -> In x ids ->
  exists ids',
    In (tok, ids') (fold_left (add_posting id) tokens idx) /\ In x ids'.
Proof.
  induction tokens as [|token tokens IH]; intros idx tok ids x He Hx; simpl; eauto.
  destruct (In_add_posting_keeps id idx token tok ids x He Hx) as (ids1 & H1 & H2).
  eauto.
Qed.

(** A document is found by each token of its searchable text, alone or
    among the tokens of a longer query. *)
Theorem addDocument_found_by_its_tokens
        (s : SearchIndex.t) (id : string) (metadata : AgentMetadata)
        (t : string) :
  In t (split_ws (searchableText metadata)) ->
  In id (search (addDocument s id metadata) t)
  /\ forall query,
       In t (tokenize query) -> In id (search (addDocument s id metadata) query).
Proof.
  intros Ht.
  assert (Hq : forall query, In t (tokenize query) ->
                             In id (search (addDocument s id metadata) query)).
  { intros query Hin. apply RetrievalFacts.search_hit.
    destruct (fold_add_posting_adds id _ (index s) t Ht) as (ids & Hget & Hid).
    exists t, t, ids. repeat split; auto.
    - now apply JsMapFacts.get_Some_In.
    - apply JsStringFacts.includes_refl. }
  split; auto. apply Hq.
  unfold searchableText in Ht. rewrite (tokenize_token _ _ Ht). now left.
Qed.

Lemma addDocument_found_by_its_tokens_witness :
  In "testing" (split_ws (searchableText (metadata_named "Test testing")))
  /\ In "a" (search Samples.two_documents "testing").
Proof.
  split; [simpl; auto|].
  exact (proj1 (addDocument_found_by_its_tokens
                  (addDocument empty "b" (metadata_named "testing")) "a"
                  (metadata_named "Test testing") "testing"
                  (or_intror (or_introl eq_refl)))).
Defined.

(** Adding a document takes no document out of the result of a query. *)
Theorem addDocument_keeps_results
        (s : SearchIndex.t) (id : string) (metadata : AgentMetadata)
        (query other : string) :
  In other (search s query) ->
  In other (search (addDocument s id metadata) query).
Proof.
  rewrite !RetrievalFacts.search_hit.
  intros (t & tok & ids & Ht & He & Hinc & Hx).
  destruct (In_fold_add_posting_keeps id (split_ws (searchableText metadata))
              (index s) tok ids other He Hx) as (ids' & H1 & H2).
  exists t, tok, ids'. auto.
Qed.

Lemma addDocument_keeps_results_witness :
  In "b" (search (addDocument empty "b" (metadata_named "testing")) "test")
  /\ In "b" (search Samples.two_documents "test").
Proof.
  assert (H : In "b" (search (addDocument empty "b" (metadata_named "testing"))
                         "test")) by (vm_compute; auto).
  split; [exact H|].
  exact (addDocument_keeps_results
           (addDocument empty "b" (metadata_named "testing")) "a"
           (metadata_named "Test testing") "test" "b" H).
Defined.

(** *** Removal *)

Lemma In_remove_postings id idx tok ids' :
  In (tok, ids') (remove_postings id idx)
  <-> exists ids,
        In (tok, ids) idx /\ ids' = JsSet.delete ids id /\ ids' <> [].
Proof.
  induction idx as [|[token ids0] idx IH]; simpl.
  - split; [tauto | intros (ids & [] & _)].
  - destruct (JsSet.delete ids0 id) as [|y rest] eqn:E; simpl.
    + rewrite IH. split.
      * intros (ids & H1 & H2 & H3). exists ids. auto.
      * intros (ids & [H1|H1] & H2 & H3).
        -- inversion H1; subst. congruence.
        -- exists ids. auto.
    + rewrite IH. split.
      * intros [H|(ids & H1 & H2 & H3)].
        -- inversion H; subst. exists ids0.
           split; [now left|]. split; [now rewrite E | discriminate].
        -- exists ids. auto.
      * intros (ids & [H1|H1] & H2 & H3).
        -- inversion H1; subst. left. now rewrite E.
        -- right. exists ids. auto.
Qed.

Lemma get_delete {V : Type} (m : list (string * V)) k :
  JsMap.get (JsMap.delete m k) k = None.
Proof.
  induction m as [|[k0 v0] m IH]; simpl; auto.
  destruct (k0 =? k) eqn:E; simpl; auto. now rewrite E.
Qed.

(** After [removeDocument] the document is gone: it is not stored, no
    posting set lists it, no posting set is left empty, and no query
    returns it. *)
Theorem removeDocument_forgets (s : SearchIndex.t) (id : string) :
  let s' := removeDocument s id in
  JsMap.get (documents s') id = None
  /\ (forall tok ids, In (tok, ids) (index s') -> ~ In id ids /\ ids <> [])
  /\ (forall query, ~ In id (search s' query)).
Proof.
  cbv zeta.
  assert (Hp : forall tok ids,
             In (tok, ids) (index (removeDocument s id)) ->
             ~ In id ids /\ ids <> []).
  { simpl. intros tok ids H. apply In_remove_postings in H.
    destruct H as (ids0 & _ & -> & Hne). split; auto.
    rewrite JsSetFacts.In_delete. tauto. }
  split; [apply get_delete|]. split; [exact Hp|].
  intros query H. apply RetrievalFacts.search_hit in H.
  destruct H as (t & tok & ids & _ & He & _ & Hx).
  destruct (Hp tok ids He) as [Hn _]. exact (Hn Hx).
Qed.

End DocumentFacts.

(** ** Sorting and filtering *)

Module JsSortFilter.

Section Facts.
Context {A : Type}.
Variable before : A -> A -> bool.
Hypothesis before_trans :
  forall a b c, before a b = true -> before b c = true -> before a c = true.

Lemma insert_first x l :
  (forall z, In z l -> before x z = true) -> JsSort.insert before x l = x :: l.
Proof.
  destruct l as [|y l]; simpl; auto.
  intros H. now rewrite (H y (or_introl eq_refl)).
Qed.

(** A list that is sorted stays as it is. *)
Lemma sort_sorted_id l :
  StronglySorted (fun a b => before a b = true) l -> JsSort.sort before l = l.
Proof.
  induction 1 as [|x l Hs IH Hx]; simpl; auto.
  rewrite IH. apply insert_first. now apply Forall_forall.
Qed.

Lemma filter_insert p x l :
  StronglySorted (fun a b => before a b = true) l ->
  filter p (JsSort.insert before x l)
  = if p x then JsSort.insert before x (filter p l) else filter p l.
Proof.
  induction 1 as [|y l Hs IH Hy]; simpl.
  - now destruct (p x).
  - destruct (before x y) eqn:E; simpl.
    + destruct (p x) eqn:Px; auto.
      symmetry. apply insert_first. intros z Hz.
      destruct (p y) eqn:Py.
      * destruct Hz as [<-|Hz]; auto.
        apply filter_In in Hz. rewrite Forall_forall in Hy.
        eapply before_trans; eauto. apply Hy. tauto.
      * apply filter_In in Hz. rewrite Forall_forall in Hy.
        eapply before_trans; eauto. apply Hy. tauto.
    + rewrite IH. destruct (p y) eqn:Py, (p x) eqn:Px; simpl; auto.
      now rewrite E.
Qed.

Hypothesis before_total : forall a b, before a b = true \/ before b a = true.

(** Sorting and then filtering is filtering and then sorting. *)
Lemma filter_sort p l :
  filter p (JsSort.sort before l) = JsSort.sort before (filter p l).
Proof.
  induction l as [|x l IH]; simpl; auto.
  rewrite filter_insert by (apply JsSortFacts.sort_sorted; auto).
  rewrite IH. now destruct (p x).
Qed.

End Facts.

End JsSortFilter.

Module RemovalFacts.

Import JsString Ranking SearchIndex Retrieval.

Lemma get_without id results id' :
  id' <> id -> JsMap.get (without id results) id' = JsMap.get results id'.
Proof.
  intros Hne. unfold without.
  induction results as [|[k v] results IH]; simpl; auto.
  destruct (k =? id) eqn:E; simpl.
  - apply String.eqb_eq in E. subst k.
    destruct (id =? id') eqn:E'; auto.
    apply String.eqb_eq in E'. congruence.
  - now rewrite IH.
Qed.

Lemma without_set_other id results id' v :
  id' <> id ->
  without id (JsMap.set results id' v) = JsMap.set (without id results) id' v.
Proof.
  intros Hne. unfold without.
  assert (Hk : (id' =? id) = false) by now apply String.eqb_neq.
  induction results as [|[k v0] results IH]; simpl.
  - now rewrite Hk.
  - destruct (k =? id') eqn:E; simpl.
    + apply String.eqb_eq in E. subst k. rewrite Hk. simpl.
      now rewrite String.eqb_refl.
    + destruct (k =? id) eqn:E'; simpl.
      * exact IH.
      * rewrite E. now rewrite IH.
Qed.

Lemma without_set_same id results v :
  without id (JsMap.set results id v) = without id results.
Proof.
  unfold without.
  induction results as [|[k v0] results IH]; simpl.
  - now rewrite String.eqb_refl.
  - destruct (k =? id) eqn:E; simpl.
    + now rewrite E.
    + rewrite E. now rewrite IH.
Qed.

Lemma without_bump id k results x :
  without id (bump k results x)
  = if x =? id then without id results else bump k (without id results) x.
Proof.
  unfold bump. destruct (x =? id) eqn:E.
  - apply String.eqb_eq in E. subst x. apply without_set_same.
  - apply String.eqb_neq in E.
    now rewrite without_set_other, get_without.
Qed.

Lemma without_fold_bump id k ids : forall results,
  without id (fold_left (bump k) ids results)
  = fold_left (bump k) (JsSet.delete ids id) (without id results).
Proof.
  induction ids as [|x ids IH]; intros results; simpl; auto.
  rewrite IH, without_bump. destruct (x =? id); reflexivity.
Qed.

Lemma get_absent {V : Type} (m : list (string * V)) k :
  ~ In k (JsMap.keys m) -> JsMap.get m k = None.
Proof.
  intros H. rewrite <- JsMapFacts.has_In_keys in H. unfold JsMap.has in H.
  destruct (JsMap.get m k); congruence.
Qed.

Lemma get_remove_postings id idx token :
  NoDup (JsMap.keys idx) ->
  JsMap.get (remove_postings id idx) token
  = match JsMap.get idx token with
    | Some ids =>
        match JsSet.delete ids id with
        | [] => None
        | ids' => Some ids'
        end
    | None => None
    end.
Proof.
  induction idx as [|[tok ids0] idx IH]; simpl; auto.
  intros Hnd. inversion Hnd as [|? ? Hnotin Hnd']; subst.
  destruct (tok =? token) eqn:E.
  - apply String.eqb_eq in E. subst tok.
    destruct (JsSet.delete ids0 id) as [|y rest] eqn:Ed; simpl.
    + apply get_absent. intros H. apply Hnotin.
      now apply IndexFacts.keys_remove_postings in H.
    + now rewrite String.eqb_refl.
  - destruct (JsSet.delete ids0 id) as [|y rest]; simpl; auto.
    now rewrite E; auto.
Qed.

Lemma without_partial_loop id token idx : forall results,
  without id
    (fold_left
       (fun res (entry : string * list string) =>
          let (indexToken, ids) := entry in
          if includes indexToken token then fold_left (bump 1) ids res
          else res)
       idx results)
  = fold_left
      (fun res (entry : string * list string) =>
         let (indexToken, ids) := entry in
         if includes indexToken token then fold_left (bump 1) ids res
         else res)
      (remove_postings id idx) (without id results).
Proof.
  induction idx as [|[indexToken ids] idx IH]; intros results; simpl; auto.
  rewrite IH.
  destruct (JsSet.delete ids id) as [|y rest] eqn:Ed; simpl.
  - destruct (includes indexToken token); auto.
    now rewrite without_fold_bump, Ed.
  - destruct (includes indexToken token); auto.
    now rewrite without_fold_bump, Ed.
Qed.

Lemma without_score_token id idx results token :
  NoDup (JsMap.keys idx) ->
  without id (score_token idx results token)
  = score_token (remove_postings id idx) (without id results) token.
Proof.
  intros Hnd. unfold score_token.
  rewrite without_partial_loop, (get_remove_postings _ _ _ Hnd).
  destruct (JsMap.get idx token) as [ids|]; auto.
  rewrite without_fold_bump.
  now destruct (JsSet.delete ids id).
Qed.

Lemma without_score_tokens id idx tokens : forall results,
  NoDup (JsMap.keys idx) ->
  without id (fold_left (score_token idx) tokens results)
  = fold_left (score_token (remove_postings id idx)) tokens (without id results).
Proof.
  induction tokens as [|t tokens IH]; intros results Hnd; simpl; auto.
  now rewrite IH, without_score_token.
Qed.

Lemma map_fst_without id results :
  map fst (without id results)
  = filter (fun x => negb (x =? id)) (map fst results).
Proof.
  unfold without. induction results as [|[k v] results IH]; simpl; auto.
  destruct (k =? id); simpl; now rewrite IH.
Qed.

(** On a well-formed index, removing a document takes it out of the
    result of every query and changes nothing else: the other documents
    come back as before, in the same order. *)
Theorem removeDocument_filters_results
        (s : SearchIndex.t) (id query : string) :
  well_formed (index s) = true ->
  search (removeDocument s id) query
  = filter (fun x => negb (x =? id)) (search s query).
Proof.
  intros Hwf. apply RankingFacts.well_formed_iff in Hwf. destruct Hwf as [Hnd _].
  unfold search. rewrite <- map_fst_without. f_equal.
  unfold without.
  rewrite (JsSortFilter.filter_sort by_score_desc
             RankingFacts.by_score_desc_trans RankingFacts.by_score_desc_total).
  f_equal. unfold scores. simpl.
  symmetry. exact (without_score_tokens id (index s) (tokenize query) [] Hnd).
Qed.

Lemma removeDocument_filters_results_witness :
  well_formed (index Samples.two_documents) = true
  /\ search Samples.two_documents "test" = ["a"; "b"]
  /\ search (removeDocument Samples.two_documents "a") "test" = ["b"].
Proof.
  split; [reflexivity|]. split; [reflexivity|].
  exact (removeDocument_filters_results Samples.two_documents "a" "test" eq_refl).
Defined.

End RemovalFacts.

(** ** Engines built by [addAgent] and [removeAgent] *)

Module ConsistencyFacts.

Import JsString Ranking SearchIndex Retrieval.

Lemma In_set_strict {V : Type} (m : list (string * V)) k v e :
  NoDup (JsMap.keys m) -> In e (JsMap.set m k v) ->
  e = (k, v) \/ (In e m /\ fst e <> k).
Proof.
  induction m as [|[k0 v0] m IH]; simpl.
  - intros _ [<-|[]]. auto.
  - intros Hnd. inversion Hnd as [|? ? Hnotin Hnd']; subst.
    destruct (k0 =? k) eqn:E; simpl.
    + apply String.eqb_eq in E. subst k0. intros [<-|He]; auto.
      right. split; auto. intros Hk. apply Hnotin. rewrite <- Hk.
      now apply in_map.
    + apply String.eqb_neq in E. intros [<-|He]; auto.
      destruct (IH Hnd' He) as [H|[H1 H2]]; auto.
Qed.

Lemma keys_delete {V : Type} (m : list (string * V)) k :
  JsMap.keys (JsMap.delete m k) = filter (fun x => negb (x =? k)) (JsMap.keys m).
Proof.
  induction m as [|[k0 v0] m IH]; simpl; auto.
  destruct (k0 =? k); simpl; now rewrite IH.
Qed.

Lemma posted_add_posting K id idx token :
  wf idx -> In id K -> posted_within K idx ->
  posted_within K (add_posting id idx token).
Proof.
  intros Hwf Hid Hp. unfold posted_within in *. rewrite Forall_forall in *.
  unfold add_posting.
  set (idx' := if JsMap.has idx token then idx else JsMap.set idx token []).
  assert (Hwf' : wf idx').
  { subst idx'. destruct (JsMap.has idx token); auto.
    apply IndexFacts.wf_set; auto. constructor. }
  assert (Hin' : forall e, In e idx' -> In e idx \/ e = (token, [])).
  { subst idx'. destruct (JsMap.has idx token); auto.
    intros e He. apply JsMapFacts.In_set in He. tauto. }
  destruct (JsMap.get idx' token) as [ids0|] eqn:E.
  - intros e He. apply (In_set_strict _ _ _ _ (proj1 Hwf')) in He.
    destruct He as [->|[He Hk]].
    + cbn [snd]. split.
      * intros Hnil. assert (H : In id (JsSet.add ids0 id))
          by (apply JsSetFacts.In_add; now left).
        rewrite Hnil in H. destruct H.
      * intros x Hx. apply JsSetFacts.In_add in Hx. destruct Hx as [->|Hx]; auto.
        apply JsMapFacts.get_Some_In in E.
        destruct (Hin' _ E) as [H|H].
        -- apply (Hp _ H). exact Hx.
        -- inversion H; subst. destruct Hx.
    + destruct (Hin' _ He) as [H|H]; auto.
      subst e. simpl in Hk. congruence.
  - intros e He. destruct (Hin' _ He) as [H|H]; auto.
    subst e. exfalso.
    assert (Hhas : JsMap.has idx' token = true).
    { apply JsMapFacts.has_In_keys.
      change token with (fst (token, @nil string)). now apply in_map. }
    unfold JsMap.has in Hhas. now rewrite E in Hhas.
Qed.

Lemma posted_fold_add_posting K id tokens : forall idx,
  wf idx -> In id K -> posted_within K idx ->
  posted_within K (fold_left (add_posting id) tokens idx).
Proof.
  induction tokens as [|t tokens IH]; intros idx Hwf Hid Hp; simpl; auto.
  apply IH; auto.
  - now apply IndexFacts.wf_add_posting.
  - now apply posted_add_posting.
Qed.

Lemma consistent_empty : consistent AgentSearchEngine.empty.
Proof. repeat split; constructor. Qed.

Lemma consistent_addAgent e agentId metadata :
  consistent e -> consistent (AgentSearchEngine.addAgent e agentId metadata).
Proof.
  intros (Hwf & Hdocs & Hnd & Hp). unfold consistent. simpl.
  split; [|split; [|split]].
  - now apply (IndexFacts.well_formed_addDocument
                 (AgentSearchEngine.searchIndex e)).
  - now rewrite Hdocs.
  - now apply JsMapFacts.NoDup_keys_set.
  - apply posted_fold_add_posting.
    + now apply RankingFacts.well_formed_iff.
    + rewrite JsMapFacts.keys_set.
      destruct (JsMap.has (AgentSearchEngine.agents e) agentId) eqn:E.
      * now apply JsMapFacts.has_In_keys.
      * apply in_or_app. right. now left.
    + unfold posted_within. eapply Forall_impl; [|exact Hp].
      intros entry [H1 H2]. split; auto. intros id Hid.
      rewrite JsMapFacts.keys_set.
      destruct (JsMap.has (AgentSearchEngine.agents e) agentId); auto.
      apply in_or_app. left. auto.
Qed.

Lemma consistent_removeAgent e agentId :
  consistent e -> consistent (AgentSearchEngine.removeAgent e agentId).
Proof.
  intros (Hwf & Hdocs & Hnd & Hp). unfold consistent. simpl.
  split; [|split; [|split]].
  - now apply (IndexFacts.well_formed_removeDocument
                 (AgentSearchEngine.searchIndex e)).
  - now rewrite Hdocs.
  - rewrite keys_delete. now apply NoDup_filter.
  - rewrite Forall_forall in *. intros [tok ids'] He.
    apply DocumentFacts.In_remove_postings in He.
    destruct He as (ids & He & -> & Hne). cbn [snd]. split; auto.
    intros id Hid. apply JsSetFacts.In_delete in Hid. destruct Hid as [Hid Hneq].
    rewrite keys_delete. apply filter_In. split.
    + exact (proj2 (Hp _ He) id Hid).
    + now apply negb_true_iff, String.eqb_neq.
Qed.

Lemma consistent_fold actions : forall e,
  consistent e -> consistent (fold_left perform actions e).
Proof.
  induction actions as [|a actions IH]; intros e He; simpl; auto.
  apply IH. destruct a; simpl.
  - now apply consistent_addAgent.
  - now apply consistent_removeAgent.
Qed.

(** Whatever sequence of [addAgent] and [removeAgent] calls built it, an
    engine has a well-formed index whose stored documents are its agents,
    without an empty posting set, and with registered ids only in its
    posting sets. *)
Theorem run_consistent (actions : list action) :
  let e := run actions in
  let s := AgentSearchEngine.searchIndex e in
  well_formed (index s) = true
  /\ documents s = AgentSearchEngine.agents e
  /\ NoDup (JsMap.keys (AgentSearchEngine.agents e))
  /\ (forall tok ids,
        In (tok, ids) (index s) ->
        ids <> []
        /\ forall id, In id ids -> In id (JsMap.keys (AgentSearchEngine.agents e)))
  /\ (forall query id,
        In id (search s query) -> In id (JsMap.keys (AgentSearchEngine.agents e))).
Proof.
  cbv zeta.
  destruct (consistent_fold actions _ consistent_empty) as (Hwf & Hdocs & Hnd & Hp).
  fold (run actions) in *. rewrite Forall_forall in Hp.
  repeat split; auto.
  - exact (proj1 (Hp _ H)).
  - exact (proj2 (Hp _ H)).
  - intros query id H. apply RetrievalFacts.search_hit in H.
    destruct H as (t & tok & ids & _ & He & _ & Hx).
    exact (proj2 (Hp _ He) id Hx).
Qed.

End ConsistencyFacts.

(** ** Queries of the engine *)

Module QueryFacts.

Import AgentSearchEngine Retrieval.

Lemma In_firstn {A : Type} (n : nat) (l : list A) (a : A) :
  In a (firstn n l) -> In a l.
Proof.
  intros H. rewrite <- (firstn_skipn n l). apply in_or_app. now left.
Qed.

Lemma In_skipn {A : Type} (n : nat) (l : list A) (a : A) :
  In a (skipn n l) -> In a l.
Proof.
  intros H. rewrite <- (firstn_skipn n l). apply in_or_app. now right.
Qed.

Lemma length_filter_le {A : Type} (p : A -> bool) (l : list A) :
  (List.length (filter p l) <= List.length l)%nat.
Proof.
  induction l as [|x l IH]; simpl; auto.
  destruct (p x); simpl; lia.
Qed.

Lemma In_js_slice {A : Type} (l : list A) (start stop : Z) (a : A) :
  In a (js_slice l start stop) -> In a l.
Proof.
  unfold js_slice. intros H. eapply In_skipn, In_firstn. exact H.
Qed.

Lemma length_js_slice {A : Type} (l : list A) (o n : Z) :
  (0 <= n)%Z -> (Z.of_nat (List.length (js_slice l o (o + n))) <= n)%Z.
Proof.
  intros Hn. unfold js_slice. rewrite length_firstn, length_skipn.
  set (len := Z.of_nat (List.length l)).
  assert (Hlen : (0 <= len)%Z) by (subst len; lia).
  destruct (Z.ltb_spec o 0), (Z.ltb_spec (o + n) 0); lia.
Qed.

Lemma In_narrowed e options a :
  In a (narrowed e options) -> In a (JsMap.values (agents e)).
Proof.
  unfold narrowed, applyFilters. intros H.
  destruct (filters options); [apply filter_In in H; destruct H as [H _]|];
    (destruct (query options) as [q|]; [destruct (JsString.truthy q)|]);
    try apply filter_In in H; tauto.
Qed.

Lemma In_matching localeCompare e options a :
  In a (matching localeCompare e options) <-> In a (narrowed e options).
Proof.
  unfold matching, sortResults. destruct (sort options) as [s|]; [|tauto].
  split; apply Permutation_in;
    [|symmetry]; apply JsSortFacts.sort_perm.
Qed.

Lemma length_narrowed e options :
  (List.length (narrowed e options) <= List.length (agents e))%nat.
Proof.
  unfold narrowed, applyFilters, JsMap.values.
  pose proof (length_map snd (agents e)) as Hm.
  destruct (filters options);
    (destruct (query options) as [q|]; [destruct (JsString.truthy q)|]);
    repeat (etransitivity; [apply length_filter_le|]); lia.
Qed.

(** A call of [search] returns registered agents only, never more than
    matched, never more than the limit in force when that is not negative,
    and [total] never exceeds the number of registered agents. *)
Theorem search_within_bounds (localeCompare : string -> string -> Z)
        (e : AgentSearchEngine.t) (options : SearchOptions) :
  let r := search localeCompare e options in
  (forall a, In a (SearchResult.agents r) -> In a (JsMap.values (agents e)))
  /\ (SearchResult.total r <= Z.of_nat (List.length (agents e)))%Z
  /\ (Z.of_nat (List.length (SearchResult.agents r)) <= SearchResult.total r)%Z
  /\ ((0 <= SearchResult.pageSize r)%Z ->
      (Z.of_nat (List.length (SearchResult.agents r)) <= SearchResult.pageSize r)%Z).
Proof.
  cbv zeta. unfold search.
  cbn [SearchResult.agents SearchResult.total SearchResult.pageSize].
  split; [|split; [|split]].
  - intros a H. apply In_js_slice, In_matching in H. now apply In_narrowed in H.
  - rewrite AgentSearchEngineFacts.length_matching.
    pose proof (length_narrowed e options). lia.
  - unfold js_slice. rewrite length_firstn, length_skipn. lia.
  - apply length_js_slice.
Qed.

(** *** Pages *)

Lemma firstn_add {A : Type} (n m : nat) : forall l : list A,
  firstn (n + m) l = (firstn n l ++ firstn m (skipn n l))%list.
Proof.
  induction n as [|n IH]; intros l; simpl; auto.
  destruct l as [|x l]; simpl.
  - now rewrite firstn_nil.
  - now rewrite IH.
Qed.

Lemma skipn_add {A : Type} (n m : nat) : forall l : list A,
  skipn (n + m) l = skipn m (skipn n l).
Proof.
  induction n as [|n IH]; intros l; simpl; auto.
  destruct l as [|x l]; simpl; auto. now rewrite skipn_nil.
Qed.

(** Two pages that follow each other are the page of twice the size, and a
    page that starts at or after the last match is empty. *)
Theorem search_pages_concatenate (localeCompare : string -> string -> Z)
        (e : AgentSearchEngine.t) (q : option string)
        (f : option SearchFilters.t) (s : option SortOption) (o l : Z) :
  (0 <= o)%Z -> (0 < l)%Z ->
  let page offset limit :=
    search localeCompare e
      {| query := q; filters := f; sort := s;
         limit := Some limit; offset := Some offset |} in
  (SearchResult.agents (page o l)
     ++ SearchResult.agents (page (o + l)%Z l))%list
  = SearchResult.agents (page o (2 * l)%Z)
  /\ SearchResult.total (page (o + l)%Z l) = SearchResult.total (page o l)
  /\ ((SearchResult.total (page o l) <= o)%Z -> SearchResult.agents (page o l) = []).
Proof.
  intros Ho Hl. cbv zeta. unfold search.
  cbn [SearchResult.agents SearchResult.total limit offset].
  set (results := matching localeCompare e
                    {| query := q; filters := f; sort := s;
                       limit := Some l; offset := Some o |}).
  change (matching localeCompare e
            {| query := q; filters := f; sort := s;
               limit := Some l; offset := Some (o + l)%Z |}) with results.
  change (matching localeCompare e
            {| query := q; filters := f; sort := s;
               limit := Some (2 * l)%Z; offset := Some o |}) with results.
  assert (Hd : forall v d, (v <> 0)%Z -> or_default (Some v) d = v).
  { intros v d Hv. simpl. destruct (Z.eqb_spec v 0); congruence. }
  assert (Ho' : or_default (Some o) 0 = o).
  { simpl. destruct (Z.eqb_spec o 0); congruence. }
  rewrite Ho', !Hd by lia.
  rewrite !AgentSearchEngineFacts.js_slice_window by lia.
  split; [|split; [reflexivity|]].
  - replace (Z.to_nat (2 * l)) with (Z.to_nat l + Z.to_nat l)%nat by lia.
    replace (Z.to_nat (o + l)) with (Z.to_nat o + Z.to_nat l)%nat by lia.
    now rewrite firstn_add, skipn_add.
  - intros Ht. rewrite skipn_all2 by lia. apply firstn_nil.
Qed.

Lemma search_pages_concatenate_witness :
  let page offset limit :=
    search Samples.code_unit_order (Samples.engine_of 5)
      {| query := None; filters := None; sort := None;
         limit := Some limit; offset := Some offset |} in
  (SearchResult.agents (page 1%Z 2%Z) ++ SearchResult.agents (page 3%Z 2%Z))%list
  = SearchResult.agents (page 1%Z 4%Z)
  /\ List.length (SearchResult.agents (page 1%Z 4%Z)) = 4%nat.
Proof.
  cbv zeta. split; [|reflexivity].
  exact (proj1 (search_pages_concatenate Samples.code_unit_order
                  (Samples.engine_of 5) None None None 1 2
                  (fun H : (0 ?= 1)%Z = Gt => ltac:(discriminate H)) eq_refl)).
Defined.

End QueryFacts.

(** ** Text queries, filters and orders *)

Module EngineFacts.

Import AgentSearchEngine Retrieval Options.

(** A text query returns an agent only when the id [name-version] made
    from its metadata is the id of a registered agent, whatever id the
    agent itself was registered under. *)
Theorem text_query_needs_synthetic_id
        (localeCompare : string -> string -> Z) (actions : list action)
        (options : SearchOptions) (q : string) (a : AgentMetadata) :
  query options = Some q -> JsString.truthy q = true ->
  In a (SearchResult.agents (search localeCompare (run actions) options)) ->
  In (getAgentId a) (SearchIndex.search (searchIndex (run actions)) q)
  /\ In (getAgentId a) (JsMap.keys (agents (run actions))).
Proof.
  intros Hq Ht Ha. unfold search in Ha. cbn [SearchResult.agents] in Ha.
  apply QueryFacts.In_js_slice, QueryFacts.In_matching in Ha.
  assert (Hs : In (getAgentId a) (SearchIndex.search (searchIndex (run actions)) q)).
  { unfold narrowed, applyFilters in Ha. rewrite Hq, Ht in Ha.
    destruct (filters options); [apply filter_In in Ha; destruct Ha as [Ha _]|];
      apply filter_In in Ha; destruct Ha as [_ Ha];
      now apply JsSetFacts.has_In in Ha. }
  split; [exact Hs|].
  apply RetrievalFacts.search_hit in Hs.
  destruct Hs as (t & tok & ids & _ & He & _ & Hx).
  destruct (ConsistencyFacts.consistent_fold actions _
              ConsistencyFacts.consistent_empty) as (_ & _ & _ & Hp).
  rewrite Forall_forall in Hp. exact (proj2 (Hp _ He) _ Hx).
Qed.

Lemma text_query_needs_synthetic_id_witness :
  let actions := [Add "helper-latest" (metadata_named "helper")] in
  let options := {| query := Some "helper"; filters := None; sort := None;
                    limit := None; offset := None |} in
  SearchResult.agents (search Samples.code_unit_order (run actions) options)
  = [metadata_named "helper"]
  /\ In "helper-latest" (JsMap.keys (agents (run actions))).
Proof.
  cbv zeta. split; [reflexivity|].
  exact (proj2 (text_query_needs_synthetic_id Samples.code_unit_order
                  [Add "helper-latest" (metadata_named "helper")]
                  {| query := Some "helper"; filters := None; sort := None;
                     limit := None; offset := None |}
                  "helper" (metadata_named "helper")
                  eq_refl eq_refl (or_introl eq_refl))).
Defined.

(** An agent registered under the id [name-version] made from its metadata
    is matched by the text query of each non-empty token of its searchable
    text. *)
Theorem registered_under_synthetic_id_is_found
        (e : AgentSearchEngine.t) (metadata : AgentMetadata) (t : string) :
  In t (JsString.split_ws (SearchIndex.searchableText metadata)) ->
  t <> EmptyString ->
  In metadata
     (narrowed (addAgent e (getAgentId metadata) metadata)
        {| query := Some t; filters := None; sort := None;
           limit := None; offset := None |}).
Proof.
  intros Ht Hne. unfold narrowed. cbn [query filters].
  replace (JsString.truthy t) with true
    by (symmetry; unfold JsString.truthy;
        now apply negb_true_iff, String.eqb_neq).
  apply filter_In. split.
  - cbn [agents addAgent]. unfold JsMap.values.
    change metadata with (snd (getAgentId metadata, metadata)) at 1.
    apply in_map, JsMapFacts.get_Some_In, JsMapFacts.get_set_same.
  - apply JsSetFacts.has_In. cbn [searchIndex addAgent].
    apply RetrievalFacts.search_hit.
    destruct (DocumentFacts.fold_add_posting_adds (getAgentId metadata) _
                (SearchIndex.index (searchIndex e)) t Ht) as (ids & Hget & Hid).
    exists t, t, ids. repeat split; auto.
    + unfold SearchIndex.searchableText in Ht.
      rewrite (DocumentFacts.tokenize_token _ _ Ht). now left.
    + now apply JsMapFacts.get_Some_In.
    + apply JsStringFacts.includes_refl.
Qed.

Lemma registered_under_synthetic_id_is_found_witness :
  In "helper" (JsString.split_ws (SearchIndex.searchableText (metadata_named "Helper")))
  /\ In (metadata_named "Helper")
        (narrowed (addAgent empty "Helper-latest" (metadata_named "Helper"))
           {| query := Some "helper"; filters := None; sort := None;
              limit := None; offset := None |}).
Proof.
  split; [simpl; auto|].
  exact (registered_under_synthetic_id_is_found empty (metadata_named "Helper")
           "helper" (or_introl eq_refl) ltac:(discriminate)).
Defined.

(** *** Orders *)

Lemma sort_all_before {A : Type} (before : A -> A -> bool) (l : list A) :
  (forall a b, before a b = true) -> JsSort.sort before l = l.
Proof.
  intros H. induction l as [|x l IH]; simpl; auto.
  rewrite IH. destruct l; simpl; auto. now rewrite H.
Qed.

Lemma sorted_weaken {A : Type} (R S : A -> A -> Prop) (l : list A) :
  (forall a b, R a b -> S a b) -> StronglySorted R l -> StronglySorted S l.
Proof.
  intros H. induction 1 as [|a l Hs IH Hf]; constructor; auto.
  eapply Forall_impl; [|exact Hf]. auto.
Qed.

(** [sortResults] returns the agents it was given, each as often as
    before, and in the order given when the field is [relevance], for
    which the comparator has no case. *)
Theorem sortResults_permutes (localeCompare : string -> string -> Z)
        (agents : list AgentMetadata) (sort : SortOption) :
  Permutation (sortResults localeCompare agents sort) agents
  /\ List.length (sortResults localeCompare agents sort) = List.length agents
  /\ (field sort = SortField.relevance ->
      sortResults localeCompare agents sort = agents).
Proof.
  split; [apply JsSortFacts.sort_perm|].
  split; [apply AgentSearchEngineFacts.length_sortResults|].
  intros Hf. unfold sortResults. apply sort_all_before.
  intros a b. unfold compareFn, comparison. rewrite Hf.
  now destruct (order sort).
Qed.

(** When [localeCompare] is an order (its sign flips when its arguments
    are exchanged, and it is transitive), the sorted agents are in the order
    of the comparator: ascending for [asc], descending otherwise. *)
Theorem sortResults_sorted (localeCompare : string -> string -> Z)
        (agents : list AgentMetadata) (sort : SortOption) :
  (forall a b, Z.sgn (localeCompare a b) = (- Z.sgn (localeCompare b a))%Z) ->
  (forall a b c, (localeCompare a b <= 0)%Z -> (localeCompare b c <= 0)%Z ->
                 (localeCompare a c <= 0)%Z) ->
  StronglySorted (fun a b => (compareFn localeCompare sort a b <= 0)%Z)
                 (sortResults localeCompare agents sort)
  /\ (order sort = asc ->
      StronglySorted
        (fun a b => (comparison localeCompare (field sort) a b <= 0)%Z)
        (sortResults localeCompare agents sort))
  /\ (order sort = desc ->
      StronglySorted
        (fun a b => (0 <= comparison localeCompare (field sort) a b)%Z)
        (sortResults localeCompare agents sort)).
Proof.
  intros Hanti Htrans.
  assert (Hge : forall a b c, (0 <= localeCompare a b)%Z ->
                              (0 <= localeCompare b c)%Z ->
                              (0 <= localeCompare a c)%Z).
  { intros a b c Hab Hbc.
    assert (Hba : (localeCompare b a <= 0)%Z)
      by (pose proof (Hanti a b); lia).
    assert (Hcb : (localeCompare c b <= 0)%Z)
      by (pose proof (Hanti b c); lia).
    pose proof (Htrans c b a Hcb Hba). pose proof (Hanti a c). lia. }
  assert (Hsorted :
            StronglySorted
              (fun a b => (compareFn localeCompare sort a b <=? 0)%Z = true)
              (sortResults localeCompare agents sort)).
  { unfold sortResults. apply JsSortFacts.sort_sorted.
    - intros a b. rewrite !Z.leb_le. unfold compareFn, comparison.
      destruct (order sort), (field sort);
        try (pose proof (Hanti (name a) (name b)));
        try (pose proof (Hanti (or_empty_string (created a))
                               (or_empty_string (created b))));
        try (pose proof (Hanti (or_empty_string (updated a))
                               (or_empty_string (updated b))));
        try (pose proof (Hanti (or_empty_string (version a))
                               (or_empty_string (version b))));
        lia.
    - intros a b c. rewrite !Z.leb_le. unfold compareFn, comparison.
      destruct (order sort), (field sort); intros Hab Hbc; try lia;
        try (eapply Htrans; eassumption);
        match goal with
        | |- (- localeCompare ?x ?z <= 0)%Z =>
            assert (0 <= localeCompare x z)%Z; [|lia];
            eapply Hge; [instantiate (1 := _)|]
        end; match goal with
             | H : (- localeCompare ?x ?y <= 0)%Z |- (0 <= localeCompare ?x _)%Z =>
                 assert (Hxy : (0 <= localeCompare x y)%Z) by lia; exact Hxy
             | H : (- localeCompare ?y ?z <= 0)%Z |- (0 <= localeCompare _ ?z)%Z =>
                 assert (Hyz : (0 <= localeCompare y z)%Z) by lia; exact Hyz
             end. }
  assert (Hz : StronglySorted
                 (fun a b => (compareFn localeCompare sort a b <= 0)%Z)
                 (sortResults localeCompare agents sort)).
  { eapply sorted_weaken; [|exact Hsorted].
    intros a b. apply Z.leb_le. }
  split; [exact Hz|]. split; intros Ho.
  - eapply sorted_weaken; [|exact Hz].
    intros a b. unfold compareFn. now rewrite Ho.
  - eapply sorted_weaken; [|exact Hz].
    intros a b. unfold compareFn. rewrite Ho. lia.
Qed.

Lemma code_unit_order_sgn a b :
  Z.sgn (Samples.code_unit_order a b) = (- Z.sgn (Samples.code_unit_order b a))%Z.
Proof.
  unfold Samples.code_unit_order. rewrite (String.compare_antisym a b).
  now destruct (String.compare b a).
Qed.

Lemma code_unit_order_trans a b c :
  (Samples.code_unit_order a b <= 0)%Z -> (Samples.code_unit_order b c <= 0)%Z ->
  (Samples.code_unit_order a c <= 0)%Z.
Proof.
  unfold Samples.code_unit_order. intros Hab Hbc.
  pose proof (HelpersFacts.compare_not_Gt_trans a b c) as H.
  destruct (String.compare a b), (String.compare b c), (String.compare a c);
    try lia; exfalso; apply H; congruence.
Qed.

Lemma sortResults_sorted_witness :
  let by_name := {| field := SortField.name; order := desc |} in
  sortResults Samples.code_unit_order [Samples.alpha; Samples.beta] by_name
  = [Samples.beta; Samples.alpha]
  /\ StronglySorted
       (fun a b => (0 <= comparison Samples.code_unit_order SortField.name a b)%Z)
       (sortResults Samples.code_unit_order [Samples.alpha; Samples.beta] by_name).
Proof.
  cbv zeta. split; [reflexivity|].
  exact (proj2 (proj2 (sortResults_sorted Samples.code_unit_order
                         [Samples.alpha; Samples.beta]
                         {| field := SortField.name; order := desc |}
                         code_unit_order_sgn code_unit_order_trans))
               eq_refl).
Defined.

(** *** Filters *)

Lemma misses_any_of_false wanted have :
  misses_any_of wanted have = false
  <-> forall w ws, wanted = Some (w :: ws) ->
                   exists x, In x (w :: ws) /\ In x (or_empty have).
Proof.
  unfold misses_any_of. destruct wanted as [[|w ws]|].
  - split; [intros _ w ws; discriminate | reflexivity].
  - rewrite negb_false_iff, existsb_exists. split.
    + intros (x & Hx & Hh) w' ws' [= <- <-]. exists x. split; auto.
      apply existsb_exists in Hh. destruct Hh as (y & Hy & E).
      apply String.eqb_eq in E. now subst.
    + intros H. destruct (H w ws eq_refl) as (x & Hx & Hh).
      exists x. split; auto. apply existsb_exists. exists x.
      split; auto. apply String.eqb_refl.
  - split; [intros _ w ws; discriminate | reflexivity].
Qed.

Lemma option_eqb_Some {A : Type} (eqb : A -> A -> bool) (x : option A) (y : A) :
  (forall a b, eqb a b = true <-> a = b) ->
  option_eqb eqb x (Some y) = true <-> x = Some y.
Proof.
  intros H. destruct x as [a|]; simpl.
  - rewrite H. split; congruence.
  - split; discriminate.
Qed.

Lemma Difficulty_eqb_eq a b : Difficulty_eqb a b = true <-> a = b.
Proof. destruct a, b; simpl; split; congruence. Qed.

Lemma Bool_eqb_eq a b : Bool.eqb a b = true <-> a = b.
Proof. destruct a, b; simpl; split; congruence. Qed.

(** [applyFilters] keeps an agent exactly when it passes every filter that
    is set: for a non-empty array of capabilities, languages or frameworks
    the agent has one of the wanted values; for a non-empty category, a
    difficulty or an internet requirement the agent has that very value.
    An empty array and an empty category filter nothing. *)
Theorem applyFilters_keeps (agents : list AgentMetadata)
        (filters : SearchFilters.t) (a : AgentMetadata) :
  In a (applyFilters agents filters)
  <-> In a agents
      /\ (forall w ws, SearchFilters.capabilities filters = Some (w :: ws) ->
            exists x, In x (w :: ws) /\ In x (or_empty (capabilities a)))
      /\ (forall w ws, SearchFilters.coding_languages filters = Some (w :: ws) ->
            exists x, In x (w :: ws) /\ In x (or_empty (coding_languages a)))
      /\ (forall w ws, SearchFilters.frameworks filters = Some (w :: ws) ->
            exists x, In x (w :: ws) /\ In x (or_empty (frameworks a)))
      /\ (forall c, SearchFilters.category filters = Some c -> c <> EmptyString ->
            category a = Some c)
      /\ (forall d, SearchFilters.difficulty filters = Some d ->
            difficulty a = Some d)
      /\ (forall b, SearchFilters.requires_internet filters = Some b ->
            requires_internet a = Some b).
Proof.
  unfold applyFilters. rewrite filter_In.
  rewrite <- !misses_any_of_false.
  assert (Hc : (match SearchFilters.category filters with
                | Some c => JsString.truthy c
                            && negb (option_eqb String.eqb (category a) (Some c))
                | None => false
                end) = false
               <-> forall c, SearchFilters.category filters = Some c ->
                             c <> EmptyString -> category a = Some c).
  { destruct (SearchFilters.category filters) as [c|].
    - unfold JsString.truthy.
      destruct (String.eqb_spec c EmptyString) as [->|Hne]; simpl.
      + split; auto. intros _ c [= <-] H. now elim H.
      + rewrite negb_false_iff, (option_eqb_Some _ _ _ String.eqb_eq). split.
        * intros H c' [= <-] _. exact H.
        * intros H. now apply H.
    - split; auto. intros _ c; discriminate. }
  assert (Hd : (match SearchFilters.difficulty filters with
                | Some d => negb (option_eqb Difficulty_eqb (difficulty a) (Some d))
                | None => false
                end) = false
               <-> forall d, SearchFilters.difficulty filters = Some d ->
                             difficulty a = Some d).
  { destruct (SearchFilters.difficulty filters) as [d|].
    - rewrite negb_false_iff, (option_eqb_Some _ _ _ Difficulty_eqb_eq). split.
      + intros H d' [= <-]. exact H.
      + intros H. now apply H.
    - split; auto. intros _ d; discriminate. }
  assert (Hr : (match SearchFilters.requires_internet filters with
                | Some b => negb (option_eqb Bool.eqb (requires_internet a) (Some b))
                | None => false
                end) = false
               <-> forall b, SearchFilters.requires_internet filters = Some b ->
                             requires_internet a = Some b).
  { destruct (SearchFilters.requires_internet filters) as [b|].
    - rewrite negb_false_iff, (option_eqb_Some _ _ _ Bool_eqb_eq). split.
      + intros H b' [= <-]. exact H.
      + intros H. now apply H.
    - split; auto. intros _ b; discriminate. }
  rewrite <- Hc, <- Hd, <- Hr. unfold passes.
  destruct (misses_any_of (SearchFilters.capabilities filters) (capabilities a));
    [intuition discriminate|].
  destruct (misses_any_of (SearchFilters.coding_languages filters)
                          (coding_languages a)); [intuition discriminate|].
  destruct (misses_any_of (SearchFilters.frameworks filters) (frameworks a));
    [intuition discriminate|].
  destruct (match SearchFilters.category filters with
            | Some c => _ | None => _ end); [intuition discriminate|].
  destruct (match SearchFilters.difficulty filters with
            | Some d => _ | None => _ end); [intuition discriminate|].
  destruct (match SearchFilters.requires_internet filters with
            | Some b => _ | None => _ end); intuition discriminate.
Qed.

(** *** The finders *)

(** The finders return what [search] matches with the one filter set:
    [findByCapability] and [findByLanguage] for every value,
    [findByCategory] for a non-empty category; for the empty category the
    filter of [search] lets every agent pass, and the finder returns only
    the agents whose category is the empty string. *)
Theorem finders_agree_with_filters (localeCompare : string -> string -> Z)
        (e : AgentSearchEngine.t) (x : string) :
  findByCapability e x = matching localeCompare e (only_capability x)
  /\ findByLanguage e x = matching localeCompare e (only_language x)
  /\ (x <> EmptyString ->
      findByCategory e x = matching localeCompare e (only_category x))
  /\ matching localeCompare e (only_category EmptyString)
     = JsMap.values (agents e)
  /\ findByCategory e EmptyString
     = filter (fun a => option_eqb String.eqb (category a) (Some EmptyString))
              (JsMap.values (agents e)).
Proof.
  unfold matching, narrowed, applyFilters; cbn [query filters sort only_capability
    only_language only_category].
  split; [|split; [|split; [|split]]].
  - unfold findByCapability. apply filter_ext. intros a.
    unfold passes, misses_any_of. cbn.
    rewrite orb_false_r. now destruct (existsb _ _).
  - unfold findByLanguage. apply filter_ext. intros a.
    unfold passes, misses_any_of. cbn.
    rewrite orb_false_r. now destruct (existsb _ _).
  - intros Hne. unfold findByCategory. apply filter_ext. intros a.
    unfold passes, misses_any_of. cbn.
    replace (JsString.truthy x) with true
      by (symmetry; unfold JsString.truthy;
          now apply negb_true_iff, String.eqb_neq).
    cbn. now destruct (option_eqb _ _ _).
  - induction (JsMap.values (agents e)) as [|a l IH]; cbn; auto.
    now rewrite IH at 1.
  - reflexivity.
Qed.

(** *** Recommendations *)

Lemma recommendation_scores_acc useCase l : forall acc,
  fold_left
    (fun scores agent =>
       let score := recommendation_score agent useCase in
       if (0 <? score)%Z then (scores ++ [(agent, score)])%list else scores)
    l acc
  = (acc ++ map (fun a => (a, recommendation_score a useCase))
                (filter (fun a => (0 <? recommendation_score a useCase)%Z) l))%list.
Proof.
  induction l as [|a l IH]; intros acc; cbn [fold_left filter].
  - cbn. now rewrite app_nil_r.
  - rewrite IH. cbv zeta.
    destruct (0 <? recommendation_score a useCase)%Z; auto.
    cbn [map]. now rewrite <- app_assoc.
Qed.

Lemma recommendation_scores_eq e useCase :
  recommendation_scores e useCase
  = map (fun a => (a, recommendation_score a useCase))
        (filter (fun a => (0 <? recommendation_score a useCase)%Z)
                (JsMap.values (agents e))).
Proof. unfold recommendation_scores. now rewrite recommendation_scores_acc. Qed.

Lemma recommendation_score_range a useCase :
  (0 <= recommendation_score a useCase <= 20)%Z.
Proof.
  unfold recommendation_score.
  destruct (some_includes (use_cases a) useCase),
    (some_includes (capabilities a) useCase),
    (some_includes (tags a) useCase);
    destruct (description a) as [d|];
    try destruct (JsString.includes _ _); lia.
Qed.

Lemma sorted_firstn {A : Type} (R : A -> A -> Prop) (n : nat) : forall l,
  StronglySorted R l -> StronglySorted R (firstn n l).
Proof.
  induction n as [|n IH]; intros l Hs; [constructor|].
  destruct l as [|a l]; [constructor|]. cbn [firstn].
  inversion Hs as [|? ? Hs' Hf]; subst. constructor; auto.
  rewrite Forall_forall in *. intros x Hx. apply Hf.
  now apply QueryFacts.In_firstn in Hx.
Qed.

Lemma sorted_skipn {A : Type} (R : A -> A -> Prop) (n : nat) : forall l,
  StronglySorted R l -> StronglySorted R (skipn n l).
Proof.
  induction n as [|n IH]; intros l Hs; [exact Hs|].
  destruct l as [|a l]; [constructor|]. cbn [skipn].
  inversion Hs; subst. auto.
Qed.

Lemma sorted_map {A B : Type} (f : A -> B) (R : B -> B -> Prop) (l : list A) :
  StronglySorted (fun a b => R (f a) (f b)) l -> StronglySorted R (map f l).
Proof.
  induction 1 as [|a l Hs IH Hf]; cbn; constructor; auto.
  rewrite Forall_forall in *. intros y Hy.
  apply in_map_iff in Hy. destruct Hy as (x & <- & Hx). auto.
Qed.

Lemma sorted_restrict {A : Type} (R S : A -> A -> Prop) (l : list A) :
  (forall a b, In a l -> In b l -> R a b -> S a b) ->
  StronglySorted R l -> StronglySorted S l.
Proof.
  intros H Hs. induction Hs as [|a l Hs IH Hf]; constructor.
  - apply IH. intros x y Hx Hy. apply H; now right.
  - rewrite Forall_forall in *. intros y Hy.
    apply H; [now left | now right | auto].
Qed.

(** The ranked entries of [getRecommendations] before the slice. *)
Lemma ranked_entries e useCase :
  let ranked :=
    JsSort.sort (fun a b : AgentMetadata * Z => (snd b - snd a <=? 0)%Z)
                (recommendation_scores e useCase) in
  (forall p, In p ranked <->
             In (fst p) (JsMap.values (agents e))
             /\ (0 < recommendation_score (fst p) useCase)%Z
             /\ snd p = recommendation_score (fst p) useCase)
  /\ StronglySorted
       (fun a b : AgentMetadata * Z =>
          (recommendation_score (fst b) useCase
           <= recommendation_score (fst a) useCase)%Z) ranked.
Proof.
  cbv zeta.
  set (cmp := fun a b : AgentMetadata * Z => (snd b - snd a <=? 0)%Z).
  assert (Hin : forall p, In p (JsSort.sort cmp (recommendation_scores e useCase)) <->
             In (fst p) (JsMap.values (agents e))
             /\ (0 < recommendation_score (fst p) useCase)%Z
             /\ snd p = recommendation_score (fst p) useCase).
  { intros p. split.
    - intros H. apply (Permutation_in _ (JsSortFacts.sort_perm cmp _)) in H.
      rewrite recommendation_scores_eq in H. apply in_map_iff in H.
      destruct H as (a & <- & Ha). apply filter_In in Ha.
      destruct Ha as [Ha Hs]. apply Z.ltb_lt in Hs. cbn. auto.
    - intros (Ha & Hs & Hp).
      apply (Permutation_in _ (Permutation_sym (JsSortFacts.sort_perm cmp _))).
      rewrite recommendation_scores_eq. apply in_map_iff. exists (fst p).
      split; [destruct p; cbn in *; congruence|].
      apply filter_In. split; auto. now apply Z.ltb_lt. }
  split; [exact Hin|].
  eapply sorted_restrict;
    [|apply (JsSortFacts.sort_sorted cmp)].
  - intros a b Ha Hb. apply Hin in Ha, Hb.
    destruct Ha as (_ & _ & <-), Hb as (_ & _ & <-).
    unfold cmp. rewrite Z.leb_le. lia.
  - intros a b. unfold cmp. rewrite !Z.leb_le. lia.
  - intros a b c. unfold cmp. rewrite !Z.leb_le. lia.
Qed.

(** [getRecommendations] returns registered agents whose score for the use
    case is positive (it is at most 20), the better score first, and never
    more than the limit when that is not negative: at most 5 when no limit
    is given, and none for the limit 0. *)
Theorem getRecommendations_ranked (e : AgentSearchEngine.t) (useCase : string)
        (limit : option Z) :
  let r := getRecommendations e useCase limit in
  (forall a, In a r ->
             In a (JsMap.values (agents e))
             /\ (0 < recommendation_score a useCase <= 20)%Z)
  /\ StronglySorted
       (fun a b => (recommendation_score b useCase
                    <= recommendation_score a useCase)%Z) r
  /\ (List.length r <= List.length (agents e))%nat
  /\ (forall l, limit = Some l -> (0 <= l)%Z -> (Z.of_nat (List.length r) <= l)%Z)
  /\ (limit = None -> (List.length r <= 5)%nat)
  /\ (limit = Some 0%Z -> r = []).
Proof.
  cbv zeta. unfold getRecommendations.
  destruct (ranked_entries e useCase) as [Hin Hs]. cbv zeta in Hin, Hs.
  set (ranked := JsSort.sort _ (recommendation_scores e useCase)) in *.
  set (lim := match limit with Some l => l | None => 5%Z end).
  assert (Hlen : (List.length ranked <= List.length (agents e))%nat).
  { subst ranked.
    rewrite (Permutation_length (JsSortFacts.sort_perm _ _)).
    rewrite recommendation_scores_eq, length_map.
    etransitivity; [apply QueryFacts.length_filter_le|].
    unfold JsMap.values. now rewrite length_map. }
  assert (Hb : forall l, (0 <= l)%Z ->
             (Z.of_nat (List.length (map fst (js_slice ranked 0 l))) <= l)%Z).
  { intros l Hl. rewrite length_map.
    pose proof (QueryFacts.length_js_slice ranked 0 l) as H.
    rewrite Z.add_0_l in H. lia. }
  split; [|split; [|split; [|split; [|split]]]].
  - intros a Ha. apply in_map_iff in Ha. destruct Ha as (p & <- & Hp).
    apply QueryFacts.In_js_slice, Hin in Hp. destruct Hp as (H1 & H2 & _).
    pose proof (recommendation_score_range (fst p) useCase). split; auto. lia.
  - apply sorted_map. unfold js_slice.
    now apply sorted_firstn, sorted_skipn.
  - rewrite length_map. etransitivity; [|exact Hlen].
    unfold js_slice. rewrite length_firstn, length_skipn. lia.
  - intros l -> Hl. subst lim. now apply Hb.
  - intros ->. subst lim. pose proof (Hb 5%Z ltac:(lia)). lia.
  - intros ->. subst lim. pose proof (Hb 0%Z ltac:(lia)) as H.
    destruct (map fst (js_slice ranked 0 0)); auto. cbn [List.length] in H. lia.
Qed.

(** With a limit that is not below the number of registered agents,
    every registered agent with a positive score is recommended. *)
Theorem getRecommendations_complete (e : AgentSearchEngine.t)
        (useCase : string) (l : Z) (a : AgentMetadata) :
  In a (JsMap.values (agents e)) ->
  (0 < recommendation_score a useCase)%Z ->
  (Z.of_nat (List.length (agents e)) <= l)%Z ->
  In a (getRecommendations e useCase (Some l)).
Proof.
  intros Ha Hs Hl. unfold getRecommendations.
  destruct (ranked_entries e useCase) as [Hin _]. cbv zeta in Hin.
  set (ranked := JsSort.sort _ (recommendation_scores e useCase)) in *.
  assert (Hlen : (List.length ranked <= List.length (agents e))%nat).
  { subst ranked.
    rewrite (Permutation_length (JsSortFacts.sort_perm _ _)).
    rewrite recommendation_scores_eq, length_map.
    etransitivity; [apply QueryFacts.length_filter_le|].
    unfold JsMap.values. now rewrite length_map. }
  assert (Hall : js_slice ranked 0 l = ranked).
  { unfold js_slice. destruct (Z.ltb_spec 0 0); [lia|].
    destruct (Z.ltb_spec l 0); [lia|].
    rewrite (Z.min_l 0) by lia. rewrite (Z.min_r l) by lia.
    cbn [Z.to_nat skipn]. rewrite Z.sub_0_r, Nat2Z.id. apply firstn_all. }
  rewrite Hall. apply in_map_iff.
  exists (a, recommendation_score a useCase). split; auto.
  apply Hin. cbn. auto.
Qed.

Lemma getRecommendations_complete_witness :
  let e := addAgent (addAgent empty "a" Samples.alpha) "r" Samples.reviewer in
  getRecommendations e "REVIEW" (Some 2%Z) = [Samples.reviewer]
  /\ In Samples.reviewer (getRecommendations e "REVIEW" (Some 2%Z)).
Proof.
  cbv zeta. split; [reflexivity|].
  apply (getRecommendations_complete
           (addAgent (addAgent empty "a" Samples.alpha) "r" Samples.reviewer)
           "REVIEW" 2%Z Samples.reviewer).
  - simpl. auto.
  - reflexivity.
  - vm_compute. discriminate.
Defined.

End EngineFacts.

(** ** File names *)

Module FilenameFacts.

Import JsString Helpers.

Lemma length_app (a b : string) :
  String.length (a ++ b) = (String.length a + String.length b)%nat.
Proof. induction a as [|c a IH]; simpl; auto. Qed.

Lemma app_assoc_s (a b c : string) : (a ++ b) ++ c = a ++ b ++ c.
Proof. induction a as [|x a IH]; simpl; auto. now rewrite IH. Qed.

Lemma every_app p (a b : string) :
  every p (a ++ b) = every p a && every p b.
Proof.
  induction a as [|c a IH]; simpl; auto. now rewrite IH, andb_assoc.
Qed.

(** *** Endings *)

Lemma strip_suffix_app suffix a : strip_suffix suffix (a ++ suffix) = Some a.
Proof.
  induction a as [|c a IH].
  - cbn [append]. destruct suffix; cbn [strip_suffix];
      now rewrite String.eqb_refl.
  - cbn [append strip_suffix]. rewrite IH.
    destruct (String.eqb_spec (String c (a ++ suffix)) suffix) as [E|_]; auto.
    apply (f_equal String.length) in E. simpl in E. rewrite length_app in E. lia.
Qed.

Lemma strip_suffix_Some suffix s : forall b,
  strip_suffix suffix s = Some b -> s = b ++ suffix.
Proof.
  induction s as [|c s IH]; intros b H.
  - cbn [strip_suffix] in H.
    destruct (String.eqb_spec EmptyString suffix) as [E|_]; [|discriminate].
    injection H as <-. exact E.
  - cbn [strip_suffix] in H.
    destruct (String.eqb_spec (String c s) suffix) as [E|_].
    + injection H as <-. exact E.
    + destruct (strip_suffix suffix s) as [r|]; [|discriminate].
      injection H as <-. simpl. now rewrite <- (IH r).
Qed.

(** Two endings of one string end with the same character. *)
Lemma same_end (b x s1 s2 : string) :
  b ++ s1 = x ++ s2 -> s1 <> EmptyString -> s2 <> EmptyString ->
  get (String.length s1 - 1) s1 = get (String.length s2 - 1) s2.
Proof.
  intros H H1 H2.
  rewrite (append_correct2 b s1), (append_correct2 x s2), H. f_equal.
  apply (f_equal String.length) in H. rewrite !length_app in H.
  destruct s1; [congruence|]. destruct s2; [congruence|]. simpl in *. lia.
Qed.

Lemma strip_extension_agent (x : string) : strip_extension (x ++ ".agent") = x.
Proof.
  unfold strip_extension.
  destruct (strip_suffix ".agent.md" (x ++ ".agent")) as [b|] eqn:E.
  - apply strip_suffix_Some in E. symmetry in E.
    apply same_end in E; [discriminate E | discriminate | discriminate].
  - now rewrite strip_suffix_app.
Qed.

(** *** Versions *)

Lemma skip_digits_chars s :
  every version_char (skip_digits s) = true -> every version_char s = true.
Proof.
  induction s as [|c s IH]; simpl; auto.
  destruct (Semver.is_digit c) eqn:E; auto.
  intros H. unfold version_char at 1. rewrite E. simpl. auto.
Qed.

Lemma digits_chars s r :
  digits s = Some r -> every version_char r = true ->
  every version_char s = true.
Proof.
  destruct s as [|c s]; simpl; [discriminate|].
  destruct (Semver.is_digit c) eqn:E; [|discriminate].
  intros [= <-] H. unfold version_char at 1. rewrite E. simpl.
  now apply skip_digits_chars.
Qed.

Lemma dot_chars s r :
  dot s = Some r -> every version_char r = true ->
  every version_char s = true.
Proof.
  destruct s as [|c s]; simpl; [discriminate|].
  destruct (Ascii.eqb c ".") eqn:E; [|discriminate].
  intros [= <-] H. unfold version_char at 1. rewrite E, orb_true_r. auto.
Qed.

(** A version has digits and dots only. *)
Lemma is_version_chars s : is_version s = true -> every version_char s = true.
Proof.
  unfold is_version.
  destruct (digits s) as [r1|] eqn:E1; [|discriminate].
  destruct (dot r1) as [r2|] eqn:E2; [|discriminate].
  destruct (digits r2) as [r3|] eqn:E3; [|discriminate].
  destruct (dot r3) as [r4|] eqn:E4; [|discriminate].
  destruct (digits r4) as [[|c r5]|] eqn:E5; try discriminate.
  intros _.
  eapply digits_chars; eauto. eapply dot_chars; eauto.
  eapply digits_chars; eauto. eapply dot_chars; eauto.
  eapply digits_chars; eauto.
Qed.

Lemma skip_digits_every p s :
  every p s = true -> every p (skip_digits s) = true.
Proof.
  induction s as [|c s IH]; simpl; auto.
  destruct (Semver.is_digit c); simpl; auto.
  intros H. apply andb_true_iff in H. tauto.
Qed.

(** A version has a dot. *)
Lemma is_version_dot p s :
  is_version s = true -> every p s = true -> p "."%char = true.
Proof.
  unfold is_version.
  destruct (digits s) as [r1|] eqn:E1; [|discriminate].
  destruct (dot r1) as [r2|] eqn:E2; [|discriminate].
  intros _ H.
  assert (H1 : every p r1 = true).
  { destruct s as [|c s]; simpl in E1; [discriminate|].
    destruct (Semver.is_digit c); [|discriminate]. injection E1 as <-.
    simpl in H. apply andb_true_iff in H. now apply skip_digits_every. }
  destruct r1 as [|c r1]; simpl in E2; [discriminate|].
  destruct (Ascii.eqb_spec c ".") as [->|_]; [|discriminate].
  simpl in H1. apply andb_true_iff in H1. tauto.
Qed.

Lemma is_version_not_empty s : is_version s = true -> truthy s = true.
Proof. destruct s; [discriminate|reflexivity]. Qed.

Lemma no_version_with_hyphen y z : is_version (y ++ String "-" z) = false.
Proof.
  destruct (is_version _) eqn:E; auto.
  apply is_version_chars in E. rewrite every_app in E. simpl in E.
  apply andb_true_iff in E. destruct E as [_ E]. discriminate.
Qed.

(** What a match of the version pattern says of the text. *)
Lemma version_here_Some s v :
  version_here s = Some v ->
  is_version v = true
  /\ (s = String "-" v \/ s = String "-" (String "v" v)).
Proof.
  unfold version_here. destruct s as [|c r]; [discriminate|].
  destruct (Ascii.eqb_spec c "-") as [->|_]; [|discriminate].
  cbv zeta. destruct r as [|c' r'].
  - discriminate.
  - destruct (Ascii.eqb_spec c' "v") as [->|_].
    + destruct (is_version r') eqn:E; [|discriminate].
      intros [= <-]. auto.
    + destruct (is_version (String c' r')) eqn:E; [|discriminate].
      intros [= <-]. auto.
Qed.

Lemma version_here_inside c a z :
  version_here (String c (a ++ String "-" z)) = None.
Proof.
  destruct (version_here _) as [v|] eqn:E; auto.
  apply version_here_Some in E. destruct E as [Hv [E|E]].
  - injection E as _ E. rewrite <- E, no_version_with_hyphen in Hv.
    discriminate.
  - injection E as _ E. destruct a as [|c' a]; [discriminate|].
    injection E as _ E. rewrite <- E, no_version_with_hyphen in Hv.
    discriminate.
Qed.

Lemma versionMatch_app a v :
  is_version v = true -> versionMatch (a ++ String "-" (String "v" v)) = Some v.
Proof.
  intros Hv. induction a as [|c a IH].
  - cbn. now rewrite Hv.
  - cbn [append versionMatch]. now rewrite version_here_inside.
Qed.

Lemma versionMatch_Some s v :
  versionMatch s = Some v ->
  is_version v = true
  /\ exists a, s = a ++ String "-" v \/ s = a ++ String "-" (String "v" v).
Proof.
  induction s as [|c s IH]; cbn [versionMatch].
  - cbn. discriminate.
  - destruct (version_here (String c s)) as [v'|] eqn:E.
    + intros [= ->]. apply version_here_Some in E. destruct E as [Hv E].
      split; auto. exists EmptyString. exact E.
    + intros H. destruct (IH H) as [Hv [a Ha]]. split; auto.
      exists (String c a). cbn [append]. destruct Ha as [->| ->]; auto.
Qed.

Lemma versionMatch_None p s :
  p "."%char = false -> every p s = true -> versionMatch s = None.
Proof.
  intros Hp. induction s as [|c s IH]; intros H; cbn [versionMatch].
  - reflexivity.
  - destruct (version_here (String c s)) as [v|] eqn:E.
    + apply version_here_Some in E. destruct E as [Hv E].
      assert (Hev : every p v = true).
      { destruct E as [E|E]; rewrite E in H; simpl in H;
          repeat (apply andb_true_iff in H; destruct H as [_ H]); exact H. }
      rewrite (is_version_dot p v Hv Hev) in Hp. discriminate.
    + apply IH. simpl in H. apply andb_true_iff in H. tauto.
Qed.

(** *** The last hyphen *)

Lemma lastIndexOf_absent s c :
  every (fun x => negb (Ascii.eqb x c)) s = true -> lastIndexOf s c = (-1)%Z.
Proof.
  induction s as [|x s IH]; simpl; auto.
  intros H. apply andb_true_iff in H. destruct H as [Hx Hs].
  rewrite (IH Hs). simpl. apply negb_true_iff in Hx. now rewrite Hx.
Qed.

Lemma lastIndexOf_app a b c :
  every (fun x => negb (Ascii.eqb x c)) b = true ->
  lastIndexOf (a ++ String c b) c = Z.of_nat (String.length a).
Proof.
  intros Hb. induction a as [|x a IH].
  - cbn [append lastIndexOf String.length]. rewrite (lastIndexOf_absent _ _ Hb).
    simpl. now rewrite Ascii.eqb_refl.
  - cbn [append lastIndexOf String.length]. rewrite IH.
    destruct (Z.leb_spec 0 (Z.of_nat (String.length a))); lia.
Qed.

Lemma substring_to_app a b :
  substring_to (a ++ b) (Z.of_nat (String.length a)) = a.
Proof.
  unfold substring_to. rewrite Nat2Z.id.
  induction a as [|x a IH]; simpl.
  - now destruct b.
  - now rewrite IH.
Qed.

Lemma version_chars_no_hyphen v :
  every version_char v = true ->
  every (fun x => negb (Ascii.eqb x "-")) v = true.
Proof.
  induction v as [|c v IH]; simpl; auto.
  intros H. apply andb_true_iff in H. destruct H as [Hc Hv].
  rewrite (IH Hv), andb_true_r. apply negb_true_iff.
  destruct (Ascii.eqb_spec c "-") as [->|_]; [discriminate Hc | reflexivity].
Qed.

(** *** Safe names *)

Lemma replace_runs_chars s : forall in_run,
  every name_char (replace_runs in_run s) = true.
Proof.
  induction s as [|c s IH]; intros in_run; simpl; auto.
  destruct (is_safe c) eqn:E.
  - simpl. unfold name_char at 1. now rewrite E, IH.
  - destruct in_run; simpl; auto.
Qed.

Lemma replace_runs_hyphens s : forall in_run,
  includes (replace_runs in_run s) "--" = false
  /\ (in_run = true -> prefix "-" (replace_runs in_run s) = false).
Proof.
  induction s as [|c s IH]; intros in_run.
  - simpl. auto.
  - cbn [replace_runs]. destruct (is_safe c) eqn:E.
    + destruct (IH false) as [H1 _].
      assert (Hc : c <> "-"%char) by (intros ->; discriminate).
      split.
      * cbn [includes prefix]. destruct (ascii_dec "-" c); [congruence|].
        exact H1.
      * intros _. cbn [prefix]. destruct (ascii_dec "-" c); congruence.
    + destruct (IH true) as [H1 H2]. destruct in_run; [auto|].
      split; [|discriminate].
      cbn [includes prefix]. destruct (ascii_dec "-" "-"); [|congruence].
      change (match replace_runs true s with
              | EmptyString => false
              | String b s2' =>
                  if ascii_dec "-" b then prefix EmptyString s2' else false
              end) with (prefix "-" (replace_runs true s)).
      now rewrite (H2 eq_refl).
Qed.

(** A generated file name parses back to the safe name and the version:
    with a version of three dot-separated numbers the version is
    recovered, and without a version none is found. *)
Theorem generated_filename_parses_back (name v : string) :
  is_version v = true ->
  parseAgentFilename (generateAgentFilename name (Some v))
  = {| AgentFilename.name := safeName name; AgentFilename.version := Some v |}
  /\ parseAgentFilename (generateAgentFilename name None)
     = {| AgentFilename.name := safeName name; AgentFilename.version := None |}.
Proof.
  intros Hv. unfold generateAgentFilename, parseAgentFilename.
  rewrite (is_version_not_empty v Hv). split.
  - replace (safeName name ++ "-v" ++ v ++ ".agent")
      with ((safeName name ++ String "-" (String "v" v)) ++ ".agent")
      by (rewrite app_assoc_s; reflexivity).
    rewrite strip_extension_agent. cbv zeta.
    rewrite (versionMatch_app _ _ Hv). f_equal.
    rewrite lastIndexOf_app.
    + apply substring_to_app.
    + simpl. apply version_chars_no_hyphen. now apply is_version_chars.
  - rewrite strip_extension_agent. cbv zeta.
    now rewrite (versionMatch_None name_char (safeName name) eq_refl
                   (replace_runs_chars _ false)).
Qed.

Lemma generated_filename_parses_back_witness :
  generateAgentFilename "My Agent" (Some "1.2.0") = "my-agent-v1.2.0.agent"
  /\ parseAgentFilename "my-agent-v1.2.0.agent"
     = {| AgentFilename.name := "my-agent";
          AgentFilename.version := Some "1.2.0" |}.
Proof.
  split; [reflexivity|].
  exact (proj1 (generated_filename_parses_back "My Agent" "1.2.0" eq_refl)).
Defined.

(** Every generated file name is recognised by [isAgentFile] from the name
    alone.  The safe name it starts with has lower-case letters, digits
    and hyphens only, and no two hyphens in a row. *)
Theorem generated_filename_is_agent_file
        (name : string) (version content : option string) :
  isAgentFile (generateAgentFilename name version) content = true
  /\ every name_char (safeName name) = true
  /\ includes (safeName name) "--" = false
  /\ exists rest, generateAgentFilename name version = safeName name ++ rest.
Proof.
  split; [|split; [|split]].
  - unfold isAgentFile, endsWith.
    assert (H : exists x, generateAgentFilename name version = x ++ ".agent").
    { unfold generateAgentFilename. destruct version as [v|]; [|eauto].
      destruct (truthy v); [|eauto].
      exists (safeName name ++ "-v" ++ v). now rewrite !app_assoc_s. }
    destruct H as [x ->]. now rewrite strip_suffix_app.
  - apply replace_runs_chars.
  - apply replace_runs_hyphens.
  - unfold generateAgentFilename. destruct version as [v|]; [|eauto].
    destruct (truthy v); eauto.
Qed.

(** Whatever the file name, a version that [parseAgentFilename] finds is
    three dot-separated numbers, and the name and the version are the
    base name cut at its last hyphen, a [v] before the version being
    dropped; when no version is found the name is the whole base name. *)
Theorem parseAgentFilename_splits (filename : string) :
  let r := parseAgentFilename filename in
  let basename := strip_extension filename in
  match AgentFilename.version r with
  | Some v =>
      is_version v = true
      /\ (basename = AgentFilename.name r ++ "-" ++ v
          \/ basename = AgentFilename.name r ++ "-v" ++ v)
  | None => AgentFilename.name r = basename
  end.
Proof.
  cbv zeta. unfold parseAgentFilename.
  destruct (versionMatch (strip_extension filename)) as [v|] eqn:E;
    cbn [AgentFilename.version AgentFilename.name]; auto.
  apply versionMatch_Some in E. destruct E as [Hv [a Ha]].
  split; auto.
  pose proof (version_chars_no_hyphen v (is_version_chars v Hv)) as Hn.
  destruct Ha as [Ha|Ha]; rewrite Ha; rewrite lastIndexOf_app;
    rewrite ?substring_to_app; auto.
Qed.

End FilenameFacts.

(** ** Normalizing twice *)

Module NormalizeFacts.

Import Helpers Normal.

Lemma normalizeMetadata_map (metadata : list (string * value)) :
  NoDup (JsMap.keys metadata) ->
  normalizeMetadata metadata = map normalize_entry metadata.
Proof.
  intros Hnd. unfold normalizeMetadata.
  rewrite (HelpersFacts.fold_normalize_array _ HelpersFacts.arrayFields_NoDup
             _ Hnd).
  set (m1 := map _ metadata).
  assert (Hk : JsMap.keys m1 = JsMap.keys metadata).
  { subst m1. apply HelpersFacts.keys_map. intros [k v]. cbn [fst].
    now destruct (existsb _ _). }
  pose proof (HelpersFacts.fold_trim_entry m1 []) as H. simpl in H. rewrite H.
  - subst m1. rewrite map_map. apply map_ext. intros [k v].
    unfold trimmed, normalize_entry, normalize_value, is_array_field.
    cbn [fst snd]. now destruct (existsb _ _).
  - now rewrite Hk.
Qed.

Lemma dedup_fresh items : forall acc,
  NoDup (acc ++ items) -> fold_left JsSet.add items acc = (acc ++ items)%list.
Proof.
  induction items as [|y items IH]; intros acc H; simpl.
  - now rewrite app_nil_r.
  - assert (Hy : JsSet.has acc y = false).
    { apply JsSetFacts.has_false. apply NoDup_remove_2 in H.
      intros Hin. apply H. apply in_or_app. now left. }
    unfold JsSet.add at 2. rewrite Hy. rewrite IH.
    + now rewrite <- app_assoc.
    + now rewrite <- app_assoc.
Qed.

(** Tidying a tidied array changes nothing. *)
Lemma tidy_twice items :
  sort_default (dedup (sort_default (dedup items)))
  = sort_default (dedup items).
Proof.
  destruct (HelpersFacts.tidy_items items) as (Hnd & Hs & _).
  set (r := sort_default (dedup items)) in *.
  replace (dedup r) with r
    by (symmetry; unfold dedup; now rewrite (dedup_fresh r [])).
  now apply JsSortFilter.sort_sorted_id.
Qed.

Lemma normalize_value_twice key v :
  normalize_value key (normalize_value key v) = normalize_value key v.
Proof.
  unfold normalize_value.
  destruct (is_array_field key), v; cbn [tidy_array trim_string];
    try reflexivity.
  - now rewrite JsStringFacts.trim_idempotent.
  - now rewrite tidy_twice.
  - now rewrite JsStringFacts.trim_idempotent.
Qed.

(** Normalizing metadata that is already normalized changes nothing. *)
Theorem normalizeMetadata_idempotent (metadata : list (string * value)) :
  Ranking.nodupb (JsMap.keys metadata) = true ->
  normalizeMetadata (normalizeMetadata metadata) = normalizeMetadata metadata.
Proof.
  intros Hnd. apply JsSetFacts.nodupb_NoDup in Hnd.
  rewrite (normalizeMetadata_map metadata Hnd).
  rewrite normalizeMetadata_map.
  - rewrite map_map. apply map_ext. intros [k v].
    unfold normalize_entry. cbn [fst snd]. now rewrite normalize_value_twice.
  - now rewrite HelpersFacts.keys_map.
Qed.

Lemma normalizeMetadata_idempotent_witness :
  Ranking.nodupb (JsMap.keys Samples.untidy) = true
  /\ normalizeMetadata (normalizeMetadata Samples.untidy)
     = normalizeMetadata Samples.untidy.
Proof.
  split; [reflexivity|].
  exact (normalizeMetadata_idempotent Samples.untidy eq_refl).
Defined.

End NormalizeFacts.

(** ** Files *)

Module FileFacts.

Import AgentParser Advice Helpers.

Section Facts.

Variable errorMap : Zod.code -> value -> string.
Variable is_email : string -> bool.
Variable is_datetime : string -> bool.
Variable matter : string -> (value * string) + Js.exn.

#[local] Abbreviation safeParse :=
  (AgentParser.safeParse errorMap is_email is_datetime).
#[local] Abbreviation validate :=
  (AgentParser.validate errorMap is_email is_datetime).
#[local] Abbreviation validateAgentFile :=
  (Helpers.validateAgentFile errorMap is_email is_datetime matter).
#[local] Abbreviation parseAndValidate :=
  (AgentParser.parseAndValidate errorMap is_email is_datetime matter).

(** The metadata of a parsed file is truthy. *)
Lemma parse_metadata content filePath f :
  parse matter content filePath = inl f ->
  Js.truthy (AgentFile.metadata f) = true.
Proof.
  unfold parse. destruct (matter content) as [[fm body]|e]; [|discriminate].
  destruct (Js.get fm "agent") as [agent|e]; [|discriminate].
  destruct (Js.truthy agent) eqn:E; simpl; [|discriminate].
  intros [= <-]. exact E.
Qed.

(** On a file whose metadata is truthy the [catch] block of [validate]
    is not reached. *)
Lemma validate_parsed f :
  Js.truthy (AgentFile.metadata f) = true ->
  let found :=
    map to_error (safeParse (VObj [("agent", AgentFile.metadata f)])) in
  validate (file_object f)
  = inl {| ValidationResult.valid := (List.length found =? 0)%nat;
           ValidationResult.errors := found;
           ValidationResult.warnings := warnings_of (AgentFile.metadata f) |}.
Proof.
  intros Ht. cbv zeta. unfold AgentParser.validate, try_catch.
  rewrite AgentParserFacts.validate_try_steps.
  change (Js.get (file_object f) "metadata")
    with (inl (AgentFile.metadata f) : value + Js.exn).
  cbv beta iota zeta. rewrite (AgentParserFacts.get_truthy _ "version" Ht).
  reflexivity.
Qed.

(** [validateAgentFile] resolves for every content.  For a file that
    [parse] accepts, the errors are the issues of the schema and nothing
    else, the result is valid when there is none, and the warnings are the
    advisory ones.  When [parse] throws, the result is not valid, with one
    error on the field [agent] that carries the message, and without
    warnings; a header without an [agent] entry is such a case. *)
Theorem validateAgentFile_reports (content : string) (filePath : option string) :
  (forall f,
     parse matter content filePath = inl f ->
     let found :=
       map to_error (safeParse (VObj [("agent", AgentFile.metadata f)])) in
     validateAgentFile content filePath
     = inl {| ValidationResult.valid := (List.length found =? 0)%nat;
              ValidationResult.errors := found;
              ValidationResult.warnings :=
                warnings_of (AgentFile.metadata f) |})
  /\ (forall e,
        parse matter content filePath = inr e ->
        validateAgentFile content filePath
        = inl {| ValidationResult.valid := false;
                 ValidationResult.errors :=
                   [{| ValidationError.field := "agent";
                       ValidationError.message :=
                         match e with
                         | Js.Error message => message
                         | Js.Thrown => "Failed to parse agent file"
                         end |}];
                 ValidationResult.warnings := [] |})
  /\ (forall frontmatter body agent,
        matter content = inl (frontmatter, body) ->
        Js.get frontmatter "agent" = inl agent ->
        Js.truthy agent = false ->
        validateAgentFile content filePath
        = inl {| ValidationResult.valid := false;
                 ValidationResult.errors :=
                   [{| ValidationError.field := "agent";
                       ValidationError.message :=
                         "Missing required " ++ JsString.dquote ++ "agent"
                           ++ JsString.dquote ++ " field in frontmatter" |}];
                 ValidationResult.warnings := [] |})
  /\ exists r, validateAgentFile content filePath = inl r.
Proof.
  split; [|split; [|split]].
  - intros f Hf. cbv zeta. unfold Helpers.validateAgentFile. rewrite Hf.
    now rewrite (validate_parsed f (parse_metadata _ _ _ Hf)).
  - intros e He. unfold Helpers.validateAgentFile. now rewrite He.
  - intros frontmatter body agent Hm Hg Ht.
    unfold Helpers.validateAgentFile, parse. now rewrite Hm, Hg, Ht.
  - unfold Helpers.validateAgentFile.
    destruct (parse matter content filePath) as [f|e] eqn:Hf; [|eauto].
    rewrite (validate_parsed f (parse_metadata _ _ _ Hf)). eauto.
Qed.

(** [parseAndValidate] throws what [parse] throws and nothing else.  On a
    file that [parse] accepts it returns that file with the validation
    that [validateAgentFile] resolves to, and [parseAgentFile] returns the
    same file; when [parse] throws, [parseAgentFile] returns [null]. *)
Theorem parseAndValidate_agrees (content : string) (filePath : option string) :
  (forall f,
     parse matter content filePath = inl f ->
     exists validation,
       parseAndValidate content filePath = inl (f, validation)
       /\ validateAgentFile content filePath = inl validation
       /\ parseAgentFile matter content filePath = Some f
       /\ AgentFile.rawContent f = content
       /\ AgentFile.filePath f = filePath)
  /\ (forall e,
        parse matter content filePath = inr e ->
        parseAndValidate content filePath = inr e
        /\ parseAgentFile matter content filePath = None).
Proof.
  split.
  - intros f Hf. eexists.
    unfold AgentParser.parseAndValidate, Helpers.validateAgentFile,
      parseAgentFile.
    rewrite Hf, (validate_parsed f (parse_metadata _ _ _ Hf)).
    repeat split.
    + unfold parse in Hf.
      destruct (matter content) as [[fm body]|e]; [|discriminate].
      destruct (Js.get fm "agent") as [agent|e]; [|discriminate].
      destruct (Js.truthy agent); simpl in Hf; [|discriminate].
      now injection Hf as <-.
    + unfold parse in Hf.
      destruct (matter content) as [[fm body]|e]; [|discriminate].
      destruct (Js.get fm "agent") as [agent|e]; [|discriminate].
      destruct (Js.truthy agent); simpl in Hf; [|discriminate].
      now injection Hf as <-.
  - intros e He. unfold AgentParser.parseAndValidate, parseAgentFile.
    now rewrite He.
Qed.

Lemma length_In_nonzero {A : Type} (x : A) (l : list A) :
  In x l -> (List.length l =? 0)%nat = false.
Proof. destruct l; simpl; [tauto|reflexivity]. Qed.

(** An issue of a property is an issue of the object. *)
Lemma In_object_issue shape unknown p props k sk i :
  In (k, sk) shape ->
  In i (Zod.issues errorMap is_email is_datetime sk (p ++ [k])%list
          (Js.lookup props k)) ->
  In i (Zod.issues errorMap is_email is_datetime (Zod.object shape unknown) p
          (VObj props)).
Proof.
  intros Hk Hi. cbn [Zod.issues]. apply in_or_app. left.
  induction shape as [|[k' sk'] shape IH]; [destruct Hk|].
  apply in_or_app. destruct Hk as [[= -> ->]|Hk].
  - left. exact Hi.
  - right. exact (IH Hk).
Qed.

#[local] Abbreviation metadata_shape :=
  (match Schema.AgentMetadataSchema with
   | Zod.object shape _ => shape
   | _ => []
   end).

(** The messages that the schema sets itself.  For metadata that is an
    object, an empty name gives the error [Agent name is required] on the
    field [name], a version that the pattern of semantic versions rejects
    gives the error on the field [version], and a creation date that is
    not a date gives the error on the field [created]; each makes the
    result invalid. *)
Theorem validate_schema_messages (f : AgentFile.t) (props : list (string * value)) :
  AgentFile.metadata f = VObj props ->
  exists r,
    validate (file_object f) = inl r
    /\ (Js.lookup props "name" = VStr EmptyString ->
        In {| ValidationError.field := "name";
              ValidationError.message := "Agent name is required" |}
           (ValidationResult.errors r)
        /\ ValidationResult.valid r = false)
    /\ (forall s,
          Js.lookup props "version" = VStr s ->
          Semver.semverRegex s = false ->
          In {| ValidationError.field := "version";
                ValidationError.message :=
                  "Version must be valid semantic versioning (e.g., 1.0.0, 2.1.0-beta)" |}
             (ValidationResult.errors r)
          /\ ValidationResult.valid r = false)
    /\ (forall s,
          Js.lookup props "created" = VStr s ->
          is_datetime s = false ->
          In {| ValidationError.field := "created";
                ValidationError.message := "Date must be in ISO 8601 format" |}
             (ValidationResult.errors r)
          /\ ValidationResult.valid r = false).
Proof.
  intros Hm.
  assert (Ht : Js.truthy (AgentFile.metadata f) = true) by now rewrite Hm.
  rewrite (validate_parsed f Ht). eexists. split; [reflexivity|].
  cbn [ValidationResult.errors ValidationResult.valid]. rewrite Hm.
  set (found := map to_error _).
  assert (Hin : forall x, In x found -> In x found
                                        /\ (List.length found =? 0)%nat = false)
    by (intros x Hx; split; [exact Hx | exact (length_In_nonzero _ _ Hx)]).
  assert (Hfound :
            forall k sk msg,
              In (k, sk) metadata_shape ->
              In {| Zod.path := ["agent"; k]; Zod.message := msg |}
                 (Zod.issues errorMap is_email is_datetime sk ["agent"; k]
                    (Js.lookup props k)) ->
              In {| ValidationError.field := k; ValidationError.message := msg |}
                 found).
  { intros k sk msg Hk Hi. subst found.
    change {| ValidationError.field := k; ValidationError.message := msg |}
      with (to_error {| Zod.path := ["agent"; k]; Zod.message := msg |}).
    apply in_map.
    unfold AgentParser.safeParse, Zod.safeParse, Schema.AgentFrontmatterSchema.
    apply (In_object_issue _ _ _ _ "agent" Schema.AgentMetadataSchema);
      [now left|].
    exact (In_object_issue metadata_shape Zod.strip ["agent"] props k sk _
             Hk Hi). }
  split; [|split].
  - intros Hn. apply Hin.
    apply (Hfound "name" (Zod.string_min1 "Agent name is required"));
      [now left|].
    cbn [Zod.issues]. rewrite Hn. simpl. auto.
  - intros s Hs Hre. apply Hin.
    apply (Hfound "version" (Zod.optional Schema.SemverSchema));
      [right; now left|].
    unfold Schema.SemverSchema. cbn [Zod.issues]. rewrite Hs, Hre. simpl. auto.
  - intros s Hs Hd. apply Hin.
    apply (Hfound "created" (Zod.optional Schema.ISO8601Schema));
      [do 20 right; now left|].
    unfold Schema.ISO8601Schema. cbn [Zod.issues]. rewrite Hs, Hd. simpl. auto.
Qed.

End Facts.

Lemma validate_schema_messages_witness :
  let f := {| AgentFile.metadata :=
                VObj [("name", VStr "helper"); ("version", VStr "1.0")];
              AgentFile.content := "body"; AgentFile.rawContent := "body";
              AgentFile.filePath := None |} in
  Semver.semverRegex "1.0" = false
  /\ exists r,
       Samples.validate (file_object f) = inl r
       /\ In {| ValidationError.field := "version";
                ValidationError.message :=
                  "Version must be valid semantic versioning (e.g., 1.0.0, 2.1.0-beta)" |}
             (ValidationResult.errors r)
       /\ ValidationResult.valid r = false.
Proof.
  cbv zeta. split; [reflexivity|].
  destruct (validate_schema_messages Samples.code_name Samples.no_format
              Samples.no_format
              {| AgentFile.metadata :=
                   VObj [("name", VStr "helper"); ("version", VStr "1.0")];
                 AgentFile.content := "body"; AgentFile.rawContent := "body";
                 AgentFile.filePath := None |}
              [("name", VStr "helper"); ("version", VStr "1.0")] eq_refl)
    as (r & Hr & _ & Hv & _).
  exists r. split; [exact Hr|]. exact (Hv "1.0" eq_refl eq_refl).
Defined.

End FileFacts.

(** ** Version histories *)

Module HistoryFacts.

Import VersionHistory Grouping.

Section Tabulated.

Context {V : Type}.
Variable f : string -> V.

Lemma get_tabulated ks k :
  JsMap.get (map (fun n => (n, f n)) ks) k
  = if JsSet.has ks k then Some (f k) else None.
Proof.
  unfold JsSet.has. induction ks as [|n ks IH]; simpl; auto.
  rewrite (String.eqb_sym k n).
  destruct (String.eqb_spec n k) as [->|_]; simpl; auto.
Qed.

Lemma set_tabulated_absent ks k v :
  ~ In k ks ->
  JsMap.set (map (fun n => (n, f n)) ks) k v
  = (map (fun n => (n, f n)) ks ++ [(k, v)])%list.
Proof.
  induction ks as [|n ks IH]; simpl; auto.
  intros H. destruct (String.eqb_spec n k) as [->|_]; [tauto|].
  f_equal. apply IH. tauto.
Qed.

Lemma set_tabulated_present ks k v :
  NoDup ks -> In k ks ->
  JsMap.set (map (fun n => (n, f n)) ks) k v
  = map (fun n => (n, if n =? k then v else f n)) ks.
Proof.
  induction 1 as [|n ks Hn Hnd IH]; simpl; [tauto|].
  intros Hk. destruct (String.eqb_spec n k) as [->|Hne].
  - f_equal. apply map_ext_in. intros m Hm.
    destruct (String.eqb_spec m k) as [->|_]; [contradiction|reflexivity].
  - f_equal. apply IH. destruct Hk; [contradiction|assumption].
Qed.

End Tabulated.

Lemma dedup_snoc items x :
  Helpers.dedup (items ++ [x]) = JsSet.add (Helpers.dedup items) x.
Proof. unfold Helpers.dedup. now rewrite fold_left_app. Qed.

Lemma dedup_spec items :
  NoDup (Helpers.dedup items)
  /\ forall x, In x (Helpers.dedup items) <-> In x items.
Proof.
  destruct (HelpersFacts.dedup_acc items [] (NoDup_nil _)) as [H1 H2].
  split; [exact H1|]. intros x. rewrite (H2 x). simpl. tauto.
Qed.

(** One step of the grouping loop. *)
Lemma group_step done a : group (by_name done) a = by_name (done ++ [a]).
Proof.
  unfold group, by_name.
  rewrite map_app. cbn [map]. rewrite dedup_snoc.
  destruct (dedup_spec (map name done)) as [Hnd Hin].
  set (ks := Helpers.dedup (map name done)) in *.
  rewrite get_tabulated. unfold JsSet.add.
  destruct (JsSet.has ks (name a)) eqn:Hhas.
  - rewrite set_tabulated_present;
      [|exact Hnd | now apply JsSetFacts.has_In].
    apply map_ext. intros n. f_equal.
    rewrite filter_app. cbn [filter]. rewrite (String.eqb_sym (name a) n).
    destruct (String.eqb_spec n (name a)) as [->|_];
      [reflexivity | now rewrite app_nil_r].
  - apply JsSetFacts.has_false in Hhas.
    rewrite set_tabulated_absent by exact Hhas.
    rewrite map_app. cbn [map]. f_equal.
    + apply map_ext_in. intros n Hn. f_equal.
      rewrite filter_app. cbn [filter].
      destruct (String.eqb_spec (name a) n) as [E|_];
        [subst n; contradiction | now rewrite app_nil_r].
    + f_equal. f_equal. rewrite filter_app. cbn [filter].
      rewrite String.eqb_refl.
      replace (filter (fun a0 => name a0 =? name a) done)
        with (@nil AgentMetadata); [reflexivity|].
      symmetry.
      assert (Hno : ~ In (name a) (map name done))
        by (intros H; apply Hhas, Hin, H).
      clear - Hno. induction done as [|x done IH]; cbn [filter]; auto.
      destruct (String.eqb_spec (name x) (name a)) as [E|_].
      * exfalso. apply Hno. rewrite <- E. now left.
      * apply IH. intros H. apply Hno. now right.
Qed.

Lemma fold_group todo : forall done,
  fold_left group todo (by_name done) = by_name (done ++ todo).
Proof.
  induction todo as [|a todo IH]; intros done; simpl.
  - now rewrite app_nil_r.
  - rewrite group_step, IH. now rewrite <- app_assoc.
Qed.

Section Facts.

Variable semver : Semver.lib.
Variable compare : string -> string -> option Z.
Variable author : AgentMetadata -> option string.
Variable sort :
  (AgentMetadata -> AgentMetadata -> Z) -> list AgentMetadata
  -> list AgentMetadata.

#[local] Abbreviation getVersionHistory :=
  (VersionHistory.getVersionHistory semver compare author sort).

(** The history has one entry for each name among the agents, in the
    order in which the names first occur, also for a name whose agents
    all lack a version.  The versions of an entry are those of the agents
    of that name that have a version, each once for each such agent. *)
Theorem getVersionHistory_groups (agents : list AgentMetadata) :
  (forall cmp l, Permutation (sort cmp l) l) ->
  let history := getVersionHistory agents in
  map History.name history = Helpers.dedup (map name agents)
  /\ NoDup (map History.name history)
  /\ (forall n, In n (map History.name history) <-> In n (map name agents))
  /\ (forall e,
        In e history ->
        Permutation
          (History.versions e)
          (map (entry_of author)
               (filter (fun a => (name a =? History.name e) && has_version a)
                       agents))).
Proof.
  intros Hsort. cbv zeta. unfold VersionHistory.getVersionHistory.
  pose proof (fold_group agents []) as Hg.
  change (by_name []) with (@nil (string * list AgentMetadata)) in Hg.
  rewrite Hg. cbn [app]. unfold by_name.
  destruct (dedup_spec (map name agents)) as [Hnd Hin].
  rewrite !map_map. cbn [History.name fst]. rewrite map_id.
  split; [reflexivity|]. split; [exact Hnd|]. split; [exact Hin|].
  intros e He. apply in_map_iff in He. destruct He as (n & <- & _).
  cbn [History.versions History.name fst snd].
  apply Permutation_map.
  etransitivity; [apply Hsort|].
  replace (filter has_version (filter (fun a => name a =? n) agents))
    with (filter (fun a => (name a =? n) && has_version a) agents);
    [reflexivity|].
  clear. induction agents as [|a agents IH]; cbn [filter]; auto.
  destruct (name a =? n); cbn [andb filter]; [|exact IH].
  destruct (has_version a); now rewrite IH.
Qed.

End Facts.

Lemma getVersionHistory_groups_witness :
  let sort := fun (cmp : AgentMetadata -> AgentMetadata -> Z) =>
                JsSort.sort (fun a b => (cmp a b <=? 0)%Z) in
  map History.name
      (getVersionHistory Semver.node (fun _ _ => Some 0%Z) (fun _ => None) sort
         [Samples.alpha; Samples.reviewer; Samples.alpha])
  = ["alpha"; "reviewer"].
Proof.
  cbv zeta.
  exact (proj1 (getVersionHistory_groups Semver.node (fun _ _ => Some 0%Z)
                  (fun _ => None)
                  (fun cmp => JsSort.sort (fun a b => (cmp a b <=? 0)%Z))
                  [Samples.alpha; Samples.reviewer; Samples.alpha]
                  (fun cmp l => JsSortFacts.sort_perm _ l))).
Defined.

End HistoryFacts.

(** ** Blank queries and the shape of an answer *)

Module EdgeFacts.

Import JsString SearchIndex Retrieval.

Lemma toLowerCase_spaces q :
  every is_space q = true -> toLowerCase q = q.
Proof.
  induction q as [|c q IH]; simpl; auto.
  intros H. apply andb_true_iff in H. destruct H as [Hc Hq].
  rewrite (IH Hq). f_equal. unfold lower_char.
  replace (is_upper c) with false; auto.
  symmetry. unfold is_space in Hc. unfold is_upper.
  cbv zeta in *. destruct (nat_of_ascii c <=? 13)%nat eqn:E13.
  - apply Nat.leb_le in E13.
    replace (65 <=? nat_of_ascii c)%nat with false; auto.
    symmetry. apply Nat.leb_gt. lia.
  - rewrite andb_false_r in Hc. simpl in Hc. apply Nat.eqb_eq in Hc.
    now rewrite Hc.
Qed.

Lemma split_ws_spaces q :
  every is_space q = true -> In EmptyString (split_ws q).
Proof.
  induction q as [|c q IH]; intros H.
  - now left.
  - cbn [every] in H. apply andb_true_iff in H. destruct H as [Hc Hq].
    cbn [split_ws]. rewrite Hc. destruct q as [|c' q'].
    + now left.
    + pose proof Hq as Hq'. cbn [every] in Hq'.
      apply andb_true_iff in Hq'. destruct Hq' as [Hc' _].
      rewrite Hc'. now apply IH.
Qed.

Lemma includes_empty s : includes s EmptyString = true.
Proof. destruct s; reflexivity. Qed.

(** A query without a visible character, the empty one among them,
    returns every document that some posting set lists, whatever the
    tokens of the documents are. *)
Theorem blank_query_returns_every_posted_document
        (s : SearchIndex.t) (query id : string) :
  every is_space query = true ->
  In id (search s query)
  <-> exists tok ids, In (tok, ids) (index s) /\ In id ids.
Proof.
  intros Hq. rewrite RetrievalFacts.search_hit. unfold hit. split.
  - intros (t & tok & ids & _ & He & _ & Hx). eauto.
  - intros (tok & ids & He & Hx).
    exists EmptyString, tok, ids. repeat split; auto.
    + unfold tokenize. rewrite (toLowerCase_spaces _ Hq).
      now apply split_ws_spaces.
    + apply includes_empty.
Qed.

Lemma blank_query_returns_every_posted_document_witness :
  search Samples.two_documents " " = ["a"; "b"]
  /\ In "a" (search Samples.two_documents " ").
Proof.
  split; [reflexivity|].
  apply (blank_query_returns_every_posted_document
           Samples.two_documents " " "a" eq_refl).
  exists "test", ["a"]. split; simpl; auto.
Defined.

End EdgeFacts.

Module CompatibilityFacts.

Import JsString VersionManager VersionCompatibility.

Ltac answer_shape :=
  cbn;
  split;
  [ let H := fresh in intros H; first [discriminate H | now split]
  | split;
    [ let H := fresh in intros H; first [discriminate H | discriminate]
    | split;
      [ let s := fresh in let H := fresh in
        intros s H;
        first [discriminate H | injection H as <-; split; [reflexivity|]]
      | let H := fresh in intros H; first [discriminate H | reflexivity] ] ] ].

(** Whatever the [semver] package answers, a compatible result of
    [checkCompatibility] has no reason and no suggestion, an incompatible
    one has a reason, and a suggestion is the required version as given
    or a major number followed by [.x.x].  When the package throws on a
    cleaned version, the result is incompatible with the reason
    [Error checking version compatibility]. *)
Theorem checkCompatibility_answer_shape
        (semver : Semver.lib) (required provided : string) :
  let r := checkCompatibility semver required provided in
  (compatible r = true -> reason r = None /\ suggestedVersion r = None)
  /\ (compatible r = false -> reason r <> None)
  /\ (forall s, suggestedVersion r = Some s ->
        compatible r = false
        /\ (s = required \/ exists m, s = of_N m ++ ".x.x"))
  /\ (checkCompatibility_try semver required provided = None ->
      r = {| compatible := false;
             reason := Some "Error checking version compatibility";
             suggestedVersion := None |}).
Proof.
  cbv zeta. unfold checkCompatibility, checkCompatibility_try.
  destruct (falsy (Semver.clean semver required)
            || falsy (Semver.clean semver provided)); [answer_shape|].
  destruct (Semver.satisfies semver _ required); [answer_shape|].
  destruct (Semver.major semver (or_empty_string (Semver.clean semver required)))
    as [rm|]; [|answer_shape].
  destruct (Semver.major semver (or_empty_string (Semver.clean semver provided)))
    as [pm|]; [|answer_shape].
  destruct (negb (rm =? pm)%N); [answer_shape; right; now exists rm|].
  destruct (Semver.lt semver _ _) as [[|]|]; answer_shape. now left.
Qed.

End CompatibilityFacts.
